(** * deepagents command-line console: a model of [src/deepagents/cli.py]

    The development embeds the turn-execution engine ([execute_task]), the
    file-mention resolver ([parse_file_mentions]), the token tracker
    ([TokenTracker]), the console loop ([simple_cli]) and the display
    helpers they use, and proves the properties of the specification about
    them.

    Conventions of the embedding.
    - Python [str] is [string]; one [ascii] stands for one character
      (code points below 256).  A text handed to the console is a list of
      code points ([text]), since the source adds icons to it.
    - Python [int] is [Z].
    - Dictionaries whose keys the code reads by name are records with one
      optional field per key that is read.
    - The console, the spinner ([status]), the agent and the approval prompt
      are the environment: every call the engine makes to them is recorded,
      in order, in a log of [event]s.  What the environment answers (the
      chunks of each stream, the choice of the user at each prompt, how
      [agent.invoke] ends, what the file system holds, what [json.loads]
      returns, what the console makes of a text with markup) is a
      parameter.
    - An exception that no handler catches ends the function that raises it
      and every caller: such an end is a result of its own ([RaiseError],
      [Failed], [Error]), and the log then holds nothing after the call
      that raised, except what a [finally] clause prints. *)

From Stdlib Require Import String Ascii List Bool ZArith NArith Arith Lia.
From Stdlib Require Import DecimalString.
Import ListNotations.

Local Open Scope string_scope.
Local Open Scope list_scope.

(** String concatenation, Python's [+] on [str]; [++] is kept for lists. *)
Infix "+++" := String.append (right associativity, at level 60).

(* ================================================================== *)
(** * Strings *)

(** The newline character as a one-character string. *)
Definition nl : string := String "010"%char EmptyString.

(** Python truthiness of a string: it is not empty. *)
Definition str_truthy (s : string) : bool :=
  match s with
  | EmptyString => false
  | String _ _ => true
  end.

(** [value[:n]] for a non-negative [n]. *)
Fixpoint str_take (n : nat) (s : string) : string :=
  match n, s with
  | O, _ => EmptyString
  | S _, EmptyString => EmptyString
  | S n', String c rest => String c (str_take n' rest)
  end.

(** [sep.join(parts)]. *)
Definition str_join (sep : string) (parts : list string) : string :=
  String.concat sep parts.

(* ================================================================== *)
(** * The console

    [console.print(x)] of Rich reads [x] as console markup, unless it is
    called with [markup=False]: a tag in square brackets is taken out of the
    text and applied as a style, and a closing tag that closes nothing makes
    the call raise [MarkupError].  The source turns markup off for the text
    of the agent only.  The markup that the source writes itself is well
    formed; wherever it prints a text that it does not control (a tool
    result, a tool name, arguments, a file mention, an error message, a
    command), the call may raise.  What Rich makes of such a text is a
    parameter of the model, [markup].  The log records the calls of
    [console.print] with the text handed over; what the terminal shows for
    a text printed with [markup=False] (Rich still wraps it and replaces
    emoji codes) is not modelled. *)

(** A text handed to the console: its code points. *)
Definition text : Type := list N.

(** The code points of a string. *)
Definition codes (s : string) : text := map N_of_ascii (list_ascii_of_string s).

(** [sep.join(parts)] on texts. *)
Fixpoint text_join (sep : text) (parts : list text) : text :=
  match parts with
  | [] => []
  | p :: rest =>
      match rest with
      | [] => p
      | _ :: _ => p ++ sep ++ text_join sep rest
      end
  end.

(** What [console.print] does with a text read as markup: it shows
    [shown], or it raises [MarkupError] with [message]. *)
Inductive print_result : Type :=
  | Printed (shown : text)
  | MarkupFails (message : text).

(** The exceptions that leave a function of the source uncaught. *)
Inductive exn : Type :=
  | MarkupError (message : text)    (* out of [console.print] *)
  | PathError (message : string).   (* out of [expanduser()] or [Path.cwd()] *)

(** The exception of a print, if it raises. *)
Definition print_error (r : print_result) : option exn :=
  match r with
  | Printed _ => None
  | MarkupFails message => Some (MarkupError message)
  end.

(* ================================================================== *)
(** * [truncate_value] *)

Definition MAX_ARG_LENGTH : nat := 150.

(** [def truncate_value(value, max_length=MAX_ARG_LENGTH)] *)
Definition truncate_value (value : string) (max_length : nat) : string :=
  if Nat.ltb max_length (String.length value)
  then str_take max_length value +++ "..."
  else value.

(* ================================================================== *)
(** * [format_tool_message_content] *)

(** An item of a list-shaped tool content: a string, or any other value,
    kept as the text [json.dumps(item)] gives for it (or [str(item)],
    when [json.dumps] raises). *)
Inductive content_item : Type :=
  | ItemStr (s : string)
  | ItemOther (dumped : string).

(** [ToolMessage.content]. *)
Inductive tool_content : Type :=
  | ContentNone
  | ContentList (items : list content_item)
  | ContentStr (s : string).

Definition item_text (i : content_item) : string :=
  match i with
  | ItemStr s => s
  | ItemOther dumped => dumped
  end.

Definition format_tool_message_content (content : tool_content) : string :=
  match content with
  | ContentNone => EmptyString
  | ContentList items => str_join nl (map item_text items)
  | ContentStr s => s
  end.

(* ================================================================== *)
(** * [TokenTracker] *)

Module TokenTracker.

Record t : Type := mk {
  session_input : Z;
  session_output : Z;
  last_input : Z;
  last_output : Z
}.

(** [__init__] *)
Definition init : t := mk 0 0 0 0.

(** [add(self, input_tokens, output_tokens)] *)
Definition add (input_tokens output_tokens : Z) (self : t) : t :=
  {| session_input := (session_input self + input_tokens)%Z;
     session_output := (session_output self + output_tokens)%Z;
     last_input := input_tokens;
     last_output := output_tokens |}.

(** [display_last]: the number it prints, if it prints. *)
Definition display_last (self : t) : option Z :=
  if negb (Z.eqb (last_output self) 0)
  then if Z.geb (last_output self) 1000 then Some (last_output self) else None
  else None.

End TokenTracker.

(* ================================================================== *)
(** * File mentions: [parse_file_mentions] *)

(** [\s] of Python's [re] on [str]: the white-space code points below 256. *)
Definition is_space (c : ascii) : bool :=
  let n := nat_of_ascii c in
  (Nat.leb 9 n && Nat.leb n 13) || (Nat.leb 28 n && Nat.leb n 32)
  || Nat.eqb n 133 || Nat.eqb n 160.

Definition at_sign : ascii := "@"%char.
Definition backslash : ascii := "\"%char.
Definition space : ascii := " "%char.

(** One step of the group [(?:[^\s@]|(?<=\\)\s)]: [c] is accepted after
    [prev] when it is neither white space nor [@], or when it is white space
    and the character before it is a backslash. *)
Definition mention_char (prev c : ascii) : bool :=
  (negb (is_space c) && negb (Ascii.eqb c at_sign))
  || (is_space c && Ascii.eqb prev backslash).

Definition flush (cur : option string) : list string :=
  match cur with
  | Some (String c rest) => [String c rest]
  | _ => []
  end.

Definition open_at (c : ascii) : option string :=
  if Ascii.eqb c at_sign then Some EmptyString else None.

(** [re.findall(r'@((?:[^\s@]|(?<=\\)\s)+)', text)], as one pass from left
    to right.  [cur = Some acc] says that an [@] has been read and that
    [acc] is the (greedy) run of accepted characters read since; [prev] is
    the character just before the one examined.  A run ends at the first
    character that is not accepted; the search resumes at that character,
    and an [@] followed by no accepted character matches nothing. *)
Fixpoint scan_mentions (cur : option string) (prev : ascii) (s : string)
  : list string :=
  match s with
  | EmptyString => flush cur
  | String c rest =>
      match cur with
      | Some acc =>
          if mention_char prev c
          then scan_mentions (Some (acc +++ String c EmptyString)) c rest
          else flush cur ++ scan_mentions (open_at c) c rest
      | None => scan_mentions (open_at c) c rest
      end
  end.

Definition find_mentions (text : string) : list string :=
  scan_mentions None space text.

(** [match.replace('\\ ', ' ')] *)
Fixpoint unescape_spaces (s : string) : string :=
  match s with
  | EmptyString => EmptyString
  | String c rest =>
      match rest with
      | String d rest' =>
          if Ascii.eqb c backslash && Ascii.eqb d space
          then String space (unescape_spaces rest')
          else String c (unescape_spaces rest)
      | EmptyString => String c EmptyString
      end
  end.

(** A resolved [Path]: [str(path)] and [path.name]. *)
Record path : Type := mk_path {
  path_str : string;
  path_name : string
}.

(** What the file system answers for one cleaned mention, through
    [Path(clean_path).expanduser()], [Path.cwd() / path], [path.resolve()],
    [path.exists()] and [path.is_file()].  The first two calls stand before
    the [try]: [expanduser()] raises [RuntimeError] for a [~user] that has
    no home directory, and nothing catches it. *)
Inductive resolution : Type :=
  | IsFile (p : path)            (* resolves to an existing regular file *)
  | NotAFile                     (* does not exist, or is not a regular file *)
  | ResolveFails (err : string)  (* an exception inside the [try] *)
  | PathFails (err : string).    (* an exception before the [try] *)

(** [file_path.read_text()]: the content, or the text of the exception. *)
Inductive read_result : Type :=
  | ReadOk (content : string)
  | ReadFails (err : string).

(** The warnings [parse_file_mentions] prints; both quote the mention as
    matched, before un-escaping. *)
Inductive warning : Type :=
  | FileNotFound (mention : string)
  | InvalidPath (mention : string) (err : string).

(** The text of a warning, as it is handed to [console.print]. *)
Definition warning_text (w : warning) : text :=
  match w with
  | FileNotFound mention =>
      codes ("[yellow]Warning: File not found: " +++ mention +++ "[/yellow]")
  | InvalidPath mention err =>
      codes ("[yellow]Warning: Invalid path " +++ mention +++ ": " +++ err
             +++ "[/yellow]")
  end.

(** How [parse_file_mentions] ends: it returns [(text, files)], or an
    exception leaves it. *)
Inductive parse_end : Type :=
  | Returns (text : string) (files : list path)
  | ParseRaises (e : exn).

Section FileMentions.

Variable markup : text -> print_result.
Variable resolve : string -> resolution.

(** The body of [for match in matches] for one mention: the file it
    appends, the warning it prints, and the exception that leaves it, if
    any.  A warning is printed with markup on; in the [except] clause too. *)
Definition mention_step (mention : string)
  : list path * list warning * option exn :=
  let clean_path := unescape_spaces mention in
  match resolve clean_path with
  | PathFails err => ([], [], Some (PathError err))
  | IsFile p => ([p], [], None)
  | NotAFile =>
      let w := FileNotFound mention in
      ([], [w], print_error (markup (warning_text w)))
  | ResolveFails err =>
      let w := InvalidPath mention err in
      ([], [w], print_error (markup (warning_text w)))
  end.

(** [for match in matches]: the files appended, the warnings printed, and
    the exception that ends the loop, if any. *)
Fixpoint resolve_mentions (matches : list string)
  : list path * list warning * option exn :=
  match matches with
  | [] => ([], [], None)
  | mention :: rest =>
      match mention_step mention with
      | (files, warnings, None) =>
          match resolve_mentions rest with
          | (files', warnings', e) => (files ++ files', warnings ++ warnings', e)
          end
      | (files, warnings, Some e) => (files, warnings, Some e)
      end
  end.

(** [parse_file_mentions(text)]: how it ends, and the warnings printed on
    the way (the last one is the call that raised, if a print raised). *)
Definition parse_file_mentions (text : string) : parse_end * list warning :=
  match resolve_mentions (find_mentions text) with
  | (files, warnings, None) => (Returns text files, warnings)
  | (_, warnings, Some e) => (ParseRaises e, warnings)
  end.

End FileMentions.

(* ================================================================== *)
(** * The stream protocol *)

(** A todo item, the dictionary [{"content": ..., "status": ...}];
    [None] is an absent key. *)
Record todo : Type := mk_todo {
  todo_status : option string;
  todo_content : option string
}.

(** An action request of an interrupt; [prompt_for_shell_approval] reads
    only its ["description"]. *)
Record action_request : Type := mk_request {
  description : option string
}.

(** A dictionary of the updates channel, seen through the keys the engine
    reads: ["action_requests"] (of an interrupt value), ["todos"] (of a node
    output), and whether it holds any other key. *)
Record pydict : Type := mk_dict {
  d_action_requests : option (list action_request);
  d_todos : option (list todo);
  d_other_keys : bool
}.

(** A value of the updates dictionary. *)
Inductive upd_value : Type :=
  | VTuple (interrupts : list pydict) (* tuple of [Interrupt]s, by their [.value] *)
  | VDict (d : pydict)
  | VNone.                            (* [None], or any other falsy non-dict *)

(** A content block of an [AIMessageChunk]. *)
Inductive block_args : Type :=
  | ArgsAbsent                  (* no ["args"] key *)
  | ArgsNone                    (* ["args"] is [None] *)
  | ArgsStr (s : string).

Inductive block : Type :=
  | TextBlock (text : string)
  | ReasoningBlock (reasoning : string)
  | ToolCallChunk (name : option string) (args : block_args) (id : option string)
  | OtherBlock.

(** [usage_metadata], with the defaults of [usage.get(..., 0)] applied. *)
Record usage : Type := mk_usage {
  input_tokens : Z;
  output_tokens : Z
}.

Inductive message : Type :=
  | ToolMessage (name : option string) (status : string) (content : tool_content)
  | AIMessageChunk (usage_metadata : option usage) (content_blocks : list block)
  | OtherMessage.               (* no [content_blocks] attribute *)

(** A chunk of [agent.stream(..., stream_mode=["messages", "updates"],
    subgraphs=True)]. *)
Inductive chunk : Type :=
  | Malformed                                        (* not a 3-tuple *)
  | Updates (data : option (list (string * upd_value))) (* [None]: not a dict *)
  | Messages (data : option message)                 (* [None]: not a pair *)
  | OtherMode.

(** What iterating the stream gives next: a chunk, or [KeyboardInterrupt]
    raised while waiting for one. *)
Inductive pulled : Type :=
  | Yield (c : chunk)
  | CtrlC.

(** An approval decision: [{"type": "approve"}] or
    [{"type": "reject", "message": ...}]. *)
Inductive decision : Type :=
  | Approve
  | Reject (message : string).

(** What is passed to the agent: the first payload, or [Command(resume=
    {"decisions": ...})]. *)
Inductive stream_input : Type :=
  | UserMessages (content : string)
  | Resume (decisions : list decision).

(** How [prompt_for_shell_approval] ends at the keyboard. *)
Inductive user_choice : Type :=
  | ChooseApprove
  | ChooseReject
  | PressCtrlC.

(** How [agent.invoke] ends. *)
Inductive invoke_result : Type :=
  | InvokeReturns
  | InvokeRaises (err : string)   (* an [Exception] *)
  | InvokeCtrlC.                  (* [KeyboardInterrupt] *)


(** The calls of the engine to its environment, and the chunks it pulls.
    A print is recorded when it is called; whether it returns is decided by
    the console. *)
Inductive todo_style : Type := Green | Yellow | Dim.

Inductive event : Type :=
  | AgentStream (input : stream_input)
  | AgentInvoke (input : stream_input)
  | Pulled (c : chunk)
  | Prompt (request : action_request)           (* the panel of the approval prompt *)
  | StatusStart
  | StatusStop
  | PrintBlank                                  (* [console.print()] *)
  | PrintWarning (w : warning)
  | PrintTodoPanel (lines : list (todo_style * N * string))
  | PrintToolError (content : string)
  | PrintAgentMarker
  | PrintText (text : string)
  | PrintToolCall (icon : list N) (name args_str : string)
  | PrintResumeError (err : string)
  | PrintRejected
  | PrintInterrupted
  | PrintLastTokens (n : Z).

(** The ends of [execute_task]: its three return paths, and the exception
    that leaves it when nothing catches it. *)
Inductive outcome : Type :=
  | Completed
  | Rejected
  | InterruptedByUser
  | Error (e : exn).

(* ================================================================== *)
(** * Todo snapshots *)

Definition option_eqb {A : Type} (eqb : A -> A -> bool) (x y : option A) : bool :=
  match x, y with
  | None, None => true
  | Some a, Some b => eqb a b
  | _, _ => false
  end.

Fixpoint list_eqb {A : Type} (eqb : A -> A -> bool) (l1 l2 : list A) : bool :=
  match l1, l2 with
  | [], [] => true
  | a :: l1', b :: l2' => eqb a b && list_eqb eqb l1' l2'
  | _, _ => false
  end.

Definition todo_eqb (a b : todo) : bool :=
  option_eqb String.eqb (todo_status a) (todo_status b)
  && option_eqb String.eqb (todo_content a) (todo_content b).

(** [==] between the value of [current_todos] ([None] at first, then the
    last snapshot received) and a snapshot. *)
Definition snapshot_eqb (a b : option (list todo)) : bool :=
  option_eqb (list_eqb todo_eqb) a b.

(** One line of the panel: style, icon (code point) and content. *)
Definition todo_line (t : todo) : todo_style * N * string :=
  let status := match todo_status t with Some s => s | None => "pending" end in
  let content := match todo_content t with Some c => c | None => EmptyString end in
  if String.eqb status "completed" then (Green, 9745%N, content)
  else if String.eqb status "in_progress" then (Yellow, 9203%N, content)
  else (Dim, 9744%N, content).

Definition style_name (s : todo_style) : string :=
  match s with
  | Green => "green"
  | Yellow => "yellow"
  | Dim => "dim"
  end.

(** [f"[{style}]{icon} {content}[/{style}]"] *)
Definition todo_line_text (l : todo_style * N * string) : text :=
  let '(style, icon, content) := l in
  codes ("[" +++ style_name style +++ "]") ++ [icon]
  ++ codes (" " +++ content +++ "[/" +++ style_name style +++ "]").

(** The body of the panel: the lines joined by newlines. *)
Definition panel_text (lines : list (todo_style * N * string)) : text :=
  text_join (codes nl) (map todo_line_text lines).

(* ================================================================== *)
(** * The approval prompt *)

(** The body of the panel that [prompt_for_shell_approval] prints first:
    the heading, an empty line and
    [action_request.get('description', 'No description available')]. *)
Definition approval_text (request : action_request) : text :=
  codes "[bold yellow]" ++ [9888%N; 65039%N]
  ++ codes ("  Shell Command Requires Approval[/bold yellow]" +++ nl +++ nl
            +++ match description request with
                | Some d => d
                | None => "No description available"
                end).

(** How [prompt_for_shell_approval] ends: with the decision for the
    selected option, by [KeyboardInterrupt], or by the exception of the
    panel. *)
Inductive prompt_end : Type :=
  | Decided (d : decision)
  | PromptCtrlC
  | PromptRaises (e : exn).

(** The decision for the choice of the user. *)
Definition decision_of (choice : user_choice) : prompt_end :=
  match choice with
  | ChooseApprove => Decided Approve
  | ChooseReject => Decided (Reject "User rejected the command")
  | PressCtrlC => PromptCtrlC
  end.

(** [decision.get("type") == "reject"] *)
Definition is_reject (d : decision) : bool :=
  match d with
  | Reject _ => true
  | Approve => false
  end.

(* ================================================================== *)
(** * The turn-execution engine: [execute_task] *)

Definition tool_icons : list (string * list N) :=
  [ ("read_file", [128214%N]);
    ("write_file", [9999%N; 65039%N]);
    ("edit_file", [9986%N; 65039%N]);
    ("ls", [128193%N]);
    ("glob", [128269%N]);
    ("grep", [128270%N]);
    ("shell", [9889%N]);
    ("web_search", [127760%N]);
    ("http_request", [127757%N]);
    ("task", [129302%N]);
    ("write_todos", [128203%N]) ].

Fixpoint dict_get {V : Type} (key : string) (d : list (string * V)) : option V :=
  match d with
  | [] => None
  | (k, v) :: rest => if String.eqb k key then Some v else dict_get key rest
  end.

(** [tool_icons.get(tool_name, default)] *)
Definition icon_of (tool_name : string) : list N :=
  match dict_get tool_name tool_icons with
  | Some icon => icon
  | None => [128295%N]
  end.

(** [f"  {icon} {tool_name}({args_str})"] *)
Definition tool_call_line (icon : list N) (tool_name args_str : string) : text :=
  codes "  " ++ icon ++ codes (" " +++ tool_name +++ "(" +++ args_str +++ ")").

(** [f"[red]Error resuming after rejection: {err}[/red]"] *)
Definition resume_error_text (err : string) : text :=
  codes ("[red]Error resuming after rejection: " +++ err +++ "[/red]").

(** The local variables of [execute_task] that the loop reads and writes.
    [prompts_shown] is not a variable of the source: it counts the approval
    prompts shown so far and indexes the answers of the user. *)
Record state : Type := mk_state {
  has_responded : bool;
  captured_input_tokens : Z;
  captured_output_tokens : Z;
  current_todos : option (list todo);
  spinner_active : bool;
  prompts_shown : nat
}.

Definition set_has_responded (b : bool) (st : state) : state :=
  mk_state b (captured_input_tokens st) (captured_output_tokens st)
           (current_todos st) (spinner_active st) (prompts_shown st).

Definition set_captured (i o : Z) (st : state) : state :=
  mk_state (has_responded st) i o
           (current_todos st) (spinner_active st) (prompts_shown st).

Definition set_current_todos (t : option (list todo)) (st : state) : state :=
  mk_state (has_responded st) (captured_input_tokens st)
           (captured_output_tokens st) t (spinner_active st) (prompts_shown st).

Definition set_spinner_active (b : bool) (st : state) : state :=
  mk_state (has_responded st) (captured_input_tokens st)
           (captured_output_tokens st) (current_todos st) b (prompts_shown st).

Definition set_prompts_shown (n : nat) (st : state) : state :=
  mk_state (has_responded st) (captured_input_tokens st)
           (captured_output_tokens st) (current_todos st) (spinner_active st) n.

(** [if spinner_active: status.stop(); spinner_active = False] *)
Definition stop_spinner (st : state) : state * list event :=
  if spinner_active st
  then (set_spinner_active false st, [StatusStop])
  else (st, []).

(** How the [for chunk in agent.stream(...)] loop goes on after a step. *)
Inductive flow : Type :=
  | Continue
  | Break (decisions : list decision)   (* an interrupt was answered *)
  | RaiseCtrlC                          (* [KeyboardInterrupt] propagates *)
  | RaiseError (e : exn).               (* an exception that nothing catches *)

(** How one traversal of a stream ends. *)
Inductive stream_end : Type :=
  | Exhausted
  | BrokeOut (decisions : list decision)
  | Raised                              (* by [KeyboardInterrupt] *)
  | Failed (e : exn).

(** How the loop goes on after a print with markup on. *)
Definition print_flow (r : print_result) : flow :=
  match r with
  | Printed _ => Continue
  | MarkupFails message => RaiseError (MarkupError message)
  end.

(** Python truthiness. *)
Definition dict_truthy (d : pydict) : bool :=
  match d_action_requests d, d_todos d with
  | None, None => d_other_keys d
  | _, _ => true
  end.

Definition upd_truthy (v : upd_value) : bool :=
  match v with
  | VTuple [] => false
  | VTuple (_ :: _) => true
  | VDict d => dict_truthy d
  | VNone => false
  end.

(** [interrupt_obj = interrupt_data[0] if isinstance(interrupt_data, tuple)
    else interrupt_data], then [hitl_request = interrupt_obj.value if
    hasattr(interrupt_obj, 'value') else interrupt_obj], for a truthy
    [interrupt_data]; an [Interrupt] is kept as its [.value]. *)
Definition hitl_request_of (interrupt_data : upd_value) : option pydict :=
  match interrupt_data with
  | VTuple (i :: _) => Some i
  | VDict d => Some d
  | _ => None
  end.

(** [hitl_request.get("action_requests", [])] *)
Definition action_requests_of (hitl_request : pydict) : list action_request :=
  match d_action_requests hitl_request with
  | Some reqs => reqs
  | None => []
  end.

(** [list(data.values())[0] if data else None] *)
Definition first_value (data : list (string * upd_value)) : upd_value :=
  match data with
  | [] => VNone
  | (_, v) :: _ => v
  end.

(** The end of a turn: how [execute_task] ends, the log, the local
    variables at that point and the token tracker as the turn leaves it. *)
Record turn : Type := mk_turn {
  turn_outcome : outcome;
  turn_log : list event;
  turn_state : state;
  turn_tracker : option TokenTracker.t
}.

Definition prepend (ev : list event) (t : turn) : turn :=
  mk_turn (turn_outcome t) (ev ++ turn_log t) (turn_state t) (turn_tracker t).

(** How the decisions of an interrupt are collected: all of them, or the
    loop is left by [KeyboardInterrupt] or by another exception. *)
Inductive collected : Type :=
  | Decisions (decisions : list decision)
  | CollectCtrlC
  | CollectRaises (e : exn).

Section Engine.

(** ** The environment *)

(** [json.loads] and what the engine does with its result: [None] is an
    exception ([json.loads] raising, or [.items()] on a value that is not
    a dictionary). *)
Variable pyobj : Type.
Variable json_loads : string -> option pyobj.
Variable dict_items : pyobj -> option (list (string * pyobj)).
Variable py_str : pyobj -> string.

(** What the console makes of a text with markup. *)
Variable markup : text -> print_result.

(** The choice of the user at the [n]-th approval prompt of the turn. *)
Variable user : nat -> user_choice.

(** How [agent.invoke] ends, if it is called. *)
Variable invoke : invoke_result.

(** The file system. *)
Variable resolve : string -> resolution.
Variable read_text : path -> read_result.

(** ** Tool-call lines *)

(** [f"{k}={truncate_value(str(v), 50)}"] *)
Definition format_arg (kv : string * pyobj) : string :=
  fst kv +++ "=" +++ truncate_value (py_str (snd kv)) 50.

(** The [try]/[except] that computes [args_str] from
    [tool_args], the ["args"] of the block (the empty string when the key
    is absent). *)
Definition format_tool_args (args : block_args) : string :=
  match args with
  | ArgsAbsent => EmptyString
  | ArgsNone => "None"
  | ArgsStr s =>
      if str_truthy s then
        match json_loads s with
        | Some parsed_args =>
            match dict_items parsed_args with
            | Some items => str_join ", " (map format_arg items)
            | None => s
            end
        | None => s
        end
      else s
  end.

(** ** Content blocks *)

(** One content block.  The text of the agent is printed with
    [markup=False]; the tool-call line is printed with markup on, after
    [status.stop()] and before [status.start()]. *)
Definition handle_block (st : state) (b : block) : state * list event * flow :=
  match b with
  | TextBlock text =>
      if str_truthy text then
        let (st1, ev1) := stop_spinner st in
        let ev2 := if has_responded st1 then [] else [PrintAgentMarker] in
        (set_has_responded true st1, ev1 ++ ev2 ++ [PrintText text], Continue)
      else (st, [], Continue)
  | ReasoningBlock reasoning =>
      if str_truthy reasoning
      then let (st1, ev1) := stop_spinner st in (st1, ev1, Continue)
      else (st, [], Continue)
  | ToolCallChunk (Some tool_name) tool_args _ =>
      if str_truthy tool_name then
        let icon := icon_of tool_name in
        let args_str := format_tool_args tool_args in
        let ev1 := (if spinner_active st then [StatusStop] else [])
                   ++ (if has_responded st then [PrintBlank] else [])
                   ++ [PrintToolCall icon tool_name args_str] in
        match markup (tool_call_line icon tool_name args_str) with
        | Printed _ =>
            (st, ev1 ++ (if spinner_active st then [StatusStart] else []), Continue)
        | MarkupFails message => (st, ev1, RaiseError (MarkupError message))
        end
      else (st, [], Continue)
  | ToolCallChunk None _ _ => (st, [], Continue)
  | OtherBlock => (st, [], Continue)
  end.

(** [for block in message.content_blocks] *)
Fixpoint handle_blocks (st : state) (blocks : list block)
  : state * list event * flow :=
  match blocks with
  | [] => (st, [], Continue)
  | b :: rest =>
      match handle_block st b with
      | (st1, ev1, Continue) =>
          match handle_blocks st1 rest with
          | (st2, ev2, f) => (st2, ev1 ++ ev2, f)
          end
      | (st1, ev1, f) => (st1, ev1, f)
      end
  end.

(** ** The messages channel *)

(** The usage step: the maxima are raised only when a tracker was passed
    and the message reports a non-zero count. *)
Definition capture_usage (tracker_given : bool) (u : option usage) (st : state)
  : state :=
  match u with
  | Some usage =>
      if tracker_given
         && (negb (Z.eqb (input_tokens usage) 0)
             || negb (Z.eqb (output_tokens usage) 0))
      then set_captured
             (Z.max (captured_input_tokens st) (input_tokens usage))
             (Z.max (captured_output_tokens st) (output_tokens usage)) st
      else st
  | None => st
  end.

Definition is_shell (name : option string) : bool :=
  match name with
  | Some n => String.eqb n "shell"
  | None => false
  end.

(** One message.  The content of a failed [shell] call is printed with
    markup on. *)
Definition handle_message (tracker_given : bool) (st : state) (m : message)
  : state * list event * flow :=
  match m with
  | ToolMessage tool_name tool_status content =>
      if is_shell tool_name && negb (String.eqb tool_status "success") then
        let tool_content := format_tool_message_content content in
        if str_truthy tool_content then
          let (st1, ev1) := stop_spinner st in
          match markup (codes tool_content) with
          | Printed _ =>
              (st1, ev1 ++ [PrintBlank; PrintToolError tool_content; PrintBlank],
               Continue)
          | MarkupFails message =>
              (st1, ev1 ++ [PrintBlank; PrintToolError tool_content],
               RaiseError (MarkupError message))
          end
        else (st, [], Continue)
      else (st, [], Continue)
  | OtherMessage => (st, [], Continue)
  | AIMessageChunk usage_metadata content_blocks =>
      handle_blocks (capture_usage tracker_given usage_metadata st) content_blocks
  end.

(** ** The updates channel *)

(** [prompt_for_shell_approval(action_request)]: the panel that shows the
    request is printed first, with markup on; the keys are read after it. *)
Definition prompt_for_shell_approval (request : action_request)
           (choice : user_choice) : prompt_end :=
  match markup (approval_text request) with
  | Printed _ => decision_of choice
  | MarkupFails message => PromptRaises (MarkupError message)
  end.

(** [for action_request in ...: decisions.append(prompt_for_shell_approval
    (action_request))], from the [n]-th prompt of the turn on. *)
Fixpoint collect_decisions (n : nat) (requests : list action_request)
  : collected * list event * nat :=
  match requests with
  | [] => (Decisions [], [], n)
  | r :: rest =>
      match prompt_for_shell_approval r (user n) with
      | PromptCtrlC => (CollectCtrlC, [Prompt r], S n)
      | PromptRaises e => (CollectRaises e, [Prompt r], S n)
      | Decided d =>
          match collect_decisions (S n) rest with
          | (Decisions ds, ev, n') => (Decisions (d :: ds), Prompt r :: ev, n')
          | (other, ev, n') => (other, Prompt r :: ev, n')
          end
      end
  end.

(** [render_todo_list(todos)]: nothing is printed for an empty list;
    otherwise the panel is printed, its lines read as markup. *)
Definition render_todo_list (todos : list todo) : list event * flow :=
  match todos with
  | [] => ([], Continue)
  | _ :: _ =>
      let lines := map todo_line todos in
      ([PrintTodoPanel lines], print_flow (markup (panel_text lines)))
  end.

(** The todo check on [chunk_data]. *)
Definition handle_todos (st : state) (chunk_data : upd_value)
  : state * list event * flow :=
  match chunk_data with
  | VDict d =>
      if dict_truthy d then
        match d_todos d with
        | Some new_todos =>
            if negb (snapshot_eqb (Some new_todos) (current_todos st)) then
              let (st1, ev1) := stop_spinner (set_current_todos (Some new_todos) st) in
              match render_todo_list new_todos with
              | (ev2, Continue) =>
                  (st1, ev1 ++ [PrintBlank] ++ ev2 ++ [PrintBlank], Continue)
              | (ev2, f) => (st1, ev1 ++ [PrintBlank] ++ ev2, f)
              end
            else (st, [], Continue)
        | None => (st, [], Continue)
        end
      else (st, [], Continue)
  | _ => (st, [], Continue)
  end.

Definition handle_interrupt (st : state) (hitl_request : pydict)
  : state * list event * flow :=
  let (st1, ev1) := stop_spinner st in
  match collect_decisions (prompts_shown st1) (action_requests_of hitl_request) with
  | (Decisions decisions, ev2, n) =>
      (set_prompts_shown n st1, ev1 ++ ev2, Break decisions)
  | (CollectCtrlC, ev2, n) =>
      (set_prompts_shown n st1, ev1 ++ ev2, RaiseCtrlC)
  | (CollectRaises e, ev2, n) =>
      (set_prompts_shown n st1, ev1 ++ ev2, RaiseError e)
  end.

(** The interrupt of an updates dictionary, if it has a truthy one. *)
Definition interrupt_of (data : list (string * upd_value)) : option pydict :=
  match dict_get "__interrupt__" data with
  | Some interrupt_data =>
      if upd_truthy interrupt_data then hitl_request_of interrupt_data else None
  | None => None
  end.

Definition handle_updates (st : state) (data : list (string * upd_value))
  : state * list event * flow :=
  match interrupt_of data with
  | Some hitl_request => handle_interrupt st hitl_request
  | None => handle_todos st (first_value data)
  end.

(** ** One chunk, one stream *)

Definition handle_chunk (tracker_given : bool) (st : state) (c : chunk)
  : state * list event * flow :=
  match c with
  | Malformed => (st, [], Continue)
  | Updates None => (st, [], Continue)
  | Updates (Some data) => handle_updates st data
  | Messages None => (st, [], Continue)
  | Messages (Some message) => handle_message tracker_given st message
  | OtherMode => (st, [], Continue)
  end.

(** [for chunk in agent.stream(...)]: the chunks are handled in order
    until the stream is exhausted, an interrupt breaks out of the loop, or
    an exception is raised. *)
Fixpoint process_stream (tracker_given : bool) (st : state) (items : list pulled)
  : state * list event * stream_end :=
  match items with
  | [] => (st, [], Exhausted)
  | CtrlC :: _ => (st, [], Raised)
  | Yield c :: rest =>
      match handle_chunk tracker_given st c with
      | (st1, ev1, Continue) =>
          match process_stream tracker_given st1 rest with
          | (st2, ev2, e) => (st2, Pulled c :: ev1 ++ ev2, e)
          end
      | (st1, ev1, Break decisions) => (st1, Pulled c :: ev1, BrokeOut decisions)
      | (st1, ev1, RaiseCtrlC) => (st1, Pulled c :: ev1, Raised)
      | (st1, ev1, RaiseError e) => (st1, Pulled c :: ev1, Failed e)
      end
  end.

(** ** The end of a turn *)

(** [token_tracker.display_last()] *)
Definition display_last_events (t : TokenTracker.t) : list event :=
  match TokenTracker.display_last t with
  | Some n => [PrintLastTokens n]
  | None => []
  end.

(** After the [while] loop: the spinner is stopped and, if the agent
    responded, the captured usage is added to the tracker and shown. *)
Definition finish_turn (tracker : option TokenTracker.t) (st : state) : turn :=
  let ev_stop := if spinner_active st then [StatusStop] else [] in
  if has_responded st then
    match tracker with
    | Some t =>
        if negb (Z.eqb (captured_input_tokens st) 0)
           || negb (Z.eqb (captured_output_tokens st) 0)
        then
          let t' := TokenTracker.add (captured_input_tokens st)
                                     (captured_output_tokens st) t in
          mk_turn Completed
                  (ev_stop ++ [PrintBlank] ++ display_last_events t' ++ [PrintBlank])
                  st (Some t')
        else mk_turn Completed (ev_stop ++ [PrintBlank; PrintBlank]) st tracker
    | None => mk_turn Completed (ev_stop ++ [PrintBlank; PrintBlank]) st tracker
    end
  else mk_turn Completed ev_stop st tracker.

(** [except KeyboardInterrupt] *)
Definition interrupted_turn (tracker : option TokenTracker.t) (st : state) : turn :=
  mk_turn InterruptedByUser
          ((if spinner_active st then [StatusStop] else []) ++ [PrintInterrupted])
          st tracker.

(** An exception that nothing catches leaves [execute_task] at once. *)
Definition failed_turn (tracker : option TokenTracker.t) (st : state) (e : exn)
  : turn :=
  mk_turn (Error e) [] st tracker.

(** The rejection path: the agent is resumed once through [agent.invoke]
    and the turn returns.  An [Exception] out of [agent.invoke] is printed,
    with markup on; the [finally] clause prints the rejection notice on
    every path, also when the call is left by [KeyboardInterrupt], which
    then reaches the outer handler, and when the print of the exception
    raises, which nothing catches. *)
Definition rejected_turn (tracker : option TokenTracker.t) (st : state)
           (decisions : list decision) : turn :=
  let (st1, ev1) := stop_spinner st in
  let call := AgentInvoke (Resume decisions) in
  match invoke with
  | InvokeReturns =>
      mk_turn Rejected (ev1 ++ [call; PrintRejected]) st1 tracker
  | InvokeRaises err =>
      match markup (resume_error_text err) with
      | Printed _ =>
          mk_turn Rejected (ev1 ++ [call; PrintResumeError err; PrintRejected])
                  st1 tracker
      | MarkupFails message =>
          prepend (ev1 ++ [call; PrintResumeError err; PrintRejected])
                  (failed_turn tracker st1 (MarkupError message))
      end
  | InvokeCtrlC =>
      prepend (ev1 ++ [call; PrintRejected]) (interrupted_turn tracker st1)
  end.

Definition tracker_given (tracker : option TokenTracker.t) : bool :=
  match tracker with
  | Some _ => true
  | None => false
  end.

(** ** The [while True] loop

    [script] lists what the agent streams at the successive calls of
    [agent.stream] of the turn; a call beyond the script streams nothing. *)
Fixpoint stream_loop (tracker : option TokenTracker.t)
         (script : list (list pulled)) (st : state) (input : stream_input)
  : turn :=
  match script with
  | [] => prepend [AgentStream input] (finish_turn tracker st)
  | items :: rest =>
      match process_stream (tracker_given tracker) st items with
      | (st1, ev, Exhausted) =>
          prepend (AgentStream input :: ev) (finish_turn tracker st1)
      | (st1, ev, Raised) =>
          prepend (AgentStream input :: ev) (interrupted_turn tracker st1)
      | (st1, ev, Failed e) =>
          prepend (AgentStream input :: ev) (failed_turn tracker st1 e)
      | (st1, ev, BrokeOut decisions) =>
          if existsb is_reject decisions
          then prepend (AgentStream input :: ev)
                       (rejected_turn tracker st1 decisions)
          else prepend (AgentStream input :: ev)
                       (stream_loop tracker rest st1 (Resume decisions))
      end
  end.

(** ** [execute_task] *)

(** The section appended for one mentioned file. *)
Definition file_section (p : path) : string :=
  match read_text p with
  | ReadOk content =>
      let content :=
        if N.ltb 50000 (N.of_nat (String.length content))
        then str_take (N.to_nat 50000) content +++ nl +++ "... (file truncated)"
        else content in
      nl +++ "### " +++ path_name p +++ nl +++ "Path: `" +++ path_str p +++ "`"
      +++ nl +++ "```" +++ nl +++ content +++ nl +++ "```"
  | ReadFails err =>
      nl +++ "### " +++ path_name p +++ nl +++ "[Error reading file: " +++ err +++ "]"
  end.

Definition final_input_of (prompt_text : string) (mentioned_files : list path)
  : string :=
  match mentioned_files with
  | [] => prompt_text
  | _ :: _ =>
      str_join nl
        ([prompt_text; nl +++ nl +++ "## Referenced Files" +++ nl]
         ++ map file_section mentioned_files)
  end.

Definition initial_state : state :=
  {| has_responded := false;
     captured_input_tokens := 0;
     captured_output_tokens := 0;
     current_todos := None;
     spinner_active := true;
     prompts_shown := 0 |}.

(** [execute_task(user_input, agent, assistant_id, token_tracker)].  When
    [parse_file_mentions] raises, nothing of the turn has started: no
    spinner, no call to the agent; the turn then reports the local
    variables with the values they would be given first. *)
Definition execute_task (user_input : string) (script : list (list pulled))
           (token_tracker : option TokenTracker.t) : turn :=
  match parse_file_mentions markup resolve user_input with
  | (Returns prompt_text mentioned_files, warnings) =>
      let final_input := final_input_of prompt_text mentioned_files in
      prepend ([PrintBlank] ++ map PrintWarning warnings ++ [StatusStart])
              (stream_loop token_tracker script initial_state
                           (UserMessages final_input))
  | (ParseRaises e, warnings) =>
      mk_turn (Error e) ([PrintBlank] ++ map PrintWarning warnings)
              initial_state token_tracker
  end.

End Engine.

Arguments format_arg {pyobj}.
Arguments format_tool_args {pyobj}.
Arguments handle_block {pyobj}.
Arguments handle_blocks {pyobj}.
Arguments handle_message {pyobj}.
Arguments handle_chunk {pyobj}.
Arguments process_stream {pyobj}.
Arguments stream_loop {pyobj}.
Arguments execute_task {pyobj}.

(* ================================================================== *)
(** * A fragment of [json.loads], to run the engine on examples

    [json.loads] is a parameter of the engine.  The examples instantiate it
    with a parser of the flat objects [{"k": "v", ...}] whose keys and
    values are strings without escapes; any other text is refused, as
    [json.loads] refuses a text that is not JSON. *)

Module MiniJson.

Inductive value : Type :=
  | MString (s : string)
  | MObject (items : list (string * string)).

Definition quote : ascii := "034"%char.

(** [d[k] = v] on a dictionary kept in insertion order. *)
Fixpoint dict_set (k v : string) (d : list (string * string))
  : list (string * string) :=
  match d with
  | [] => [(k, v)]
  | (k', v') :: rest =>
      if String.eqb k' k then (k, v) :: rest else (k', v') :: dict_set k v rest
  end.

Definition is_json_space (c : ascii) : bool :=
  Ascii.eqb c " "%char || Ascii.eqb c "009"%char
  || Ascii.eqb c "010"%char || Ascii.eqb c "013"%char.

Inductive pstate : Type :=
  | BeforeObject
  | KeyOrEnd                  (* after the opening brace *)
  | BeforeKey                 (* after a comma *)
  | InKey (acc : string)
  | BeforeColon (key : string)
  | BeforeValue (key : string)
  | InValue (key acc : string)
  | CommaOrEnd
  | Done.

Fixpoint run (p : pstate) (d : list (string * string)) (s : string)
  : option (list (string * string)) :=
  match s with
  | EmptyString => match p with Done => Some d | _ => None end
  | String c rest =>
      match p with
      | BeforeObject =>
          if is_json_space c then run BeforeObject d rest
          else if Ascii.eqb c "{"%char then run KeyOrEnd d rest else None
      | KeyOrEnd =>
          if is_json_space c then run KeyOrEnd d rest
          else if Ascii.eqb c quote then run (InKey EmptyString) d rest
          else if Ascii.eqb c "}"%char then run Done d rest else None
      | BeforeKey =>
          if is_json_space c then run BeforeKey d rest
          else if Ascii.eqb c quote then run (InKey EmptyString) d rest else None
      | InKey acc =>
          if Ascii.eqb c quote then run (BeforeColon acc) d rest
          else if Ascii.eqb c "\"%char || Nat.ltb (nat_of_ascii c) 32 then None
          else run (InKey (acc +++ String c EmptyString)) d rest
      | BeforeColon key =>
          if is_json_space c then run (BeforeColon key) d rest
          else if Ascii.eqb c ":"%char then run (BeforeValue key) d rest else None
      | BeforeValue key =>
          if is_json_space c then run (BeforeValue key) d rest
          else if Ascii.eqb c quote then run (InValue key EmptyString) d rest
          else None
      | InValue key acc =>
          if Ascii.eqb c quote then run CommaOrEnd (dict_set key acc d) rest
          else if Ascii.eqb c "\"%char || Nat.ltb (nat_of_ascii c) 32 then None
          else run (InValue key (acc +++ String c EmptyString)) d rest
      | CommaOrEnd =>
          if is_json_space c then run CommaOrEnd d rest
          else if Ascii.eqb c ","%char then run BeforeKey d rest
          else if Ascii.eqb c "}"%char then run Done d rest else None
      | Done => if is_json_space c then run Done d rest else None
      end
  end.

Definition json_loads (s : string) : option value :=
  option_map MObject (run BeforeObject [] s).

(** [parsed_args.items()]; a string has no [items]. *)
Definition dict_items (v : value) : option (list (string * value)) :=
  match v with
  | MObject items => Some (map (fun kv => (fst kv, MString (snd kv))) items)
  | MString _ => None
  end.

(** [str(v)] *)
Definition py_str (v : value) : string :=
  match v with
  | MString s => s
  | MObject items =>
      "{" +++ str_join ", "
                (map (fun kv => "'" +++ fst kv +++ "': '" +++ snd kv +++ "'") items)
      +++ "}"
  end.

(** A text in double quotes. *)
Definition quoted (s : string) : string :=
  String quote EmptyString +++ s +++ String quote EmptyString.

End MiniJson.

(* ================================================================== *)
(** * Properties of the token tracker *)

(** C8. Two successive calls of [TokenTracker.add], with [(a, b)] then
    [(c, d)], leave the same session totals as the calls in the other
    order, from the same tracker; [last_input] and [last_output] are the
    arguments of the second call alone. *)
Theorem add_session_order_independent :
  forall (a b c d : Z) (t : TokenTracker.t),
    let ab_cd := TokenTracker.add c d (TokenTracker.add a b t) in
    let cd_ab := TokenTracker.add a b (TokenTracker.add c d t) in
    TokenTracker.session_input ab_cd = TokenTracker.session_input cd_ab
    /\ TokenTracker.session_output ab_cd = TokenTracker.session_output cd_ab
    /\ TokenTracker.last_input ab_cd = c
    /\ TokenTracker.last_output ab_cd = d.
Proof.
  intros a b c d t ab_cd cd_ab. subst ab_cd cd_ab.
  unfold TokenTracker.add; cbn [TokenTracker.session_input
    TokenTracker.session_output TokenTracker.last_input TokenTracker.last_output].
  repeat split; lia.
Qed.

(* ================================================================== *)
(** * A fragment of Rich's console markup, to run the engine on examples

    What the console makes of a text with markup is a parameter of the
    engine.  The examples instantiate it with the tags of Rich: a tag is
    [[], a first character among [a]-[z], [#], [/] and [@], any characters
    but [[], and []]; a backslash before a tag escapes it.  Tags are taken
    out of the text; a closing tag must name a tag that is open, or, as
    [[/]], close the last one, else [MarkupError] is raised.  Two tags
    name the same style when they are spelled alike, letter case and outer
    white space aside.  Emoji codes are left as they are. *)

Module MiniMarkup.

Definition lbracket : N := 91.
Definition rbracket : N := 93.
Definition backslash : N := 92.
Definition slash : N := 47.
Definition equals : N := 61.

(** [[a-z#/@]] *)
Definition tag_start (c : N) : bool :=
  (N.leb 97 c && N.leb c 122) || N.eqb c 35 || N.eqb c slash || N.eqb c 64.

(** [[^[]*?]] from [s] on: the characters before the first []], and what
    follows it, if no [[] comes before. *)
Fixpoint until_close (s : text) : option (text * text) :=
  match s with
  | [] => None
  | c :: rest =>
      if N.eqb c rbracket then Some ([], rest)
      else if N.eqb c lbracket then None
      else match until_close rest with
           | Some (tag, rest') => Some (c :: tag, rest')
           | None => None
           end
  end.

(** The tag that starts right after a [[], and what follows it. *)
Definition tag_at (s : text) : option (text * text) :=
  match s with
  | c :: _ => if tag_start c then until_close s else None
  | [] => None
  end.

(** The backslashes at the start of [s], counted, and what follows. *)
Fixpoint backslashes (s : text) : nat * text :=
  match s with
  | c :: rest =>
      if N.eqb c backslash
      then let (k, rest') := backslashes rest in (S k, rest')
      else (O, s)
  | [] => (O, [])
  end.

Definition is_space (c : N) : bool :=
  (N.leb 9 c && N.leb c 13) || (N.leb 28 c && N.leb c 32)
  || N.eqb c 133 || N.eqb c 160.

Fixpoint lstrip (s : text) : text :=
  match s with
  | c :: rest => if is_space c then lstrip rest else s
  | [] => []
  end.

Definition strip (s : text) : text := rev (lstrip (rev (lstrip s))).

Definition lower (s : text) : text :=
  map (fun c => if (N.leb 65 c && N.leb c 90)
                   || (N.leb 192 c && N.leb c 214)
                   || (N.leb 216 c && N.leb c 222)
                then (c + 32)%N else c) s.

(** The name of a style, as tags are compared. *)
Definition normalize (name : text) : text := lower (strip name).

(** [tag_text.partition("=")]: the name of the tag. *)
Fixpoint tag_name (tag : text) : text :=
  match tag with
  | [] => []
  | c :: rest => if N.eqb c equals then [] else c :: tag_name rest
  end.

Definition text_eqb (a b : text) : bool := list_eqb N.eqb a b.

(** [pop_style]: the open tags without the last one named [name], or
    [None] when no open tag has that name; the last tag opened comes
    first. *)
Fixpoint pop_style (name : text) (stack : list text) : option (list text) :=
  match stack with
  | [] => None
  | t :: rest =>
      if text_eqb t name then Some rest
      else match pop_style name rest with
           | Some rest' => Some (t :: rest')
           | None => None
           end
  end.

Definition decimal (n : nat) : string :=
  DecimalString.NilZero.string_of_uint (Nat.to_uint n).

(** What a tag does to the open tags, at [position] in the text. *)
Definition apply_tag (position : nat) (tag : text) (stack : list text)
  : list text + text :=
  let name := tag_name tag in
  match name with
  | c :: closed =>
      if N.eqb c slash then
        match strip closed with
        | [] =>
            match stack with
            | _ :: rest => inl rest
            | [] =>
                inr (codes ("closing tag '[/]' at position " +++ decimal position
                            +++ " has nothing to close"))
            end
        | style_name =>
            match pop_style (lower style_name) stack with
            | Some rest => inl rest
            | None =>
                inr (codes "closing tag '[" ++ tag
                     ++ codes ("]' at position " +++ decimal position
                               +++ " doesn't match any open tag"))
            end
        end
      else inl (normalize name :: stack)
  | [] => inl (normalize name :: stack)
  end.

(** The text is read from left to right; [position] is the index of the
    next character, [stack] the open tags and [out] the text shown so
    far.  Each step reads at least one character, so [fuel] may be the
    length of the text. *)
Fixpoint render_from (fuel position : nat) (stack : list text) (out s : text)
  : print_result :=
  match fuel with
  | O => Printed out
  | S fuel' =>
      match s with
      | [] => Printed out
      | c :: rest =>
          let (k, after) := backslashes s in
          match after with
          | d :: tail =>
              if N.eqb d lbracket then
                match tag_at tail with
                | Some (tag, rest') =>
                    let literal := repeat backslash (Nat.div k 2) in
                    let next := position + k + 2 + length tag in
                    if Nat.odd k then
                      render_from fuel' next stack
                        (out ++ literal ++ [lbracket] ++ tag ++ [rbracket]) rest'
                    else
                      match apply_tag (position + k) tag stack with
                      | inl stack' =>
                          render_from fuel' next stack' (out ++ literal) rest'
                      | inr message => MarkupFails message
                      end
                | None =>
                    render_from fuel' (position + k + 1) stack
                      (out ++ repeat backslash (Nat.pred k) ++ [lbracket]) tail
                end
              else
                match k with
                | O => render_from fuel' (S position) stack (out ++ [c]) rest
                | S _ =>
                    render_from fuel' (position + k) stack
                      (out ++ repeat backslash k) after
                end
          | [] => Printed (out ++ repeat backslash k)
          end
      end
  end.

(** [console.print(s)], markup on. *)
Definition markup (s : text) : print_result :=
  render_from (length s) 0 [] [] s.

End MiniMarkup.


(* ================================================================== *)
(** * Properties of the file-mention resolver *)

Section FileMentionFacts.

Variable markup : text -> print_result.
Variable resolve : string -> resolution.

(** What one mention adds to the resolved files. *)
Definition resolved_file (mention : string) : list path :=
  match resolve (unescape_spaces mention) with
  | IsFile p => [p]
  | _ => []
  end.

(** The warning printed for one mention. *)
Definition warning_of (mention : string) : list warning :=
  match resolve (unescape_spaces mention) with
  | IsFile _ => []
  | NotAFile => [FileNotFound mention]
  | ResolveFails err => [InvalidPath mention err]
  | PathFails _ => []
  end.

(** The loop passes a mention when its path can be expanded and its
    warning, if it has one, is printed without [MarkupError]. *)
Definition passes (mention : string) : bool :=
  match resolve (unescape_spaces mention) with
  | IsFile _ => true
  | NotAFile =>
      match markup (warning_text (FileNotFound mention)) with
      | Printed _ => true
      | MarkupFails _ => false
      end
  | ResolveFails err =>
      match markup (warning_text (InvalidPath mention err)) with
      | Printed _ => true
      | MarkupFails _ => false
      end
  | PathFails _ => false
  end.

Lemma mention_step_passes :
  forall mention,
    passes mention = true ->
    mention_step markup resolve mention
    = (resolved_file mention, warning_of mention, None).
Proof.
  intros mention H. unfold passes, mention_step, resolved_file, warning_of in *.
  destruct (resolve (unescape_spaces mention)) as [p| |err|err];
    try reflexivity; try discriminate.
  - destruct (markup _); [reflexivity | discriminate].
  - destruct (markup _); [reflexivity | discriminate].
Qed.

Lemma mention_step_stops :
  forall mention,
    passes mention = false ->
    exists e,
      mention_step markup resolve mention = ([], warning_of mention, Some e).
Proof.
  intros mention H. unfold passes, mention_step, warning_of in *.
  destruct (resolve (unescape_spaces mention)) as [p| |err|err];
    try discriminate.
  - destruct (markup _) as [shown|message]; [discriminate|].
    now exists (MarkupError message).
  - destruct (markup _) as [shown|message]; [discriminate|].
    now exists (MarkupError message).
  - now exists (PathError err).
Qed.

(** When the loop passes every mention, each one gives its file or its
    warning; the others do not matter. *)
Lemma resolve_mentions_passes :
  forall mentions,
    forallb passes mentions = true ->
    resolve_mentions markup resolve mentions
    = (flat_map resolved_file mentions, flat_map warning_of mentions, None).
Proof.
  induction mentions as [|m ms IH]; intro H; [reflexivity|].
  cbn in H. apply andb_true_iff in H. destruct H as [Hm Hms].
  cbn [resolve_mentions flat_map].
  now rewrite (mention_step_passes m Hm), (IH Hms).
Qed.

(** The loop ends at the first mention that it does not pass. *)
Lemma resolve_mentions_stops :
  forall before mention after,
    forallb passes before = true ->
    passes mention = false ->
    exists e,
      mention_step markup resolve mention = ([], warning_of mention, Some e)
      /\ resolve_mentions markup resolve (before ++ mention :: after)
         = (flat_map resolved_file before,
            flat_map warning_of before ++ warning_of mention, Some e).
Proof.
  induction before as [|m ms IH]; intros mention after Hb Hm.
  - destruct (mention_step_stops mention Hm) as (e & He).
    exists e. split; [exact He|]. cbn [app resolve_mentions flat_map].
    now rewrite He.
  - cbn in Hb. apply andb_true_iff in Hb. destruct Hb as [H1 H2].
    destruct (IH mention after H2 Hm) as (e & He & Hr).
    exists e. split; [exact He|].
    cbn [app resolve_mentions flat_map].
    rewrite (mention_step_passes m H1), Hr. now rewrite app_assoc.
Qed.

(** The two ways [parse_file_mentions] ends. *)
Lemma parse_file_mentions_returns :
  forall text,
    forallb passes (find_mentions text) = true ->
    parse_file_mentions markup resolve text
    = (Returns text (flat_map resolved_file (find_mentions text)),
       flat_map warning_of (find_mentions text)).
Proof.
  intros text H. unfold parse_file_mentions.
  now rewrite (resolve_mentions_passes _ H).
Qed.

Lemma forallb_split :
  forall (A : Type) (p : A -> bool) (l : list A),
    forallb p l = false ->
    exists before x after,
      l = before ++ x :: after /\ forallb p before = true /\ p x = false.
Proof.
  intros A p. induction l as [|a l IH]; intro H; [discriminate|].
  cbn in H. destruct (p a) eqn:Ha.
  - cbn in H. destruct (IH H) as (before & x & after & -> & Hb & Hx).
    exists (a :: before), x, after. cbn. rewrite Ha, Hb. auto.
  - exists [], a, l. auto.
Qed.

Lemma parse_file_mentions_raises :
  forall text,
    forallb passes (find_mentions text) = false ->
    exists e warnings,
      parse_file_mentions markup resolve text = (ParseRaises e, warnings).
Proof.
  intros text H. unfold parse_file_mentions.
  destruct (forallb_split _ _ _ H) as (before & m & after & -> & Hb & Hm).
  destruct (resolve_mentions_stops before m after Hb Hm) as (e & _ & Hr).
  rewrite Hr. now exists e, (flat_map warning_of before ++ warning_of m).
Qed.

End FileMentionFacts.

(** A file system that holds [b c.txt] and nothing else. *)
Definition only_b_c (clean_path : string) : resolution :=
  if String.eqb clean_path "b c.txt"
  then IsFile (mk_path "/work/b c.txt" "b c.txt")
  else NotAFile.

(** The same file system, on a machine without a user [ghost]:
    [expanduser()] refuses a path that starts with [~ghost]. *)
Definition no_ghost (clean_path : string) : resolution :=
  if String.prefix "~ghost" clean_path
  then PathFails "Could not determine home directory."
  else only_b_c clean_path.


(* ================================================================== *)
(** * Facts on strings and on snapshots *)

Lemma str_truthy_true : forall s, str_truthy s = true <-> s <> EmptyString.
Proof. intros [|c s]; cbn; split; congruence. Qed.

Lemma str_truthy_false : forall s, str_truthy s = false <-> s = EmptyString.
Proof. intros [|c s]; cbn; split; congruence. Qed.

Lemma str_take_length :
  forall n s, String.length (str_take n s) = Nat.min n (String.length s).
Proof.
  induction n as [|n IH]; intros [|c s]; cbn; auto.
Qed.

Lemma str_take_all :
  forall n s, String.length s <= n -> str_take n s = s.
Proof.
  induction n as [|n IH]; intros [|c s] H; cbn in *; try reflexivity; try lia.
  f_equal. apply IH. lia.
Qed.

Lemma append_length :
  forall s1 s2, String.length (s1 +++ s2) = String.length s1 + String.length s2.
Proof.
  induction s1 as [|c s1 IH]; intro s2; cbn; auto.
Qed.

(** [truncate_value] with any bound: a longer value is cut to the bound and
    followed by three dots, a value within the bound is returned as it is. *)
Lemma truncate_value_spec :
  forall (value : string) (max_length : nat),
    (max_length < String.length value ->
       truncate_value value max_length = str_take max_length value +++ "..."
       /\ String.length (str_take max_length value) = max_length
       /\ String.length (truncate_value value max_length) = max_length + 3)
    /\ (String.length value <= max_length ->
          truncate_value value max_length = value).
Proof.
  intros value max_length. unfold truncate_value. split; intro H.
  - assert (Hlt : Nat.ltb max_length (String.length value) = true)
      by (apply Nat.ltb_lt; exact H).
    rewrite Hlt. rewrite append_length, str_take_length. cbn. repeat split; lia.
  - assert (Hge : Nat.ltb max_length (String.length value) = false)
      by (apply Nat.ltb_ge; exact H).
    now rewrite Hge.
Qed.

Lemma option_eqb_spec :
  forall (A : Type) (eqb : A -> A -> bool),
    (forall a b, eqb a b = true <-> a = b) ->
    forall x y : option A, option_eqb eqb x y = true <-> x = y.
Proof.
  intros A eqb H [a|] [b|]; cbn; split; intro E; try congruence.
  - f_equal. now apply H.
  - apply H. congruence.
Qed.

Lemma list_eqb_spec :
  forall (A : Type) (eqb : A -> A -> bool),
    (forall a b, eqb a b = true <-> a = b) ->
    forall l1 l2 : list A, list_eqb eqb l1 l2 = true <-> l1 = l2.
Proof.
  intros A eqb H. induction l1 as [|a l1 IH]; intros [|b l2]; cbn;
    split; intro E; try congruence.
  - apply andb_true_iff in E. destruct E as [E1 E2].
    f_equal; [now apply H | now apply IH].
  - injection E as E1 E2. apply andb_true_iff. split; [now apply H | now apply IH].
Qed.

Lemma todo_eqb_spec : forall a b : todo, todo_eqb a b = true <-> a = b.
Proof.
  intros [sa ca] [sb cb]. unfold todo_eqb; cbn.
  rewrite andb_true_iff, !(option_eqb_spec _ _ String.eqb_eq).
  split; [intros [-> ->]; reflexivity | intro E; injection E; auto].
Qed.

(** [snapshot_eqb] decides equality of whole snapshots. *)
Lemma snapshot_eqb_spec :
  forall a b : option (list todo), snapshot_eqb a b = true <-> a = b.
Proof.
  apply option_eqb_spec. apply list_eqb_spec. exact todo_eqb_spec.
Qed.


Lemma snapshot_eqb_false :
  forall a b : option (list todo), snapshot_eqb a b = false <-> a <> b.
Proof.
  intros a b. split.
  - intros E Heq. apply snapshot_eqb_spec in Heq. congruence.
  - intro Hne. destruct (snapshot_eqb a b) eqn:E; [|reflexivity].
    apply snapshot_eqb_spec in E. contradiction.
Qed.

(* ================================================================== *)
(** * Reading a log *)

(** The todo panels printed, in order. *)
Definition panels (log : list event) : list (list (todo_style * N * string)) :=
  flat_map (fun e => match e with PrintTodoPanel lines => [lines] | _ => [] end) log.

(** The text fragments printed, in order. *)
Definition texts (log : list event) : list string :=
  flat_map (fun e => match e with PrintText t => [t] | _ => [] end) log.

(** The tool-call lines printed, in order: tool name and arguments text. *)
Definition tool_call_lines (log : list event) : list (string * string) :=
  flat_map (fun e => match e with
                     | PrintToolCall _ name args_str => [(name, args_str)]
                     | _ => []
                     end) log.

(** The calls to the agent, in order. *)
Definition agent_calls (log : list event) : list event :=
  filter (fun e => match e with
                   | AgentStream _ | AgentInvoke _ => true
                   | _ => false
                   end) log.

(** The chunks pulled, in order. *)
Definition pulled_chunks (log : list event) : list chunk :=
  flat_map (fun e => match e with Pulled c => [c] | _ => [] end) log.

(** The usage reported by a chunk: that of an [AIMessageChunk] with usage
    metadata in which a count is not zero. *)
Definition usage_report (c : chunk) : list usage :=
  match c with
  | Messages (Some (AIMessageChunk (Some u) _)) =>
      if negb (Z.eqb (input_tokens u) 0) || negb (Z.eqb (output_tokens u) 0)
      then [u] else []
  | _ => []
  end.

(** The usage reports of the chunks pulled, in order. *)
Definition usage_reports (log : list event) : list usage :=
  flat_map (fun e => match e with Pulled c => usage_report c | _ => [] end) log.

(** The ["todos"] of a value of an updates dictionary. *)
Definition todos_of (v : upd_value) : option (list todo) :=
  match v with
  | VDict d => d_todos d
  | _ => None
  end.

(** The todo snapshot that a chunk delivers: the ["todos"] of the first
    value of an updates dictionary that holds no interrupt. *)
Definition received_todos (c : chunk) : option (list todo) :=
  match c with
  | Updates (Some data) =>
      match interrupt_of data with
      | Some _ => None
      | None => todos_of (first_value data)
      end
  | _ => None
  end.

(** [new] if a snapshot is delivered, else [old]. *)
Definition or_else {A : Type} (new : option A) (old : option A) : option A :=
  match new with
  | Some a => Some a
  | None => old
  end.

(** The snapshot delivered last by the chunks pulled in [log], or [before]
    when none delivers one. *)
Definition last_received (before : option (list todo)) (log : list event)
  : option (list todo) :=
  fold_left (fun acc e => match e with
                          | Pulled c => or_else (received_todos c) acc
                          | _ => acc
                          end) log before.

(** The largest of the counts, [0] when there is none. *)
Definition max_count (counts : list Z) : Z := fold_right Z.max 0%Z counts.

Definition not_start (e : event) : Prop := e <> StatusStart.


Lemma texts_app : forall l1 l2, texts (l1 ++ l2) = texts l1 ++ texts l2.
Proof. intros. unfold texts. apply flat_map_app. Qed.

Lemma tool_call_lines_app :
  forall l1 l2, tool_call_lines (l1 ++ l2) = tool_call_lines l1 ++ tool_call_lines l2.
Proof. intros. unfold tool_call_lines. apply flat_map_app. Qed.

Lemma usage_reports_app :
  forall l1 l2, usage_reports (l1 ++ l2) = usage_reports l1 ++ usage_reports l2.
Proof. intros. unfold usage_reports. apply flat_map_app. Qed.

Lemma pulled_chunks_app :
  forall l1 l2, pulled_chunks (l1 ++ l2) = pulled_chunks l1 ++ pulled_chunks l2.
Proof. intros. unfold pulled_chunks. apply flat_map_app. Qed.

Lemma last_received_app :
  forall before l1 l2,
    last_received before (l1 ++ l2) = last_received (last_received before l1) l2.
Proof. intros. unfold last_received. now rewrite fold_left_app. Qed.

(** Events among which no chunk is pulled report no usage and deliver no
    snapshot. *)
Lemma no_chunk_reads :
  forall log,
    pulled_chunks log = [] ->
    usage_reports log = [] /\ forall before, last_received before log = before.
Proof.
  induction log as [|e log IH]; intro H; [split; reflexivity|].
  destruct e; cbn in H; try discriminate;
    destruct (IH H) as [U L]; split; cbn; auto.
Qed.

Definition nonempty {A : Type} (l : list A) : bool :=
  match l with
  | [] => false
  | _ :: _ => true
  end.

Lemma nonempty_app :
  forall (A : Type) (l1 l2 : list A),
    nonempty (l1 ++ l2) = nonempty l1 || nonempty l2.
Proof. intros A [|a l1] l2; reflexivity. Qed.

(** A step or a stream that an exception ends. *)
Definition is_error (f : flow) : bool :=
  match f with
  | RaiseError _ => true
  | _ => false
  end.

Definition has_failed (e : stream_end) : bool :=
  match e with
  | Failed _ => true
  | _ => false
  end.

Definition is_failure (o : outcome) : bool :=
  match o with
  | Error _ => true
  | _ => false
  end.

(* ================================================================== *)
(** * How a property of the steps reaches the whole turn

    A property [P st st' ev failed] reads some steps of the engine: they
    lead from the local variables [st] to [st'], they log [ev], and
    [failed] tells whether an uncaught exception ended them.  When [P]
    holds of no step at all, is kept by putting steps one after the other,
    and holds of each elementary step, it holds of a chunk, of a stream and
    of the loop over the streams. *)

Section Chain.

Variable pyobj : Type.
Variable json_loads : string -> option pyobj.
Variable dict_items : pyobj -> option (list (string * pyobj)).
Variable py_str : pyobj -> string.
Variable markup : text -> print_result.
Variable user : nat -> user_choice.
Variable invoke : invoke_result.

Local Abbreviation handle_block' := (handle_block json_loads dict_items py_str markup).
Local Abbreviation handle_blocks' := (handle_blocks json_loads dict_items py_str markup).
Local Abbreviation handle_message' := (handle_message json_loads dict_items py_str markup).
Local Abbreviation handle_chunk' := (handle_chunk json_loads dict_items py_str markup user).
Local Abbreviation process_stream' :=
  (process_stream json_loads dict_items py_str markup user).
Local Abbreviation stream_loop' :=
  (stream_loop json_loads dict_items py_str markup user invoke).

Variable P : state -> state -> list event -> bool -> Prop.

(** [P] of a step, of a stream and of a turn. *)
Definition of_step (st : state) (r : state * list event * flow) : Prop :=
  P st (fst (fst r)) (snd (fst r)) (is_error (snd r)).

Definition of_stream (st : state) (r : state * list event * stream_end) : Prop :=
  P st (fst (fst r)) (snd (fst r)) (has_failed (snd r)).

Definition of_turn (st : state) (T : turn) : Prop :=
  P st (turn_state T) (turn_log T) (is_failure (turn_outcome T)).

Definition holds_of_nothing : Prop := forall st, P st st [] false.

Definition kept_in_sequence : Prop :=
  forall st st1 st2 ev1 ev2 failed,
    P st st1 ev1 false -> P st1 st2 ev2 failed -> P st st2 (ev1 ++ ev2) failed.

Lemma chain_blocks :
  holds_of_nothing -> kept_in_sequence ->
  (forall st b, of_step st (handle_block' st b)) ->
  forall blocks st, of_step st (handle_blocks' st blocks).
Proof.
  intros Hnil Happ Hblock. unfold of_step in *.
  induction blocks as [|b rest IH]; intro st; cbn [handle_blocks].
  - apply Hnil.
  - specialize (Hblock st b).
    destruct (handle_block' st b) as [[st1 ev1] [|ds| |e]]; cbn [fst snd] in *;
      try exact Hblock.
    specialize (IH st1).
    destruct (handle_blocks' st1 rest) as [[st2 ev2] f]; cbn [fst snd] in *.
    now apply Happ with (st1 := st1).
Qed.

Lemma chain_chunk :
  holds_of_nothing -> kept_in_sequence ->
  (forall st c, P st st [Pulled c] false) ->
  (forall tg u st st' ev failed,
      P (capture_usage tg u st) st' ev failed -> P st st' ev failed) ->
  (forall st b, of_step st (handle_block' st b)) ->
  (forall tg st name status content,
      of_step st (handle_message' tg st (ToolMessage name status content))) ->
  (forall st req, of_step st (handle_interrupt markup user st req)) ->
  (forall st v, of_step st (handle_todos markup st v)) ->
  forall tg st c,
    P st (fst (fst (handle_chunk' tg st c)))
      (Pulled c :: snd (fst (handle_chunk' tg st c)))
      (is_error (snd (handle_chunk' tg st c))).
Proof.
  intros Hnil Happ Hpulled Husage Hblock Htool Hint Htodos tg st c.
  assert (Hstep : of_step st (handle_chunk' tg st c)).
  { unfold of_step. destruct c as [|[data|]|[m|]|]; cbn [handle_chunk fst snd];
      try apply Hnil.
    - unfold handle_updates. destruct (interrupt_of data) as [req|].
      + apply Hint.
      + apply Htodos.
    - destruct m as [name status content|u blocks|].
      + apply Htool.
      + cbn [handle_message]. apply (Husage tg u).
        apply (chain_blocks Hnil Happ Hblock).
      + apply Hnil. }
  change (Pulled c :: snd (fst (handle_chunk' tg st c)))
    with ([Pulled c] ++ snd (fst (handle_chunk' tg st c))).
  apply Happ with (st1 := st); [apply Hpulled | exact Hstep].
Qed.

Lemma chain_stream :
  holds_of_nothing -> kept_in_sequence ->
  forall tg,
    (forall st c,
        P st (fst (fst (handle_chunk' tg st c)))
          (Pulled c :: snd (fst (handle_chunk' tg st c)))
          (is_error (snd (handle_chunk' tg st c)))) ->
    forall items st, of_stream st (process_stream' tg st items).
Proof.
  intros Hnil Happ tg Hchunk. unfold of_stream.
  induction items as [|[c|] rest IH]; intro st; cbn [process_stream];
    try apply Hnil.
  specialize (Hchunk st c).
  destruct (handle_chunk' tg st c) as [[st1 ev1] [|ds| |e]]; cbn [fst snd] in *;
    try exact Hchunk.
  specialize (IH st1).
  destruct (process_stream' tg st1 rest) as [[st2 ev2] e]; cbn [fst snd] in *.
  change (Pulled c :: ev1 ++ ev2) with ((Pulled c :: ev1) ++ ev2).
  now apply Happ with (st1 := st1).
Qed.

(** From the streams to the rest of the turn: [Q st T] reads the turn [T]
    that starts with the local variables [st]. *)
Lemma chain_rest :
  forall (Q : state -> turn -> Prop) (tracker : option TokenTracker.t),
    (forall st st1 ev T, P st st1 ev false -> Q st1 T -> Q st (prepend ev T)) ->
    (forall st st1 ev e,
        P st st1 ev true -> Q st (prepend ev (failed_turn tracker st1 e))) ->
    (forall items st,
        of_stream st (process_stream' (tracker_given tracker) st items)) ->
    (forall st input, P st st [AgentStream input] false) ->
    (forall st, Q st (finish_turn tracker st)) ->
    (forall st, Q st (interrupted_turn tracker st)) ->
    (forall st ds, Q st (rejected_turn markup invoke tracker st ds)) ->
    forall script st input, Q st (stream_loop' tracker script st input).
Proof.
  intros Q tracker Hafter Hfailed Hstream Hcall Hfinish Hint Hrej.
  assert (Hthen : forall st st1 input ev (T : turn),
             P st st1 ev false -> Q st1 T ->
             Q st (prepend (AgentStream input :: ev) T)).
  { intros st st1 input ev T H1 H2.
    change (prepend (AgentStream input :: ev) T)
      with (prepend [AgentStream input] (prepend ev T)).
    apply Hafter with (st1 := st); [apply Hcall|].
    now apply Hafter with (st1 := st1). }
  induction script as [|items rest IH]; intros st input; cbn [stream_loop].
  - apply Hafter with (st1 := st); [apply Hcall | apply Hfinish].
  - specialize (Hstream items st). unfold of_stream in Hstream.
    destruct (process_stream' (tracker_given tracker) st items)
      as [[st1 ev] [|ds| |e]]; cbn [fst snd has_failed] in Hstream.
    + apply (Hthen st st1 input ev _ Hstream (Hfinish st1)).
    + destruct (existsb is_reject ds).
      * apply (Hthen st st1 input ev _ Hstream (Hrej st1 ds)).
      * apply (Hthen st st1 input ev _ Hstream (IH st1 (Resume ds))).
    + apply (Hthen st st1 input ev _ Hstream (Hint st1)).
    + change (prepend (AgentStream input :: ev) (failed_turn tracker st1 e))
        with (prepend [AgentStream input] (prepend ev (failed_turn tracker st1 e))).
      apply Hafter with (st1 := st); [apply Hcall|].
      now apply Hfailed.
Qed.

(** The same with [P] itself read on the whole turn. *)
Lemma chain_loop :
  holds_of_nothing -> kept_in_sequence ->
  forall tracker,
    (forall items st,
        of_stream st (process_stream' (tracker_given tracker) st items)) ->
    (forall st input, P st st [AgentStream input] false) ->
    (forall st, of_turn st (finish_turn tracker st)) ->
    (forall st, of_turn st (interrupted_turn tracker st)) ->
    (forall st ds, of_turn st (rejected_turn markup invoke tracker st ds)) ->
    forall script st input, of_turn st (stream_loop' tracker script st input).
Proof.
  intros Hnil Happ tracker Hstream Hcall Hfinish Hint Hrej.
  apply (chain_rest of_turn tracker); try assumption.
  - intros st st1 ev T H1 H2. unfold of_turn in *.
    cbn [prepend turn_state turn_log turn_outcome].
    now apply Happ with (st1 := st1).
  - intros st st1 ev e H. unfold of_turn.
    cbn [prepend failed_turn turn_state turn_log turn_outcome is_failure].
    now rewrite app_nil_r.
Qed.

End Chain.

(* ================================================================== *)
(** * Properties of the engine *)

(** An approval prompt. *)
Definition is_prompt (e : event) : Prop :=
  match e with
  | Prompt _ => True
  | _ => False
  end.

Section EngineFacts.

Variable pyobj : Type.
Variable json_loads : string -> option pyobj.
Variable dict_items : pyobj -> option (list (string * pyobj)).
Variable py_str : pyobj -> string.
Variable markup : text -> print_result.
Variable user : nat -> user_choice.
Variable invoke : invoke_result.

Local Abbreviation format_tool_args' := (format_tool_args json_loads dict_items py_str).
Local Abbreviation handle_block' := (handle_block json_loads dict_items py_str markup).
Local Abbreviation handle_blocks' := (handle_blocks json_loads dict_items py_str markup).
Local Abbreviation handle_message' := (handle_message json_loads dict_items py_str markup).
Local Abbreviation handle_chunk' := (handle_chunk json_loads dict_items py_str markup user).
Local Abbreviation process_stream' :=
  (process_stream json_loads dict_items py_str markup user).
Local Abbreviation stream_loop' :=
  (stream_loop json_loads dict_items py_str markup user invoke).

(** ** The spinner *)

Lemma stop_spinner_off :
  forall st, spinner_active (fst (stop_spinner st)) = false
             /\ Forall not_start (snd (stop_spinner st)).
Proof.
  intro st. unfold stop_spinner. destruct (spinner_active st) eqn:E; cbn.
  - split; [reflexivity|]. repeat constructor. discriminate.
  - split; [exact E | constructor].
Qed.

Lemma stop_spinner_fields :
  forall st,
    has_responded (fst (stop_spinner st)) = has_responded st
    /\ captured_input_tokens (fst (stop_spinner st)) = captured_input_tokens st
    /\ captured_output_tokens (fst (stop_spinner st)) = captured_output_tokens st
    /\ current_todos (fst (stop_spinner st)) = current_todos st
    /\ prompts_shown (fst (stop_spinner st)) = prompts_shown st.
Proof.
  intro st. unfold stop_spinner. destruct (spinner_active st); cbn; auto.
Qed.

Lemma stop_spinner_when_off :
  forall st, spinner_active st = false -> stop_spinner st = (st, []).
Proof. intros st H. unfold stop_spinner. now rewrite H. Qed.

Lemma stop_spinner_when_on :
  forall st, spinner_active st = true ->
             stop_spinner st = (set_spinner_active false st, [StatusStop]).
Proof. intros st H. unfold stop_spinner. now rewrite H. Qed.

Lemma capture_usage_flags :
  forall tg u st,
    spinner_active (capture_usage tg u st) = spinner_active st
    /\ has_responded (capture_usage tg u st) = has_responded st
    /\ current_todos (capture_usage tg u st) = current_todos st
    /\ prompts_shown (capture_usage tg u st) = prompts_shown st.
Proof.
  intros tg u st. unfold capture_usage. destruct u as [u|]; [|auto].
  destruct (tg && _); cbn; auto.
Qed.

(** The events of the approval loop are its prompts. *)
Lemma collect_decisions_prompts :
  forall requests n,
    Forall is_prompt (snd (fst (collect_decisions markup user n requests))).
Proof.
  induction requests as [|r rest IH]; intro n; cbn [collect_decisions];
    [constructor|].
  destruct (prompt_for_shell_approval markup r (user n)) as [d| |e];
    cbn [fst snd]; try (constructor; [exact I | constructor]).
  specialize (IH (S n)).
  destruct (collect_decisions markup user (S n) rest) as [[[ds| |e] ev] n'];
    cbn [fst snd] in *; (constructor; [exact I | exact IH]).
Qed.

(** The shape of [handle_interrupt]: the spinner is stopped, then the
    prompts follow. *)
Lemma handle_interrupt_shape :
  forall st req,
    exists prompts n,
      Forall is_prompt prompts
      /\ fst (fst (handle_interrupt markup user st req))
         = set_prompts_shown n (fst (stop_spinner st))
      /\ snd (fst (handle_interrupt markup user st req))
         = snd (stop_spinner st) ++ prompts.
Proof.
  intros st req. unfold handle_interrupt.
  destruct (stop_spinner st) as [st1 ev1]. cbn [fst snd].
  pose proof (collect_decisions_prompts (action_requests_of req) (prompts_shown st1))
    as H.
  destruct (collect_decisions markup user (prompts_shown st1) (action_requests_of req))
    as [[[ds| |e] ev2] n]; cbn [fst snd] in *; exists ev2, n; auto.
Qed.

Lemma dict_todos_truthy :
  forall d new, d_todos d = Some new -> dict_truthy d = true.
Proof.
  intros d new H. unfold dict_truthy. rewrite H.
  destruct (d_action_requests d); reflexivity.
Qed.

(** [render_todo_list] prints nothing, or the panel; it goes on, or the
    panel raises. *)
Lemma render_todo_list_cases :
  forall todos,
    render_todo_list markup todos = ([], Continue)
    \/ render_todo_list markup todos
       = ([PrintTodoPanel (map todo_line todos)], Continue)
    \/ exists message,
         render_todo_list markup todos
         = ([PrintTodoPanel (map todo_line todos)], RaiseError (MarkupError message)).
Proof.
  intros [|t todos]; [now left|]. unfold render_todo_list.
  destruct (markup _) as [shown|message]; cbn [print_flow];
    [right; now left | right; right; now exists message].
Qed.

(** [handle_todos] at a glance: nothing happens unless the value carries
    todos that differ from the snapshot kept; then the snapshot is
    replaced, the spinner is stopped, a blank line is printed, then the
    panel (if the list is not empty), then a blank line (if the panel did
    not raise). *)
Lemma handle_todos_eq :
  forall st v,
    handle_todos markup st v
    = match todos_of v with
      | Some new =>
          if snapshot_eqb (Some new) (current_todos st) then (st, [], Continue)
          else
            let s := stop_spinner (set_current_todos (Some new) st) in
            let r := render_todo_list markup new in
            (fst s,
             snd s ++ [PrintBlank] ++ fst r
             ++ (if is_error (snd r) then [] else [PrintBlank]),
             snd r)
      | None => (st, [], Continue)
      end.
Proof.
  intros st v. unfold handle_todos, todos_of.
  destruct v as [l|d|]; try reflexivity.
  destruct (d_todos d) as [new|] eqn:Ht;
    [rewrite (dict_todos_truthy d new Ht) | destruct (dict_truthy d); reflexivity].
  destruct (snapshot_eqb (Some new) (current_todos st)); cbn [negb]; [reflexivity|].
  destruct (stop_spinner (set_current_todos (Some new) st)) as [st1 ev1].
  cbv zeta. cbn [fst snd].
  destruct (render_todo_list_cases new) as [-> | [-> | (message & ->)]];
    cbn [fst snd is_error]; rewrite ?app_nil_r; reflexivity.
Qed.

(** A step that goes on or raises: it neither breaks out of the loop nor
    is left by [KeyboardInterrupt]. *)
Definition goes_on_or_raises (f : flow) : Prop :=
  f = Continue \/ exists e, f = RaiseError e.

Lemma handle_block_flow :
  forall st b, goes_on_or_raises (snd (handle_block' st b)).
Proof.
  intros st b. unfold goes_on_or_raises.
  destruct b as [text|reasoning|[name|] args id|]; cbn [handle_block];
    try (now left).
  - destruct (str_truthy text); [|now left].
    destruct (stop_spinner st); now left.
  - destruct (str_truthy reasoning); [|now left].
    destruct (stop_spinner st); now left.
  - destruct (str_truthy name); [|now left].
    destruct (markup _) as [shown|message]; [now left|].
    right. now exists (MarkupError message).
Qed.

Lemma handle_blocks_flow :
  forall blocks st, goes_on_or_raises (snd (handle_blocks' st blocks)).
Proof.
  induction blocks as [|b rest IH]; intro st; cbn [handle_blocks]; [now left|].
  pose proof (handle_block_flow st b) as Hb.
  destruct (handle_block' st b) as [[st1 ev1] f]; cbn [snd] in Hb.
  destruct Hb as [-> | (e & ->)].
  - specialize (IH st1).
    destruct (handle_blocks' st1 rest) as [[st2 ev2] f2]. exact IH.
  - right. now exists e.
Qed.

Lemma handle_message_flow :
  forall tg st m, goes_on_or_raises (snd (handle_message' tg st m)).
Proof.
  intros tg st m. destruct m as [name status content|u blocks|];
    cbn [handle_message]; [| apply handle_blocks_flow | now left].
  destruct (is_shell name && _); [|now left].
  destruct (str_truthy _); [|now left].
  destruct (stop_spinner st), (markup _) as [shown|message]; [now left|].
  right. now exists (MarkupError message).
Qed.

Lemma handle_todos_flow :
  forall st v, goes_on_or_raises (snd (handle_todos markup st v)).
Proof.
  intros st v. rewrite handle_todos_eq.
  destruct (todos_of v) as [new|]; [|now left].
  destruct (snapshot_eqb _ _); [now left|]. cbv zeta. cbn [snd].
  destruct (render_todo_list_cases new) as [-> | [-> | (message & ->)]];
    [now left | now left | right; now exists (MarkupError message)].
Qed.

Ltac not_start_list :=
  repeat first [ apply Forall_nil | apply Forall_cons; [discriminate|] ].

(** Once [spinner_active] is false it stays false, and the spinner is not
    started. *)
Definition stays_off (st st' : state) (ev : list event) (failed : bool) : Prop :=
  spinner_active st = false ->
  spinner_active st' = false /\ Forall not_start ev.

Lemma stays_off_nil : holds_of_nothing stays_off.
Proof. intros st H. split; [exact H | constructor]. Qed.

Lemma stays_off_app : kept_in_sequence stays_off.
Proof.
  intros st st1 st2 ev1 ev2 failed H1 H2 Hoff.
  destruct (H1 Hoff) as [O1 N1]. destruct (H2 O1) as [O2 N2].
  split; [exact O2 | apply Forall_app; auto].
Qed.

Lemma prompts_not_start :
  forall ev, Forall is_prompt ev -> Forall not_start ev.
Proof.
  induction 1 as [|e ev He _ IH]; constructor; [|exact IH].
  destruct e; try contradiction. discriminate.
Qed.

Lemma handle_block_off :
  forall st b, of_step stays_off st (handle_block' st b).
Proof.
  intros st b Hoff. destruct b as [text|reasoning|[name|] args id|];
    cbn [handle_block]; try (split; [exact Hoff | constructor]).
  - destruct (str_truthy text); cbn [fst snd]; [|split; [exact Hoff|constructor]].
    rewrite (stop_spinner_when_off _ Hoff). cbn. split; [exact Hoff|].
    destruct (has_responded st); cbn; not_start_list.
  - destruct (str_truthy reasoning); cbn [fst snd]; [|split; [exact Hoff|constructor]].
    rewrite (stop_spinner_when_off _ Hoff). cbn. split; [exact Hoff|constructor].
  - destruct (str_truthy name); cbn [fst snd]; [|split; [exact Hoff|constructor]].
    rewrite Hoff.
    destruct (markup _); cbn [fst snd]; (split; [exact Hoff|]);
      destruct (has_responded st); cbn; not_start_list.
Qed.

Lemma handle_tool_message_off :
  forall tg st name status content,
    of_step stays_off st (handle_message' tg st (ToolMessage name status content)).
Proof.
  intros tg st name status content Hoff. cbn [handle_message].
  destruct (is_shell name && negb (status =? "success")%string);
    [|split; [exact Hoff|constructor]].
  destruct (str_truthy (format_tool_message_content content));
    [|split; [exact Hoff|constructor]].
  rewrite (stop_spinner_when_off _ Hoff).
  destruct (markup _); cbn; (split; [exact Hoff|]); not_start_list.
Qed.

Lemma handle_interrupt_off :
  forall st req, of_step stays_off st (handle_interrupt markup user st req).
Proof.
  intros st req _. unfold of_step.
  destruct (handle_interrupt_shape st req) as (prompts & n & Hp & -> & ->).
  destruct (stop_spinner_off st) as [H1 H2].
  split; [exact H1|]. apply Forall_app. split; [exact H2|].
  now apply prompts_not_start.
Qed.

Lemma handle_todos_off :
  forall st v, of_step stays_off st (handle_todos markup st v).
Proof.
  intros st v Hoff. unfold of_step. rewrite handle_todos_eq.
  destruct (todos_of v) as [new|]; [|split; [exact Hoff|constructor]].
  destruct (snapshot_eqb _ _); [split; [exact Hoff|constructor]|].
  cbv zeta. cbn [fst snd].
  destruct (stop_spinner_off (set_current_todos (Some new) st)) as [H1 H2].
  split; [exact H1|]. apply Forall_app. split; [exact H2|].
  destruct (render_todo_list_cases new) as [-> | [-> | (message & ->)]];
    cbn; not_start_list.
Qed.

Lemma handle_chunk_off :
  forall tg st c,
    stays_off st (fst (fst (handle_chunk' tg st c)))
              (Pulled c :: snd (fst (handle_chunk' tg st c)))
              (is_error (snd (handle_chunk' tg st c))).
Proof.
  apply (chain_chunk _ _ _ _ _ _ _ stays_off_nil stays_off_app).
  - intros st c Hoff. split; [exact Hoff | not_start_list].
  - intros tg u st st' ev failed H Hoff. apply H.
    now rewrite (proj1 (capture_usage_flags tg u st)).
  - exact handle_block_off.
  - exact handle_tool_message_off.
  - exact handle_interrupt_off.
  - exact handle_todos_off.
Qed.

Lemma process_stream_off :
  forall tg items st,
    spinner_active st = false ->
    spinner_active (fst (fst (process_stream' tg st items))) = false
    /\ Forall not_start (snd (fst (process_stream' tg st items))).
Proof.
  intros tg items st.
  apply (chain_stream _ _ _ _ _ _ _ stays_off_nil stays_off_app tg
           (handle_chunk_off tg) items st).
Qed.

Lemma finish_turn_off :
  forall tracker st, of_turn stays_off st (finish_turn tracker st).
Proof.
  intros tracker st Hoff. unfold finish_turn. rewrite Hoff.
  destruct (has_responded st); [|split; [exact Hoff|constructor]].
  destruct tracker as [t|]; cbn; [|split; [exact Hoff|not_start_list]].
  destruct (negb _ || negb _); cbn; [|split; [exact Hoff|not_start_list]].
  split; [exact Hoff|].
  unfold display_last_events.
  destruct (TokenTracker.display_last _); cbn; not_start_list.
Qed.

Lemma interrupted_turn_off :
  forall tracker st, of_turn stays_off st (interrupted_turn tracker st).
Proof.
  intros tracker st Hoff. unfold interrupted_turn; cbn.
  split; [exact Hoff|].
  destruct (spinner_active st); cbn; not_start_list.
Qed.

Lemma rejected_turn_off :
  forall tracker st ds,
    of_turn stays_off st (rejected_turn markup invoke tracker st ds).
Proof.
  intros tracker st ds Hoff. unfold rejected_turn.
  rewrite (stop_spinner_when_off _ Hoff).
  destruct invoke as [|err|]; cbn.
  - split; [exact Hoff | not_start_list].
  - destruct (markup _); cbn; (split; [exact Hoff | not_start_list]).
  - split; [exact Hoff|]. rewrite Hoff. cbn. not_start_list.
Qed.

(** Once [spinner_active] is false, nothing in the rest of the turn
    starts the spinner again. *)
Lemma stream_loop_off :
  forall tracker script st input,
    spinner_active st = false ->
    Forall not_start (turn_log (stream_loop' tracker script st input)).
Proof.
  intros tracker script st input Hoff.
  apply (chain_loop _ _ _ _ _ _ _ _ stays_off_nil stays_off_app tracker); try exact Hoff.
  - intros items st0. apply (chain_stream _ _ _ _ _ _ _ stays_off_nil stays_off_app).
    apply handle_chunk_off.
  - intros st0 input0 H. split; [exact H | not_start_list].
  - apply finish_turn_off.
  - apply interrupted_turn_off.
  - apply rejected_turn_off.
Qed.

(** ** What each handler leaves alone *)

(** The part of a step that the message handlers never touch: the todo
    snapshot and the captured counts; no chunk is logged, and
    [has_responded] becomes true exactly when a text is printed. *)
Definition message_frame (st st' : state) (ev : list event) (failed : bool)
  : Prop :=
  current_todos st' = current_todos st
  /\ captured_input_tokens st' = captured_input_tokens st
  /\ captured_output_tokens st' = captured_output_tokens st
  /\ pulled_chunks ev = []
  /\ has_responded st' = has_responded st || nonempty (texts ev).

Lemma message_frame_nil : holds_of_nothing message_frame.
Proof.
  intro st. unfold message_frame. cbn. rewrite orb_false_r. auto.
Qed.

Lemma message_frame_app : kept_in_sequence message_frame.
Proof.
  intros st st1 st2 ev1 ev2 failed (T1 & I1 & O1 & P1 & H1) (T2 & I2 & O2 & P2 & H2).
  unfold message_frame.
  rewrite pulled_chunks_app, texts_app, nonempty_app, P1, P2, H2, H1, orb_assoc.
  repeat split; congruence.
Qed.

Lemma handle_block_frame :
  forall st b, of_step message_frame st (handle_block' st b).
Proof.
  intros st b. unfold of_step, message_frame.
  destruct b as [text|reasoning|[name|] args id|]; cbn [handle_block];
    try (cbn; rewrite orb_false_r; repeat split; reflexivity).
  - destruct (str_truthy text); cbn [fst snd];
      [|cbn; rewrite orb_false_r; repeat split; reflexivity].
    unfold stop_spinner.
    destruct (spinner_active st); cbn; destruct (has_responded st) eqn:E; cbn;
      rewrite ?E, ?orb_true_r; repeat split; reflexivity.
  - destruct (str_truthy reasoning); cbn [fst snd];
      [|cbn; rewrite orb_false_r; repeat split; reflexivity].
    unfold stop_spinner.
    destruct (spinner_active st); cbn; rewrite orb_false_r; repeat split; reflexivity.
  - destruct (str_truthy name); cbn [fst snd];
      [|cbn; rewrite orb_false_r; repeat split; reflexivity].
    destruct (markup _); cbn [fst snd];
      destruct (spinner_active st), (has_responded st); cbn; repeat split; reflexivity.
Qed.

Lemma handle_blocks_frame :
  forall blocks st, of_step message_frame st (handle_blocks' st blocks).
Proof.
  apply (chain_blocks _ _ _ _ _ _ message_frame_nil message_frame_app).
  exact handle_block_frame.
Qed.

(** What handling one chunk does to the local variables, read off the
    chunk and the events logged: the snapshot kept is the one the chunk
    delivers, if it delivers one, [has_responded] is raised by a printed
    text, and the captured counts are raised to the counts the chunk
    reports. *)
Definition step_frame (tg : bool) (c : chunk) (st st' : state) (ev : list event)
  : Prop :=
  current_todos st' = or_else (received_todos c) (current_todos st)
  /\ has_responded st' = has_responded st || nonempty (texts ev)
  /\ captured_input_tokens st'
     = fold_left Z.max (map input_tokens (if tg then usage_report c else []))
                 (captured_input_tokens st)
  /\ captured_output_tokens st'
     = fold_left Z.max (map output_tokens (if tg then usage_report c else []))
                 (captured_output_tokens st)
  /\ pulled_chunks ev = [].

Lemma capture_usage_fields :
  forall tg u st blocks,
    current_todos (capture_usage tg u st) = current_todos st
    /\ has_responded (capture_usage tg u st) = has_responded st
    /\ captured_input_tokens (capture_usage tg u st)
       = fold_left Z.max
           (map input_tokens
                (if tg then usage_report (Messages (Some (AIMessageChunk u blocks)))
                 else []))
           (captured_input_tokens st)
    /\ captured_output_tokens (capture_usage tg u st)
       = fold_left Z.max
           (map output_tokens
                (if tg then usage_report (Messages (Some (AIMessageChunk u blocks)))
                 else []))
           (captured_output_tokens st).
Proof.
  intros tg u st blocks. unfold capture_usage, usage_report.
  destruct u as [u|]; [|rewrite Tauto.if_same; repeat split; reflexivity].
  destruct tg; cbn [andb]; [|repeat split; reflexivity].
  destruct (negb (input_tokens u =? 0)%Z || negb (output_tokens u =? 0)%Z);
    cbn; repeat split; reflexivity.
Qed.

Ltac frame_nil :=
  cbn; rewrite ?orb_false_r, ?Tauto.if_same; repeat split; reflexivity.

Lemma handle_message_frame :
  forall tg st m,
    step_frame tg (Messages (Some m)) st
               (fst (fst (handle_message' tg st m)))
               (snd (fst (handle_message' tg st m))).
Proof.
  intros tg st m. unfold step_frame.
  destruct m as [name status content|u blocks|].
  - cbn [handle_message usage_report received_todos or_else].
    destruct (is_shell name && negb (status =? "success")%string); [|frame_nil].
    destruct (str_truthy (format_tool_message_content content)); [|frame_nil].
    unfold stop_spinner.
    destruct (spinner_active st), (markup _); cbn;
      rewrite orb_false_r, Tauto.if_same; repeat split; reflexivity.
  - cbn [handle_message received_todos or_else].
    destruct (handle_blocks_frame blocks (capture_usage tg u st))
      as (T & I & O & P & H).
    destruct (capture_usage_fields tg u st blocks) as (T0 & H0 & I0 & O0).
    repeat split; congruence.
  - frame_nil.
Qed.

Lemma prompts_quiet :
  forall ev, Forall is_prompt ev -> texts ev = [] /\ pulled_chunks ev = [].
Proof.
  induction 1 as [|e ev He _ IH]; [auto|].
  destruct e; try contradiction. exact IH.
Qed.

Lemma stop_spinner_quiet :
  forall st,
    texts (snd (stop_spinner st)) = [] /\ pulled_chunks (snd (stop_spinner st)) = [].
Proof. intro st. unfold stop_spinner. destruct (spinner_active st); auto. Qed.

Lemma handle_updates_frame :
  forall tg st data,
    step_frame tg (Updates (Some data)) st
               (fst (fst (handle_updates markup user st data)))
               (snd (fst (handle_updates markup user st data))).
Proof.
  intros tg st data. unfold step_frame, handle_updates.
  cbn [usage_report received_todos]. rewrite Tauto.if_same. cbn [map fold_left].
  destruct (interrupt_of data) as [req|]; cbn [or_else].
  - destruct (handle_interrupt_shape st req) as (prompts & n & Hp & -> & ->).
    destruct (stop_spinner_fields st) as (H & I & O & T & _).
    destruct (stop_spinner_quiet st) as [X1 P1].
    destruct (prompts_quiet _ Hp) as [X2 P2].
    rewrite texts_app, pulled_chunks_app, X1, X2, P1, P2. cbn.
    rewrite orb_false_r. auto.
  - rewrite handle_todos_eq.
    destruct (todos_of (first_value data)) as [new|]; cbn [or_else];
      [|cbn; rewrite orb_false_r; auto].
    destruct (snapshot_eqb (Some new) (current_todos st)) eqn:Hs.
    + apply snapshot_eqb_spec in Hs. cbn. rewrite orb_false_r. auto.
    + cbv zeta. cbn [fst snd].
      destruct (stop_spinner_fields (set_current_todos (Some new) st))
        as (H & I & O & T & _).
      destruct (stop_spinner_quiet (set_current_todos (Some new) st)) as [X1 P1].
      rewrite !texts_app, !pulled_chunks_app, X1, P1, T, H, I, O.
      destruct (render_todo_list_cases new) as [-> | [-> | (message & ->)]];
        cbn; rewrite orb_false_r; auto.
Qed.

Lemma handle_chunk_frame :
  forall tg st c,
    step_frame tg c st (fst (fst (handle_chunk' tg st c)))
               (snd (fst (handle_chunk' tg st c))).
Proof.
  intros tg st c. destruct c as [|[data|]|[m|]|];
    try (unfold step_frame; frame_nil).
  - apply handle_updates_frame.
  - apply handle_message_frame.
Qed.

(** ** One stream, then the whole turn *)

(** The same reading for several chunks: [ev] is the log of the steps. *)
Definition run_frame (tg : bool) (st st' : state) (ev : list event) : Prop :=
  current_todos st' = last_received (current_todos st) ev
  /\ has_responded st' = has_responded st || nonempty (texts ev)
  /\ captured_input_tokens st'
     = fold_left Z.max (map input_tokens (if tg then usage_reports ev else []))
                 (captured_input_tokens st)
  /\ captured_output_tokens st'
     = fold_left Z.max (map output_tokens (if tg then usage_reports ev else []))
                 (captured_output_tokens st).

Lemma run_frame_nil : forall tg st, run_frame tg st st [].
Proof.
  intros tg st. unfold run_frame; cbn.
  rewrite orb_false_r, Tauto.if_same. repeat split; reflexivity.
Qed.

(** A run followed by a run. *)
Lemma run_frame_app :
  forall tg st st1 st2 ev1 ev2,
    run_frame tg st st1 ev1 ->
    run_frame tg st1 st2 ev2 ->
    run_frame tg st st2 (ev1 ++ ev2).
Proof.
  intros tg st st1 st2 ev1 ev2 (T1 & H1 & I1 & O1) (T2 & H2 & I2 & O2).
  unfold run_frame.
  rewrite last_received_app, texts_app, usage_reports_app, nonempty_app,
    orb_assoc, <- H1, <- T1.
  repeat split; try assumption.
  - rewrite I2, I1. destruct tg; [|reflexivity].
    now rewrite map_app, fold_left_app.
  - rewrite O2, O1. destruct tg; [|reflexivity].
    now rewrite map_app, fold_left_app.
Qed.

(** The step on a chunk [c], with the record of the chunk. *)
Lemma run_frame_step :
  forall tg c st st1 ev1,
    step_frame tg c st st1 ev1 ->
    run_frame tg st st1 (Pulled c :: ev1).
Proof.
  intros tg c st st1 ev1 (T1 & H1 & I1 & O1 & P1).
  destruct (no_chunk_reads ev1 P1) as [U1 L1].
  unfold run_frame.
  change (Pulled c :: ev1) with ([Pulled c] ++ ev1).
  rewrite last_received_app, L1, texts_app, usage_reports_app, U1, app_nil_r.
  cbn [last_received fold_left texts flat_map app usage_reports].
  rewrite app_nil_r. auto.
Qed.

(** Events that carry no text and no chunk. *)
Definition quiet (ev : list event) : Prop :=
  texts ev = [] /\ pulled_chunks ev = [].

Lemma run_frame_quiet :
  forall tg st st' ev,
    quiet ev ->
    current_todos st' = current_todos st ->
    has_responded st' = has_responded st ->
    captured_input_tokens st' = captured_input_tokens st ->
    captured_output_tokens st' = captured_output_tokens st ->
    run_frame tg st st' ev.
Proof.
  intros tg st st' ev (X & P) T H I O. unfold run_frame.
  destruct (no_chunk_reads ev P) as [U L].
  rewrite X, U, L, Tauto.if_same. cbn. rewrite orb_false_r. auto.
Qed.

Definition framed (tg : bool) (st st' : state) (ev : list event) (failed : bool)
  : Prop := run_frame tg st st' ev.

Lemma framed_nil : forall tg, holds_of_nothing (framed tg).
Proof. intros tg st. apply run_frame_nil. Qed.

Lemma framed_app : forall tg, kept_in_sequence (framed tg).
Proof.
  intros tg st st1 st2 ev1 ev2 failed H1 H2.
  now apply run_frame_app with (st1 := st1).
Qed.

Lemma process_stream_frame :
  forall tg items st,
    run_frame tg st (fst (fst (process_stream' tg st items)))
              (snd (fst (process_stream' tg st items))).
Proof.
  intros tg items st.
  apply (chain_stream _ _ _ _ _ _ _ (framed_nil tg) (framed_app tg) tg).
  intros st0 c. apply run_frame_step. apply handle_chunk_frame.
Qed.

Lemma finish_turn_frame :
  forall tg tracker st, of_turn (framed tg) st (finish_turn tracker st).
Proof.
  intros tg tracker st. unfold of_turn, framed, finish_turn.
  destruct (has_responded st) eqn:E; [destruct tracker as [t|]|].
  - destruct (negb _ || negb _); cbn [turn_state turn_log];
      apply run_frame_quiet; try reflexivity; unfold quiet, display_last_events;
      [destruct (TokenTracker.display_last _)|]; destruct (spinner_active st);
      cbn; auto.
  - cbn [turn_state turn_log]. apply run_frame_quiet; try reflexivity.
    unfold quiet. destruct (spinner_active st); cbn; auto.
  - cbn [turn_state turn_log]. apply run_frame_quiet; try reflexivity.
    unfold quiet. destruct (spinner_active st); cbn; auto.
Qed.

Lemma interrupted_turn_frame :
  forall tg tracker st, of_turn (framed tg) st (interrupted_turn tracker st).
Proof.
  intros tg tracker st. unfold of_turn, framed, interrupted_turn;
    cbn [turn_state turn_log].
  apply run_frame_quiet; try reflexivity.
  unfold quiet. destruct (spinner_active st); cbn; auto.
Qed.

Lemma rejected_turn_frame :
  forall tg tracker st ds,
    of_turn (framed tg) st (rejected_turn markup invoke tracker st ds).
Proof.
  intros tg tracker st ds.
  unfold of_turn, framed, rejected_turn, stop_spinner, interrupted_turn, failed_turn.
  destruct (spinner_active st) eqn:E, invoke as [|err|]; cbn;
    try destruct (markup _); cbn;
    apply run_frame_quiet; try reflexivity; unfold quiet; cbn; auto.
  all: rewrite ?E; cbn; auto.
Qed.

Lemma stream_loop_frame :
  forall tracker script st input,
    run_frame (tracker_given tracker) st
              (turn_state (stream_loop' tracker script st input))
              (turn_log (stream_loop' tracker script st input)).
Proof.
  intros tracker script st input.
  apply (chain_loop _ _ _ _ _ _ _ _
           (framed_nil (tracker_given tracker)) (framed_app (tracker_given tracker))
           tracker).
  - intros items st0. apply process_stream_frame.
  - intros st0 input0. apply run_frame_quiet; try reflexivity. split; reflexivity.
  - apply finish_turn_frame.
  - apply interrupted_turn_frame.
  - apply rejected_turn_frame.
Qed.

(** The tracker leaves a turn as it entered it, unless the turn completed
    after the agent responded; then the captured counts were added. *)
Lemma rejected_turn_facts :
  forall tracker st ds,
    turn_tracker (rejected_turn markup invoke tracker st ds) = tracker
    /\ turn_outcome (rejected_turn markup invoke tracker st ds) <> Completed.
Proof.
  intros tracker st ds. unfold rejected_turn.
  destruct (stop_spinner st) as [st1 ev1].
  destruct invoke as [|err|]; cbn; try destruct (markup _); cbn;
    split; try reflexivity; discriminate.
Qed.

Lemma stream_loop_tracker :
  forall tracker script st input,
    let T := stream_loop' tracker script st input in
    turn_tracker T = tracker
    \/ (has_responded (turn_state T) = true
        /\ turn_outcome T = Completed
        /\ exists t,
             tracker = Some t
             /\ turn_tracker T
                = Some (TokenTracker.add (captured_input_tokens (turn_state T))
                                         (captured_output_tokens (turn_state T)) t)).
Proof.
  intro tracker.
  assert (Hfinish : forall st,
             let T := finish_turn tracker st in
             turn_tracker T = tracker
             \/ (has_responded (turn_state T) = true
                 /\ turn_outcome T = Completed
                 /\ exists t,
                      tracker = Some t
                      /\ turn_tracker T
                         = Some (TokenTracker.add
                                   (captured_input_tokens (turn_state T))
                                   (captured_output_tokens (turn_state T)) t))).
  { intro st. unfold finish_turn.
    destruct (has_responded st) eqn:E; [|now left].
    destruct tracker as [t|]; [|now left].
    destruct (negb _ || negb _); [|now left].
    right. cbn. repeat split; [exact E|]. now exists t. }
  induction script as [|items rest IH]; intros st input; cbn [stream_loop].
  - apply Hfinish.
  - destruct (process_stream' (tracker_given tracker) st items)
      as [[st1 ev] [|ds| |e]].
    + apply Hfinish.
    + destruct (existsb is_reject ds).
      * left. apply rejected_turn_facts.
      * apply IH.
    + now left.
    + now left.
Qed.

(** ** What the user sees *)

Definition shown_text (r : print_result) : option text :=
  match r with
  | Printed shown => Some shown
  | MarkupFails _ => None
  end.

(** What the console shows for a print, with markup on, of a text that the
    source does not control: the text as the console renders it, and
    nothing when the print raises. *)
Definition console_shows (e : event) : option text :=
  match e with
  | PrintToolError content => shown_text (markup (codes content))
  | PrintToolCall icon name args_str =>
      shown_text (markup (tool_call_line icon name args_str))
  | PrintWarning w => shown_text (markup (warning_text w))
  | PrintResumeError err => shown_text (markup (resume_error_text err))
  | PrintTodoPanel lines => shown_text (markup (panel_text lines))
  | Prompt request => shown_text (markup (approval_text request))
  | _ => None
  end.

(** ** Tool results *)

Lemma is_shell_true : forall name, is_shell name = true <-> name = Some "shell".
Proof.
  intros [n|]; cbn; [|split; discriminate].
  rewrite String.eqb_eq. split; congruence.
Qed.

(** C5, as the code has it. A tool result gives visible output if and
    only if the tool is [shell], the status is not [success] and the
    formatted content is not empty.  The spinner is then stopped, a blank
    line is printed and the text is handed to the console as it is, with
    markup on: when the console takes the text as it is, the user sees that
    very text, a blank line follows and the turn goes on; when the console
    refuses it, [MarkupError] leaves [execute_task].  In every other case
    nothing is logged and the state is unchanged. *)
Theorem tool_result_shown_iff_shell_error_text :
  forall (tg : bool) (st : state) (name : option string) (status : string)
         (content : tool_content),
    let r := handle_message' tg st (ToolMessage name status content) in
    let shown := format_tool_message_content content in
    (snd (fst r) <> [] <->
       name = Some "shell" /\ status <> "success" /\ shown <> EmptyString)
    /\ (snd (fst r) <> [] ->
          snd (fst r)
          = (if spinner_active st then [StatusStop] else [])
            ++ [PrintBlank; PrintToolError shown]
            ++ (if is_error (snd r) then [] else [PrintBlank])
          /\ snd r = print_flow (markup (codes shown)))
    /\ (markup (codes shown) = Printed (codes shown) ->
          console_shows (PrintToolError shown) = Some (codes shown)
          /\ snd r = Continue)
    /\ (snd (fst r) = [] -> fst (fst r) = st /\ snd r = Continue).
Proof.
  intros tg st name status content r shown. subst r shown.
  cbn [handle_message console_shows].
  destruct (is_shell name) eqn:Hs; cbn [andb].
  - apply is_shell_true in Hs.
    destruct (String.eqb_spec status "success") as [He|Hne]; cbn [negb].
    + cbn. repeat split; intros; try congruence; try tauto.
      match goal with H : markup _ = _ |- _ => now rewrite H end.
    + destruct (str_truthy (format_tool_message_content content)) eqn:Ht.
      * apply str_truthy_true in Ht. unfold stop_spinner.
        destruct (spinner_active st);
          destruct (markup (codes (format_tool_message_content content)))
            as [shown|message] eqn:Hm;
          cbn; repeat split; intros; auto; try discriminate; try congruence.
      * apply str_truthy_false in Ht. cbn.
        repeat split; intros; try congruence; try tauto.
        match goal with H : markup _ = _ |- _ => now rewrite H end.
  - assert (Hn : name <> Some "shell")
      by (intro H; apply is_shell_true in H; congruence).
    cbn. repeat split; intros; try congruence; try tauto.
    match goal with H : markup _ = _ |- _ => now rewrite H end.
Qed.

(** ** Tool-call lines *)

Lemma handle_block_tool_call :
  forall st name args id,
    str_truthy name = true ->
    tool_call_lines
      (snd (fst (handle_block' st (ToolCallChunk (Some name) args id))))
    = [(name, format_tool_args' args)]
    /\ snd (handle_block' st (ToolCallChunk (Some name) args id))
       = print_flow (markup (tool_call_line (icon_of name) name
                                            (format_tool_args' args))).
Proof.
  intros st name args id Hname. cbn [handle_block]. rewrite Hname.
  destruct (markup _); cbn [fst snd print_flow];
    destruct (spinner_active st), (has_responded st); split; reflexivity.
Qed.

(** C2, as the code has it. When the arguments of a named tool-call
    fragment parse as a JSON object, the line handed to the console holds
    [key=value] for each entry, each value cut by [truncate_value] with the
    bound 50: a value longer than 50 characters is given as its first 50
    characters and three dots, a value of 50 characters or fewer as it is.
    The line is printed with markup on: the user sees it as it is when the
    console takes it as it is, and the print raises when the console
    refuses it. *)
Theorem tool_call_values_cut_at_50 :
  forall (st : state) (name args : string) (id : option string)
         (parsed : pyobj) (items : list (string * pyobj)),
    str_truthy name = true ->
    str_truthy args = true ->
    json_loads args = Some parsed ->
    dict_items parsed = Some items ->
    let r := handle_block' st (ToolCallChunk (Some name) (ArgsStr args) id) in
    let args_str :=
      str_join ", "
        (map (fun kv => fst kv +++ "=" +++ truncate_value (py_str (snd kv)) 50)
             items) in
    let line := tool_call_line (icon_of name) name args_str in
    tool_call_lines (snd (fst r)) = [(name, args_str)]
    /\ snd r = print_flow (markup line)
    /\ (markup line = Printed line ->
          console_shows (PrintToolCall (icon_of name) name args_str) = Some line
          /\ snd r = Continue)
    /\ forall kv, In kv items ->
         let value := py_str (snd kv) in
         (50 < String.length value ->
            truncate_value value 50 = str_take 50 value +++ "..."
            /\ String.length (str_take 50 value) = 50)
         /\ (String.length value <= 50 -> truncate_value value 50 = value).
Proof.
  intros st name args id parsed items Hname Hargs Hloads Hitems r args_str line.
  assert (Hfmt : format_tool_args' (ArgsStr args) = args_str)
    by (cbn [format_tool_args]; now rewrite Hargs, Hloads, Hitems).
  destruct (handle_block_tool_call st name (ArgsStr args) id Hname) as [Hl Hf].
  rewrite Hfmt in Hl, Hf. fold r line in Hl, Hf.
  split; [exact Hl|]. split; [exact Hf|]. split.
  - intro Hm. cbn [console_shows]. fold line. rewrite Hf, Hm. auto.
  - intros kv _ value.
    destruct (truncate_value_spec value 50) as [Hlong Hshort].
    split; [|exact Hshort].
    intro H. destruct (Hlong H) as (H1 & H2 & _). auto.
Qed.

(** C3, as the code has it. A fragment that names the tool [shell] and
    carries no arguments is drawn at once, as the line [shell()]; a later
    fragment that carries arguments and no name draws nothing, so the two
    fragments give that one line.  [command=ls] is shown when the
    arguments come in the fragment that carries the name. *)
Theorem tool_call_line_drawn_from_named_fragment :
  forall (tg : bool) (st : state) (u1 u2 u3 : option usage)
         (args1 : block_args) (args2 args3 : string) (id1 id2 id3 : option string)
         (parsed : pyobj) (v : pyobj),
    args1 = ArgsAbsent \/ args1 = ArgsStr EmptyString ->
    str_truthy args3 = true ->
    json_loads args3 = Some parsed ->
    dict_items parsed = Some [("command", v)] ->
    py_str v = "ls" ->
    let named := Messages (Some (AIMessageChunk u1
                   [ToolCallChunk (Some "shell") args1 id1])) in
    let unnamed := Messages (Some (AIMessageChunk u2
                     [ToolCallChunk None (ArgsStr args2) id2])) in
    let whole := Messages (Some (AIMessageChunk u3
                   [ToolCallChunk (Some "shell") (ArgsStr args3) id3])) in
    tool_call_lines (snd (fst (process_stream' tg st [Yield named])))
    = [("shell", EmptyString)]
    /\ tool_call_lines (snd (fst (process_stream' tg st [Yield named; Yield unnamed])))
       = [("shell", EmptyString)]
    /\ tool_call_lines (snd (fst (process_stream' tg st [Yield whole])))
       = [("shell", "command=ls")].
Proof.
  intros tg st u1 u2 u3 args1 args2 args3 id1 id2 id3 parsed v
         Hargs1 Hargs3 Hloads Hitems Hstr named unnamed whole.
  subst named unnamed whole.
  assert (Hfmt1 : format_tool_args' args1 = EmptyString)
    by (destruct Hargs1 as [-> | ->]; reflexivity).
  assert (Hfmt3 : format_tool_args' (ArgsStr args3) = "command=ls").
  { cbn [format_tool_args]. rewrite Hargs3, Hloads, Hitems. cbn.
    unfold format_arg. cbn [fst snd]. rewrite Hstr. reflexivity. }
  cbn [process_stream handle_chunk handle_message handle_blocks handle_block
       str_truthy].
  rewrite Hfmt1, Hfmt3.
  repeat split;
    repeat match goal with
           | |- context [markup ?t] => destruct (markup t)
           end;
    cbn [fst snd];
    destruct (spinner_active (capture_usage tg u1 st)),
             (has_responded (capture_usage tg u1 st)),
             (spinner_active (capture_usage tg u3 st)),
             (has_responded (capture_usage tg u3 st)); reflexivity.
Qed.

(** ** Todo snapshots *)

Lemma handle_updates_todos :
  forall st data d new,
    interrupt_of data = None ->
    first_value data = VDict d ->
    d_todos d = Some new ->
    handle_updates markup user st data
    = if snapshot_eqb (Some new) (current_todos st)
      then (st, [], Continue)
      else
        let s := stop_spinner (set_current_todos (Some new) st) in
        let r := render_todo_list markup new in
        (fst s,
         snd s ++ [PrintBlank] ++ fst r
         ++ (if is_error (snd r) then [] else [PrintBlank]),
         snd r).
Proof.
  intros st data d new Hint Hfirst Htodos.
  unfold handle_updates. rewrite Hint, handle_todos_eq, Hfirst.
  cbn [todos_of]. now rewrite Htodos.
Qed.

(** C4, as the code has it. When a state update carries todos that differ
    from the snapshot kept and the spinner is running, the spinner is
    stopped before anything is drawn: [status.stop()] comes first, then a
    blank line, then the panel of the list (no panel for an empty list),
    then a blank line unless the print of the panel raised.  The spinner is not started
    again: [spinner_active] is false afterwards and no [status.start()]
    occurs in the rest of the stream or of the turn. *)
Theorem todo_redraw_stops_spinner_for_good :
  forall (tracker : option TokenTracker.t) (tg : bool) (st : state)
         (data : list (string * upd_value)) (d : pydict) (new : list todo),
    interrupt_of data = None ->
    first_value data = VDict d ->
    d_todos d = Some new ->
    Some new <> current_todos st ->
    spinner_active st = true ->
    let r := render_todo_list markup new in
    exists st',
      handle_chunk' tg st (Updates (Some data))
      = (st',
         [StatusStop; PrintBlank] ++ fst r
         ++ (if is_error (snd r) then [] else [PrintBlank]),
         snd r)
      /\ r = match new with
             | [] => ([], Continue)
             | _ :: _ =>
                 ([PrintTodoPanel (map todo_line new)],
                  print_flow (markup (panel_text (map todo_line new))))
             end
      /\ (is_error (snd r) = false -> snd r = Continue)
      /\ spinner_active st' = false
      /\ current_todos st' = Some new
      /\ (forall items,
            Forall not_start (snd (fst (process_stream' tg st' items))))
      /\ (forall script input,
            Forall not_start (turn_log (stream_loop' tracker script st' input))).
Proof.
  intros tracker tg st data d new Hint Hfirst Htodos Hdiff Hon r.
  exists (set_spinner_active false (set_current_todos (Some new) st)).
  cbn [handle_chunk]. rewrite (handle_updates_todos st data d new Hint Hfirst Htodos).
  apply snapshot_eqb_false in Hdiff. rewrite Hdiff.
  rewrite stop_spinner_when_on by exact Hon. cbv zeta. cbn [fst snd app].
  fold r. repeat split.
  - subst r. destruct (render_todo_list_cases new) as [-> | [-> | (m & ->)]];
      cbn; congruence.
  - intro items. now apply process_stream_off.
  - intros script input. now apply stream_loop_off.
Qed.



(** The panels that [render_todo_list] prints. *)
Lemma render_todo_list_panels :
  forall new,
    panels (fst (render_todo_list markup new))
    = match new with
      | [] => []
      | _ :: _ => [map todo_line new]
      end.
Proof. intros [|t new]; reflexivity. Qed.


(** ** Token usage *)

Lemma max_count_nonneg : forall l, (0 <= max_count l)%Z.
Proof.
  induction l as [|x l IH]; [cbn; lia|].
  change (max_count (x :: l)) with (Z.max x (max_count l)). lia.
Qed.

Lemma fold_left_max :
  forall l a, (0 <= a)%Z -> fold_left Z.max l a = Z.max a (max_count l).
Proof.
  induction l as [|x l IH]; intros a Ha; cbn [fold_left].
  - change (max_count []) with 0%Z. lia.
  - rewrite IH by lia.
    change (max_count (x :: l)) with (Z.max x (max_count l)). lia.
Qed.

Lemma max_count_upper : forall l x, In x l -> (x <= max_count l)%Z.
Proof.
  induction l as [|y l IH]; intros x Hin; [contradiction|].
  change (max_count (y :: l)) with (Z.max y (max_count l)).
  destruct Hin as [->|Hin]; [lia|]. specialize (IH x Hin). lia.
Qed.

Lemma max_count_attained : forall l, max_count l = 0%Z \/ In (max_count l) l.
Proof.
  induction l as [|y l IH]; [now left|].
  change (max_count (y :: l)) with (Z.max y (max_count l)).
  destruct (Z.max_spec y (max_count l)) as [[_ E]|[_ E]]; rewrite E.
  - destruct IH as [IH|IH]; [now left | now right; right].
  - right. now left.
Qed.

Variable resolve : string -> resolution.
Variable read_text : path -> read_result.

Local Abbreviation execute_task' :=
  (execute_task json_loads dict_items py_str markup user invoke resolve read_text).

Lemma warnings_quiet :
  forall ws tail, quiet tail -> quiet ([PrintBlank] ++ map PrintWarning ws ++ tail).
Proof.
  intros ws tail [X P]. unfold quiet. cbn [app].
  induction ws as [|w ws IH]; cbn in *; auto.
Qed.

(** [execute_task] is [stream_loop] after the file mentions, unless these
    raise. *)
Lemma execute_task_cases :
  forall user_input script tracker,
    (exists files ws,
        parse_file_mentions markup resolve user_input = (Returns user_input files, ws)
        /\ execute_task' user_input script tracker
           = prepend ([PrintBlank] ++ map PrintWarning ws ++ [StatusStart])
                     (stream_loop' tracker script initial_state
                        (UserMessages (final_input_of read_text user_input files))))
    \/ (exists e ws,
          parse_file_mentions markup resolve user_input = (ParseRaises e, ws)
          /\ execute_task' user_input script tracker
             = mk_turn (Error e) ([PrintBlank] ++ map PrintWarning ws)
                       initial_state tracker).
Proof.
  intros user_input script tracker. unfold execute_task.
  destruct (parse_file_mentions markup resolve user_input) as [[text' files|e] ws] eqn:E.
  - left. exists files, ws.
    assert (text' = user_input).
    { unfold parse_file_mentions in E.
      destruct (resolve_mentions markup resolve (find_mentions user_input))
        as [[fs ws'] [e'|]]; [discriminate|]. now injection E as <- _ _. }
    subst text'. auto.
  - right. now exists e, ws.
Qed.

(** The whole turn, from [initial_state]. *)
Lemma execute_task_frame :
  forall user_input script tracker,
    run_frame (tracker_given tracker) initial_state
              (turn_state (execute_task' user_input script tracker))
              (turn_log (execute_task' user_input script tracker)).
Proof.
  intros user_input script tracker.
  destruct (execute_task_cases user_input script tracker)
    as [(files & ws & _ & ->) | (e & ws & _ & ->)].
  - cbn [prepend turn_state turn_log].
    apply run_frame_app with (st1 := initial_state).
    + apply run_frame_quiet; try reflexivity.
      apply warnings_quiet. split; reflexivity.
    + apply stream_loop_frame.
  - cbn [turn_state turn_log]. apply run_frame_quiet; try reflexivity.
    rewrite <- (app_nil_r (map PrintWarning ws)).
    apply warnings_quiet. split; reflexivity.
Qed.

(** C9. With a token tracker passed, the counts captured during a turn
    are the largest [input_tokens] and the largest [output_tokens] among
    the usage reports, with a non-zero count, of the chunks pulled ([0]
    when there is none): no report exceeds them, and each of them is [0]
    or the count of one single report. *)
Theorem captured_tokens_are_maxima :
  forall (user_input : string) (script : list (list pulled)) (t : TokenTracker.t),
    let T := execute_task' user_input script (Some t) in
    let reports := usage_reports (turn_log T) in
    captured_input_tokens (turn_state T) = max_count (map input_tokens reports)
    /\ captured_output_tokens (turn_state T) = max_count (map output_tokens reports)
    /\ (forall u, In u reports ->
          (input_tokens u <= captured_input_tokens (turn_state T))%Z
          /\ (output_tokens u <= captured_output_tokens (turn_state T))%Z)
    /\ (captured_input_tokens (turn_state T) = 0%Z
        \/ exists u, In u reports
                     /\ input_tokens u = captured_input_tokens (turn_state T))
    /\ (captured_output_tokens (turn_state T) = 0%Z
        \/ exists u, In u reports
                     /\ output_tokens u = captured_output_tokens (turn_state T)).
Proof.
  intros user_input script t T reports.
  destruct (execute_task_frame user_input script (Some t)) as (_ & _ & I & O).
  fold T in I, O. cbn [tracker_given initial_state captured_input_tokens
                       captured_output_tokens] in I, O.
  fold reports in I, O.
  rewrite fold_left_max in I, O by lia.
  rewrite Z.max_r in I by apply max_count_nonneg.
  rewrite Z.max_r in O by apply max_count_nonneg.
  rewrite I, O. repeat split.
  - apply max_count_upper. now apply in_map.
  - apply max_count_upper. now apply in_map.
  - destruct (max_count_attained (map input_tokens reports)) as [H|H];
      [now left|right].
    apply in_map_iff in H. destruct H as (u & Hu & Hin). now exists u.
  - destruct (max_count_attained (map output_tokens reports)) as [H|H];
      [now left|right].
    apply in_map_iff in H. destruct H as (u & Hu & Hin). now exists u.
Qed.

Lemma texts_nil :
  forall log, (forall text, ~ In (PrintText text) log) -> texts log = [].
Proof.
  induction log as [|e log IH]; intro H; [reflexivity|].
  assert (Hrest : texts log = [])
    by (apply IH; intros text Hin; apply (H text); now right).
  destruct e; cbn; try exact Hrest.
  exfalso. apply (H text0). now left.
Qed.

(** The tracker after [execute_task]. *)
Lemma execute_task_tracker :
  forall user_input script tracker,
    let T := execute_task' user_input script tracker in
    turn_tracker T = tracker
    \/ (has_responded (turn_state T) = true
        /\ turn_outcome T = Completed
        /\ exists t,
             tracker = Some t
             /\ turn_tracker T
                = Some (TokenTracker.add (captured_input_tokens (turn_state T))
                                         (captured_output_tokens (turn_state T)) t)).
Proof.
  intros user_input script tracker.
  destruct (execute_task_cases user_input script tracker)
    as [(files & ws & _ & ->) | (e & ws & _ & ->)]; cbv zeta.
  - cbn [prepend turn_state turn_tracker turn_outcome].
    apply stream_loop_tracker.
  - now left.
Qed.

(** C10. A turn that prints no text fragment leaves the token tracker as
    it was, whatever usage was captured and however the turn ends. *)
Theorem tracker_unchanged_without_text :
  forall (user_input : string) (script : list (list pulled))
         (tracker : option TokenTracker.t),
    let T := execute_task' user_input script tracker in
    (forall text, ~ In (PrintText text) (turn_log T)) ->
    turn_tracker T = tracker.
Proof.
  intros user_input script tracker T Hno.
  apply texts_nil in Hno.
  destruct (execute_task_frame user_input script tracker) as (_ & H & _).
  fold T in H. rewrite Hno in H. cbn in H.
  destruct (execute_task_tracker user_input script tracker)
    as [Hsame | (Hresp & _)]; [exact Hsame|].
  fold T in Hresp. congruence.
Qed.

(** The tracker changes only on the completed path. *)
Lemma tracker_unchanged_unless_completed :
  forall (user_input : string) (script : list (list pulled))
         (tracker : option TokenTracker.t),
    let T := execute_task' user_input script tracker in
    turn_outcome T <> Completed -> turn_tracker T = tracker.
Proof.
  intros user_input script tracker T Hout.
  destruct (execute_task_tracker user_input script tracker)
    as [Hsame | (_ & Hc & _)]; [exact Hsame | contradiction].
Qed.

(** ** Interrupts and rejection *)

(** One decision is collected for each action request, in order. *)
Lemma collect_decisions_length :
  forall requests n ds ev n',
    collect_decisions markup user n requests = (Decisions ds, ev, n') ->
    length ds = length requests /\ n' = n + length requests.
Proof.
  induction requests as [|r rest IH]; intros n ds ev n' H; cbn in H.
  - injection H as <- _ <-. cbn. split; [reflexivity|lia].
  - destruct (prompt_for_shell_approval markup r (user n)) as [d| |e];
      try discriminate.
    destruct (collect_decisions markup user (S n) rest) as [[[ds'| |e] ev'] n'']
      eqn:E; try discriminate.
    injection H as <- _ <-. destruct (IH _ _ _ _ E) as [H1 H2].
    cbn. split; [congruence|lia].
Qed.

(** The loop over a stream is left by [break] only at an interrupt whose
    prompts were all answered; the spinner is stopped by then. *)
Lemma handle_chunk_break :
  forall tg st c st1 ev ds,
    handle_chunk' tg st c = (st1, ev, Break ds) ->
    spinner_active st1 = false
    /\ exists data req,
         c = Updates (Some data)
         /\ interrupt_of data = Some req
         /\ length ds = length (action_requests_of req).
Proof.
  intros tg st c st1 ev ds H.
  destruct c as [|[data|]|[m|]|]; cbn in H; try discriminate.
  - unfold handle_updates in H.
    destruct (interrupt_of data) as [req|] eqn:Hint.
    + pose proof (handle_interrupt_off st req) as Hoff.
      unfold of_step, stays_off in Hoff.
      destruct (handle_interrupt_shape st req) as (prompts & n & _ & Hst & _).
      rewrite H in Hst. cbn [fst] in Hst. split.
      * rewrite Hst. cbn. apply stop_spinner_off.
      * exists data, req. repeat split; [exact Hint|].
        unfold handle_interrupt in H.
        destruct (stop_spinner st) as [st0 ev0].
        destruct (collect_decisions markup user (prompts_shown st0)
                    (action_requests_of req)) as [[[ds'| |e] ev'] n'] eqn:E;
          try discriminate.
        injection H as _ _ <-. now apply collect_decisions_length in E.
    + exfalso. pose proof (handle_todos_flow st (first_value data)) as F.
      rewrite H in F. destruct F as [F | (e & F)]; discriminate.
  - exfalso. pose proof (handle_message_flow tg st m) as F.
    rewrite H in F. destruct F as [F | (e & F)]; discriminate.
Qed.

Lemma process_stream_broke_out :
  forall tg items st st1 ev ds,
    process_stream' tg st items = (st1, ev, BrokeOut ds) ->
    spinner_active st1 = false.
Proof.
  induction items as [|[c|] rest IH]; intros st st1 ev ds H; cbn in H;
    try discriminate.
  destruct (handle_chunk' tg st c) as [[st0 ev0] [|ds0| |e]] eqn:E;
    try discriminate.
  - destruct (process_stream' tg st0 rest) as [[st2 ev2] e] eqn:E2.
    injection H as <- _ ->. now apply (IH _ _ _ _ E2).
  - injection H as <- _ _. now apply handle_chunk_break in E.
Qed.

(** C1, as the code has it. When the traversal of a stream stops at an
    interrupt whose collected decisions include a reject, the turn calls
    the agent once more, through [agent.invoke] with these decisions, and
    never [agent.stream] again; no text fragment is printed after that
    call.  When the call returns, the rejection notice is printed and the
    turn ends as rejected.  When the call raises an [Exception], its
    message is printed before the notice, and the turn ends as rejected if
    the console takes the message (it is printed with markup on; if not,
    [MarkupError] leaves [execute_task] after the notice).  When the call
    is left by [KeyboardInterrupt], no message is printed: the notice is
    followed by the notice of the interruption and the turn ends as
    interrupted by the user.  The token tracker is untouched in every
    case. *)
Theorem rejection_resumes_once_and_ends_turn :
  forall (tracker : option TokenTracker.t) (st st1 : state)
         (items : list pulled) (rest : list (list pulled))
         (input : stream_input) (ev : list event) (decisions : list decision),
    process_stream' (tracker_given tracker) st items
    = (st1, ev, BrokeOut decisions) ->
    existsb is_reject decisions = true ->
    let T := stream_loop' tracker (items :: rest) st input in
    let tail := [AgentInvoke (Resume decisions)]
                ++ match invoke with
                   | InvokeReturns => [PrintRejected]
                   | InvokeRaises err => [PrintResumeError err; PrintRejected]
                   | InvokeCtrlC => [PrintRejected; PrintInterrupted]
                   end in
    turn_log T = AgentStream input :: ev ++ tail
    /\ turn_outcome T
       = match invoke with
         | InvokeReturns => Rejected
         | InvokeRaises err =>
             match markup (resume_error_text err) with
             | Printed _ => Rejected
             | MarkupFails message => Error (MarkupError message)
             end
         | InvokeCtrlC => InterruptedByUser
         end
    /\ agent_calls tail = [AgentInvoke (Resume decisions)]
    /\ texts tail = []
    /\ turn_tracker T = tracker.
Proof.
  intros tracker st st1 items rest input ev decisions Hrun Hrej T tail.
  pose proof (process_stream_broke_out _ _ _ _ _ _ Hrun) as Hoff.
  subst T tail. cbn [stream_loop]. rewrite Hrun, Hrej.
  unfold rejected_turn. rewrite (stop_spinner_when_off _ Hoff).
  destruct invoke as [|err|]; cbn; try destruct (markup _); cbn;
    rewrite ?Hoff; cbn; repeat split; reflexivity.
Qed.

End EngineFacts.

(* ================================================================== *)
(** * The engine on concrete turns *)

(** A user who approves everything, and one who rejects everything. *)
Definition always_approve : nat -> user_choice := fun _ => ChooseApprove.
Definition always_reject : nat -> user_choice := fun _ => ChooseReject.

(** A file system without files. *)
Definition no_file : string -> resolution := fun _ => NotAFile.
Definition unreadable : path -> read_result := fun _ => ReadFails "unreadable".

(** [c * n] *)
Fixpoint repeat_char (c : ascii) (n : nat) : string :=
  match n with
  | O => EmptyString
  | S n' => String c (repeat_char c n')
  end.

(** The JSON text [{"command":"<value>"}]. *)
Definition command_json (value : string) : string :=
  "{" +++ MiniJson.quoted "command" +++ ":" +++ MiniJson.quoted value +++ "}".

(** [execute_task] on the fragments of [json.loads] and of the console
    markup, without files. *)
Definition run_turn (user : nat -> user_choice) (invoke : invoke_result)
           (user_input : string) (script : list (list pulled))
           (tracker : option TokenTracker.t) : turn :=
  execute_task MiniJson.json_loads MiniJson.dict_items MiniJson.py_str
               MiniMarkup.markup user invoke no_file unreadable
               user_input script tracker.

Definition mini_block : state -> block -> state * list event * flow :=
  handle_block MiniJson.json_loads MiniJson.dict_items MiniJson.py_str
               MiniMarkup.markup.

Definition mini_stream (user : nat -> user_choice)
  : bool -> state -> list pulled -> state * list event * stream_end :=
  process_stream MiniJson.json_loads MiniJson.dict_items MiniJson.py_str
                 MiniMarkup.markup user.

Definition mini_message : bool -> state -> message -> state * list event * flow :=
  handle_message MiniJson.json_loads MiniJson.dict_items MiniJson.py_str
                 MiniMarkup.markup.

(** An interrupt that asks to approve one shell command. *)
Definition one_request : list (string * upd_value) :=
  [("__interrupt__",
    VTuple [mk_dict (Some [mk_request (Some "rm -rf build")]) None false])].

(** A state update of the node [tools] with one pending todo. *)
Definition one_todo : list todo := [mk_todo (Some "pending") (Some "write tests")].
Definition todo_update : list (string * upd_value) :=
  [("tools", VDict (mk_dict None (Some one_todo) false))].


(** C1, on an example: the user rejects the only request and
    [agent.invoke] raises an [Exception]. *)
Lemma rejection_resumes_once_witness :
  mini_stream always_reject true initial_state [Yield (Updates (Some one_request))]
  = (set_prompts_shown 1 (set_spinner_active false initial_state),
     [Pulled (Updates (Some one_request)); StatusStop;
      Prompt (mk_request (Some "rm -rf build"))],
     BrokeOut [Reject "User rejected the command"])
  /\ existsb is_reject [Reject "User rejected the command"] = true
  /\ turn_outcome
       (stream_loop MiniJson.json_loads MiniJson.dict_items MiniJson.py_str
          MiniMarkup.markup always_reject (InvokeRaises "connection lost")
          (Some TokenTracker.init) [[Yield (Updates (Some one_request))]]
          initial_state (UserMessages "clean up"))
     = Rejected.
Proof.
  split; [reflexivity|]. split; [reflexivity|].
  exact (proj1 (proj2
    (rejection_resumes_once_and_ends_turn
       MiniJson.value MiniJson.json_loads MiniJson.dict_items MiniJson.py_str
       MiniMarkup.markup always_reject (InvokeRaises "connection lost")
       (Some TokenTracker.init) initial_state
       (set_prompts_shown 1 (set_spinner_active false initial_state))
       [Yield (Updates (Some one_request))] [] (UserMessages "clean up")
       [Pulled (Updates (Some one_request)); StatusStop;
        Prompt (mk_request (Some "rm -rf build"))]
       [Reject "User rejected the command"] eq_refl eq_refl))).
Defined.

(** C1 as stated fails: when the resumption call is left by
    [KeyboardInterrupt], which is a way for the call to raise, the failure
    is not reported as text and the turn does not end as rejected; the
    rejection notice is followed by the notice of the interruption. *)
Lemma resume_cut_by_ctrl_c_ends_interrupted :
  turn_log (run_turn always_reject InvokeCtrlC "clean up"
              [[Yield (Updates (Some one_request))]] (Some TokenTracker.init))
  = [PrintBlank; StatusStart; AgentStream (UserMessages "clean up");
     Pulled (Updates (Some one_request)); StatusStop;
     Prompt (mk_request (Some "rm -rf build"));
     AgentInvoke (Resume [Reject "User rejected the command"]);
     PrintRejected; PrintInterrupted]
  /\ turn_outcome (run_turn always_reject InvokeCtrlC "clean up"
                     [[Yield (Updates (Some one_request))]]
                     (Some TokenTracker.init))
     = InterruptedByUser
  /\ turn_outcome (run_turn always_reject InvokeCtrlC "clean up"
                     [[Yield (Updates (Some one_request))]]
                     (Some TokenTracker.init))
     <> Rejected.
Proof.
  split; [reflexivity|]. split; [reflexivity|]. vm_compute. discriminate.
Qed.

(** C2, on an example: the arguments [{"command":"ls"}] of a [shell]
    fragment. *)
Lemma tool_call_values_cut_witness :
  str_truthy "shell" = true
  /\ str_truthy (command_json "ls") = true
  /\ MiniJson.json_loads (command_json "ls")
     = Some (MiniJson.MObject [("command", "ls")])
  /\ MiniJson.dict_items (MiniJson.MObject [("command", "ls")])
     = Some [("command", MiniJson.MString "ls")]
  /\ tool_call_lines
       (snd (fst (mini_block initial_state
                    (ToolCallChunk (Some "shell") (ArgsStr (command_json "ls")) None))))
     = [("shell", "command=ls")].
Proof.
  do 4 (split; [reflexivity|]).
  exact (proj1 (tool_call_values_cut_at_50
                  MiniJson.value MiniJson.json_loads MiniJson.dict_items
                  MiniJson.py_str MiniMarkup.markup initial_state "shell"
                  (command_json "ls") None
                  (MiniJson.MObject [("command", "ls")])
                  [("command", MiniJson.MString "ls")]
                  eq_refl eq_refl eq_refl eq_refl)).
Defined.

(** C2 as stated fails: a value of 60 characters, fewer than 150, is not
    shown as it is; the line shows its first 50 characters and three dots. *)
Lemma value_of_60_characters_is_cut :
  String.length (repeat_char "x" 60) = 60
  /\ tool_call_lines
       (snd (fst (mini_block initial_state
                    (ToolCallChunk (Some "shell")
                                   (ArgsStr (command_json (repeat_char "x" 60))) None))))
     = [("shell", "command=" +++ repeat_char "x" 50 +++ "...")]
  /\ console_shows MiniMarkup.markup
       (PrintToolCall (icon_of "shell") "shell"
                      ("command=" +++ repeat_char "x" 50 +++ "..."))
     = Some (tool_call_line (icon_of "shell") "shell"
                            ("command=" +++ repeat_char "x" 50 +++ "..."))
  /\ tool_call_lines
       (snd (fst (mini_block initial_state
                    (ToolCallChunk (Some "shell")
                                   (ArgsStr (command_json (repeat_char "x" 60))) None))))
     <> [("shell", "command=" +++ repeat_char "x" 60)].
Proof.
  split; [reflexivity|]. split; [reflexivity|]. split; [reflexivity|].
  vm_compute. discriminate.
Qed.

(** The two fragments of the scenario of C3: the name [shell] without
    arguments, then the arguments [{"command":"ls"}] without a name. *)
Definition named_fragment : chunk :=
  Messages (Some (AIMessageChunk None
    [ToolCallChunk (Some "shell") ArgsAbsent (Some "call_1")])).
Definition unnamed_fragment : chunk :=
  Messages (Some (AIMessageChunk None
    [ToolCallChunk None (ArgsStr (command_json "ls")) None])).
Definition whole_fragment : chunk :=
  Messages (Some (AIMessageChunk None
    [ToolCallChunk (Some "shell") (ArgsStr (command_json "ls")) (Some "call_1")])).

(** C3, on an example: the fragments of the scenario, and the fragment
    that carries both the name and the arguments. *)
Lemma tool_call_line_witness :
  (ArgsAbsent = ArgsAbsent \/ ArgsAbsent = ArgsStr EmptyString)
  /\ str_truthy (command_json "ls") = true
  /\ MiniJson.json_loads (command_json "ls")
     = Some (MiniJson.MObject [("command", "ls")])
  /\ MiniJson.dict_items (MiniJson.MObject [("command", "ls")])
     = Some [("command", MiniJson.MString "ls")]
  /\ MiniJson.py_str (MiniJson.MString "ls") = "ls"
  /\ tool_call_lines
       (snd (fst (mini_stream always_approve true initial_state
                    [Yield named_fragment; Yield unnamed_fragment])))
     = [("shell", EmptyString)]
  /\ tool_call_lines
       (snd (fst (mini_stream always_approve true initial_state
                    [Yield whole_fragment])))
     = [("shell", "command=ls")].
Proof.
  split; [now left|]. do 4 (split; [reflexivity|]).
  pose proof (tool_call_line_drawn_from_named_fragment
                MiniJson.value MiniJson.json_loads MiniJson.dict_items
                MiniJson.py_str MiniMarkup.markup always_approve true initial_state
                None None None
                ArgsAbsent (command_json "ls") (command_json "ls")
                (Some "call_1") None (Some "call_1")
                (MiniJson.MObject [("command", "ls")]) (MiniJson.MString "ls")
                (or_introl eq_refl) eq_refl eq_refl eq_refl eq_refl) as H.
  cbv zeta in H. destruct H as (_ & H2 & H3).
  split; [exact H2 | exact H3].
Defined.

(** C3 as stated fails: the turn that streams the two fragments draws one
    tool-call line, when the name arrives, and the line is [shell()], not
    [shell(command=ls)]. *)
Lemma scenario_line_shows_no_arguments :
  turn_log (run_turn always_approve InvokeReturns "list the files"
              [[Yield named_fragment; Yield unnamed_fragment]]
              (Some TokenTracker.init))
  = [PrintBlank; StatusStart; AgentStream (UserMessages "list the files");
     Pulled named_fragment;
     StatusStop; PrintToolCall [9889%N] "shell" EmptyString; StatusStart;
     Pulled unnamed_fragment;
     StatusStop]
  /\ tool_call_lines
       (turn_log (run_turn always_approve InvokeReturns "list the files"
                    [[Yield named_fragment; Yield unnamed_fragment]]
                    (Some TokenTracker.init)))
     <> [("shell", "command=ls")].
Proof.
  split; [reflexivity|]. vm_compute. discriminate.
Qed.

(** C4, on an example: the first todo update of a turn. *)
Lemma todo_redraw_stops_spinner_witness :
  interrupt_of todo_update = None
  /\ first_value todo_update = VDict (mk_dict None (Some one_todo) false)
  /\ d_todos (mk_dict None (Some one_todo) false) = Some one_todo
  /\ Some one_todo <> current_todos initial_state
  /\ spinner_active initial_state = true
  /\ exists st',
       handle_chunk MiniJson.json_loads MiniJson.dict_items MiniJson.py_str
                    MiniMarkup.markup always_approve true initial_state
                    (Updates (Some todo_update))
       = (st',
          [StatusStop; PrintBlank; PrintTodoPanel [(Dim, 9744%N, "write tests")];
           PrintBlank],
          Continue)
       /\ spinner_active st' = false.
Proof.
  split; [reflexivity|]. split; [reflexivity|]. split; [reflexivity|].
  split; [discriminate|]. split; [reflexivity|].
  destruct (todo_redraw_stops_spinner_for_good
              MiniJson.value MiniJson.json_loads MiniJson.dict_items
              MiniJson.py_str MiniMarkup.markup always_approve InvokeReturns
              (Some TokenTracker.init) true initial_state todo_update
              (mk_dict None (Some one_todo) false) one_todo
              eq_refl eq_refl eq_refl
              (fun H : Some one_todo = current_todos initial_state =>
                 eq_ind (Some one_todo)
                        (fun o => match o with Some _ => True | None => False end)
                        I None H)
              eq_refl)
    as (st' & Hstep & _ & _ & Hoff & _).
  exists st'. split; [exact Hstep | exact Hoff].
Defined.

(** A text fragment of the agent. *)
Definition text_fragment : chunk :=
  Messages (Some (AIMessageChunk None [TextBlock "Working on it"])).

(** C4 as stated fails: in this turn the spinner is stopped for the
    redraw, the turn goes on (a text fragment is printed), and the spinner
    is not started again. *)
Lemma spinner_not_resumed_after_redraw :
  turn_log (run_turn always_approve InvokeReturns "plan the work"
              [[Yield (Updates (Some todo_update)); Yield text_fragment]]
              (Some TokenTracker.init))
  = [PrintBlank; StatusStart; AgentStream (UserMessages "plan the work")]
    ++ [Pulled (Updates (Some todo_update));
        StatusStop; PrintBlank; PrintTodoPanel [(Dim, 9744%N, "write tests")]]
    ++ [PrintBlank;
        Pulled text_fragment; PrintAgentMarker; PrintText "Working on it";
        PrintBlank; PrintBlank]
  /\ In (PrintText "Working on it")
        [PrintBlank;
         Pulled text_fragment; PrintAgentMarker; PrintText "Working on it";
         PrintBlank; PrintBlank]
  /\ ~ In StatusStart
        [PrintBlank;
         Pulled text_fragment; PrintAgentMarker; PrintText "Working on it";
         PrintBlank; PrintBlank].
Proof.
  split; [reflexivity|]. split.
  - cbn. auto.
  - cbn. intros [H|[H|[H|[H|[H|[H|[]]]]]]]; discriminate.
Qed.

(** C5, on an example: a failed [shell] call with an error text, which the
    user sees as it is. *)
Lemma tool_result_shown_witness :
  (Some "shell" = Some "shell"
   /\ "error" <> "success"
   /\ format_tool_message_content (ContentStr "ls: cannot access") <> EmptyString)
  /\ MiniMarkup.markup (codes "ls: cannot access") = Printed (codes "ls: cannot access")
  /\ snd (fst (mini_message true initial_state
                 (ToolMessage (Some "shell") "error" (ContentStr "ls: cannot access"))))
     = [StatusStop; PrintBlank; PrintToolError "ls: cannot access"; PrintBlank]
  /\ console_shows MiniMarkup.markup (PrintToolError "ls: cannot access")
     = Some (codes "ls: cannot access").
Proof.
  assert (H : Some "shell" = Some "shell"
              /\ "error" <> "success"
              /\ format_tool_message_content (ContentStr "ls: cannot access")
                 <> EmptyString)
    by (split; [reflexivity | split; discriminate]).
  split; [exact H|]. split; [reflexivity|].
  pose proof (tool_result_shown_iff_shell_error_text
                MiniJson.value MiniJson.json_loads MiniJson.dict_items
                MiniJson.py_str MiniMarkup.markup true initial_state
                (Some "shell") "error" (ContentStr "ls: cannot access")) as T.
  cbv zeta in T. destruct T as (Hiff & Hshape & Hshown & _).
  split; [exact (proj1 (Hshape (proj2 Hiff H))) | exact (proj1 (Hshown eq_refl))].
Defined.

(** C5 as stated fails: a failed [shell] call whose content is empty
    gives no output at all. *)
Lemma empty_shell_error_not_shown :
  mini_message true initial_state
    (ToolMessage (Some "shell") "error" (ContentStr EmptyString))
  = (initial_state, [], Continue)
  /\ mini_message true initial_state (ToolMessage (Some "shell") "error" ContentNone)
     = (initial_state, [], Continue)
  /\ Some "shell" = Some "shell"
  /\ "error" <> "success".
Proof.
  repeat split; try reflexivity. discriminate.
Qed.

(** A failed [shell] call whose error text holds square brackets is not
    shown as it is: the console takes [[all]] for a tag and leaves it out,
    and it refuses [[/tmp]], a closing tag that closes nothing, so that the
    print raises and the turn ends by [MarkupError]. *)
Lemma shell_error_with_markup_is_not_verbatim :
  console_shows MiniMarkup.markup (PrintToolError "rm: refusing [all] files")
  = Some (codes "rm: refusing  files")
  /\ console_shows MiniMarkup.markup (PrintToolError "cd: no such directory: [/tmp]")
     = None
  /\ turn_outcome
       (run_turn always_approve InvokeReturns "go to tmp"
          [[Yield (Messages (Some (ToolMessage (Some "shell") "error"
                     (ContentStr "cd: no such directory: [/tmp]"))));
            Yield text_fragment]]
          (Some TokenTracker.init))
     = Error (MarkupError
                (codes ("closing tag '[/tmp]' at position 23 "
                        +++ "doesn't match any open tag")))
  /\ texts
       (turn_log
          (run_turn always_approve InvokeReturns "go to tmp"
             [[Yield (Messages (Some (ToolMessage (Some "shell") "error"
                        (ContentStr "cd: no such directory: [/tmp]"))));
               Yield text_fragment]]
             (Some TokenTracker.init)))
     = [].
Proof.
  repeat split; reflexivity.
Qed.



(** A turn in which the agent reports its usage twice, cumulatively, and
    prints no text. *)
Definition usage_chunk (i o : Z) : chunk :=
  Messages (Some (AIMessageChunk (Some (mk_usage i o)) [])).

Definition silent_turn : turn :=
  run_turn always_approve InvokeReturns "think"
           [[Yield (usage_chunk 100 20); Yield (usage_chunk 100 45)]]
           (Some TokenTracker.init).

(** C9, on an example: two cumulative reports, [(100, 20)] then
    [(100, 45)], are captured as [(100, 45)], not as their sum. *)
Lemma captured_tokens_witness :
  captured_input_tokens (turn_state silent_turn) = 100%Z
  /\ captured_output_tokens (turn_state silent_turn) = 45%Z.
Proof.
  pose proof (captured_tokens_are_maxima
                MiniJson.value MiniJson.json_loads MiniJson.dict_items
                MiniJson.py_str MiniMarkup.markup always_approve InvokeReturns
                no_file unreadable
                "think" [[Yield (usage_chunk 100 20); Yield (usage_chunk 100 45)]]
                TokenTracker.init) as T.
  cbv zeta in T. destruct T as (Hin & Hout & _).
  split; [exact Hin | exact Hout].
Defined.

(** C10, on an example: usage is captured, no text is printed, and the
    tracker is left as it was. *)
Lemma tracker_unchanged_witness :
  (forall text, ~ In (PrintText text) (turn_log silent_turn))
  /\ captured_output_tokens (turn_state silent_turn) = 45%Z
  /\ turn_tracker silent_turn = Some TokenTracker.init.
Proof.
  assert (H : forall text, ~ In (PrintText text) (turn_log silent_turn)).
  { intros text Hin. vm_compute in Hin.
    repeat (destruct Hin as [Hin|Hin]; [discriminate|]). exact Hin. }
  split; [exact H|]. split; [reflexivity|].
  exact (tracker_unchanged_without_text
           MiniJson.value MiniJson.json_loads MiniJson.dict_items
           MiniJson.py_str MiniMarkup.markup always_approve InvokeReturns
           no_file unreadable
           "think" [[Yield (usage_chunk 100 20); Yield (usage_chunk 100 45)]]
           (Some TokenTracker.init) H).
Defined.

(** C6.  The mentions of ["@a.txt and @b\ c.txt"] are the two tokens
    [a.txt] and [b c.txt], and the missing [a.txt] costs one warning while
    [b c.txt] resolves.  In general, when the loop passes every mention of
    a text (each path can be expanded and each warning is taken by the
    console), [parse_file_mentions] returns the text unchanged, with the
    file of each mention that resolves and a warning for each of the
    others.  But a mention that the loop does not pass is fatal: in
    ["@~ghost/x and @b\ c.txt"], on a machine without a user [ghost],
    [expanduser()] raises before the [try]; no warning is printed,
    [b c.txt] is not resolved although it is there, nothing is returned,
    and [execute_task] ends by this exception without a call to the
    agent. *)
Theorem unexpandable_mention_is_fatal :
  map unescape_spaces (find_mentions "@a.txt and @b\ c.txt") = ["a.txt"; "b c.txt"]
  /\ parse_file_mentions MiniMarkup.markup only_b_c "@a.txt and @b\ c.txt"
     = (Returns "@a.txt and @b\ c.txt" [mk_path "/work/b c.txt" "b c.txt"],
        [FileNotFound "a.txt"])
  /\ (forall (markup : text -> print_result) (resolve : string -> resolution)
             (text : string),
        forallb (passes markup resolve) (find_mentions text) = true ->
        parse_file_mentions markup resolve text
        = (Returns text (flat_map (resolved_file resolve) (find_mentions text)),
           flat_map (warning_of resolve) (find_mentions text)))
  /\ (forall (markup : text -> print_result) (resolve : string -> resolution)
             (text : string),
        forallb (passes markup resolve) (find_mentions text) = false ->
        exists e warnings,
          parse_file_mentions markup resolve text = (ParseRaises e, warnings))
  /\ map unescape_spaces (find_mentions "@~ghost/x and @b\ c.txt")
     = ["~ghost/x"; "b c.txt"]
  /\ no_ghost "b c.txt" = IsFile (mk_path "/work/b c.txt" "b c.txt")
  /\ no_ghost "~ghost/x" = PathFails "Could not determine home directory."
  /\ parse_file_mentions MiniMarkup.markup no_ghost "@~ghost/x and @b\ c.txt"
     = (ParseRaises (PathError "Could not determine home directory."), [])
  /\ execute_task MiniJson.json_loads MiniJson.dict_items MiniJson.py_str
       MiniMarkup.markup always_approve InvokeReturns no_ghost unreadable
       "@~ghost/x and @b\ c.txt" [[Yield text_fragment]] (Some TokenTracker.init)
     = mk_turn (Error (PathError "Could not determine home directory."))
               [PrintBlank] initial_state (Some TokenTracker.init).
Proof.
  split; [reflexivity|]. split; [reflexivity|].
  split; [exact parse_file_mentions_returns|].
  split; [exact parse_file_mentions_raises|].
  repeat split; reflexivity.
Qed.

(** A mention that reads as a closing tag is fatal too: the file is not
    there, and the print of the warning raises. *)
Lemma mention_with_markup_is_fatal :
  parse_file_mentions MiniMarkup.markup only_b_c "see @[/x] and @b\ c.txt"
  = (ParseRaises
       (MarkupError
          (codes "closing tag '[/x]' at position 33 doesn't match any open tag")),
     [FileNotFound "[/x]"]).
Proof. vm_compute. reflexivity. Qed.
(* ================================================================== *)
(** * Further properties of the turn-execution engine *)

(** The text fragments a chunk carries: the non-empty texts of the text
    blocks of an [AIMessageChunk], in order. *)
Definition block_texts (b : block) : list string :=
  match b with
  | TextBlock text => if str_truthy text then [text] else []
  | _ => []
  end.

Definition chunk_texts (c : chunk) : list string :=
  match c with
  | Messages (Some (AIMessageChunk _ blocks)) => flat_map block_texts blocks
  | _ => []
  end.



(** The number of agent markers printed. *)
Definition markers (log : list event) : nat :=
  length (filter (fun e => match e with PrintAgentMarker => true | _ => false end) log).

(** The state of the [status] object after the calls of [log], from the
    state [running]. *)
Definition running_after (running : bool) (log : list event) : bool :=
  fold_left (fun r e => match e with
                        | StatusStart => true
                        | StatusStop => false
                        | _ => r
                        end) log running.

(** [status.start()] is only called on a stopped spinner and
    [status.stop()] only on a running one. *)
Fixpoint alternates (running : bool) (log : list event) : bool :=
  match log with
  | [] => true
  | StatusStart :: rest => negb running && alternates true rest
  | StatusStop :: rest => running && alternates false rest
  | _ :: rest => alternates running rest
  end.

Lemma markers_app : forall l1 l2, markers (l1 ++ l2) = markers l1 + markers l2.
Proof. intros. unfold markers. now rewrite filter_app, length_app. Qed.

Lemma running_after_app :
  forall r l1 l2, running_after r (l1 ++ l2) = running_after (running_after r l1) l2.
Proof. intros. unfold running_after. apply fold_left_app. Qed.

Lemma alternates_app :
  forall l1 l2 r,
    alternates r (l1 ++ l2) = alternates r l1 && alternates (running_after r l1) l2.
Proof.
  induction l1 as [|e l1 IH]; intros l2 r; [reflexivity|].
  destruct e; cbn [app alternates]; rewrite ?IH; try reflexivity.
  - now rewrite andb_assoc.
  - now rewrite andb_assoc.
Qed.

(** Events that are neither texts, markers nor spinner calls. *)
Definition plain (ev : list event) : Prop :=
  Forall (fun e => match e with
                   | PrintText _ | PrintAgentMarker | StatusStart | StatusStop => False
                   | _ => True
                   end) ev.

Lemma plain_facts :
  forall ev,
    plain ev ->
    texts ev = [] /\ markers ev = 0
    /\ forall r, alternates r ev = true /\ running_after r ev = r.
Proof.
  induction 1 as [|e ev He _ IH]; [cbn; auto|].
  destruct IH as (X & M & Q).
  destruct e; try contradiction; cbn; repeat split; auto; apply Q.
Qed.

Lemma prompts_plain : forall ev, Forall is_prompt ev -> plain ev.
Proof.
  induction 1 as [|e ev He _ IH]; constructor; [|exact IH].
  destruct e; try contradiction. exact I.
Qed.

Ltac plain_list := repeat first [ apply Forall_nil | apply Forall_cons; [exact I|] ].

Section TurnFacts.

Variable pyobj : Type.
Variable json_loads : string -> option pyobj.
Variable dict_items : pyobj -> option (list (string * pyobj)).
Variable py_str : pyobj -> string.
Variable markup : text -> print_result.
Variable user : nat -> user_choice.
Variable invoke : invoke_result.
Variable resolve : string -> resolution.
Variable read_text : path -> read_result.

Local Abbreviation handle_block' := (handle_block json_loads dict_items py_str markup).
Local Abbreviation handle_blocks' := (handle_blocks json_loads dict_items py_str markup).
Local Abbreviation handle_message' := (handle_message json_loads dict_items py_str markup).
Local Abbreviation handle_chunk' := (handle_chunk json_loads dict_items py_str markup user).
Local Abbreviation process_stream' :=
  (process_stream json_loads dict_items py_str markup user).
Local Abbreviation stream_loop' :=
  (stream_loop json_loads dict_items py_str markup user invoke).
Local Abbreviation execute_task' :=
  (execute_task json_loads dict_items py_str markup user invoke resolve read_text).

(** What the events of some steps say about the marker, about
    [has_responded] and about the spinner: the marker is printed with the
    first text unless the agent had responded before, the spinner calls
    alternate, and the spinner runs afterwards when [spinner_active] says
    so, except after an exception, which finds the spinner stopped. *)
Definition tidy (st st' : state) (ev : list event) (failed : bool) : Prop :=
  markers ev = (if has_responded st then 0
                else if nonempty (texts ev) then 1 else 0)
  /\ has_responded st' = has_responded st || nonempty (texts ev)
  /\ alternates (spinner_active st) ev = true
  /\ running_after (spinner_active st) ev
     = (if failed then false else spinner_active st').

Lemma tidy_nil : holds_of_nothing tidy.
Proof.
  intro st. unfold tidy; cbn. destruct (has_responded st); auto.
Qed.

Lemma tidy_app : kept_in_sequence tidy.
Proof.
  intros st st1 st2 ev1 ev2 failed (M1 & H1 & A1 & R1) (M2 & H2 & A2 & R2).
  unfold tidy.
  rewrite markers_app, texts_app, nonempty_app, alternates_app, running_after_app.
  rewrite M1, M2, H2, H1, A1, R1, A2, R2.
  destruct (has_responded st), (nonempty (texts ev1)), (nonempty (texts ev2));
    cbn; auto.
Qed.

Lemma tidy_same_flags :
  forall st0 st st' ev failed,
    has_responded st0 = has_responded st ->
    spinner_active st0 = spinner_active st ->
    tidy st st' ev failed -> tidy st0 st' ev failed.
Proof.
  intros st0 st st' ev failed Hh Hs T. unfold tidy in *. now rewrite Hh, Hs.
Qed.

Lemma plain_tidy :
  forall st st' ev,
    plain ev ->
    has_responded st' = has_responded st ->
    spinner_active st' = spinner_active st ->
    tidy st st' ev false.
Proof.
  intros st st' ev Hp Hh Hs.
  destruct (plain_facts ev Hp) as (X & M & Q).
  unfold tidy. rewrite M, X, Hh, Hs.
  destruct (Q (spinner_active st)) as [A R]. rewrite A, R. cbn.
  rewrite orb_false_r. destruct (has_responded st); auto.
Qed.

(** Plain events printed after the spinner is stopped, before an
    exception. *)
Lemma plain_tidy_failed :
  forall st st' ev,
    plain ev ->
    has_responded st' = has_responded st ->
    spinner_active st = false ->
    tidy st st' ev true.
Proof.
  intros st st' ev Hp Hh Hs.
  destruct (plain_facts ev Hp) as (X & M & Q).
  unfold tidy. rewrite M, X, Hh, Hs.
  destruct (Q false) as [A R]. rewrite A, R. cbn.
  rewrite orb_false_r. destruct (has_responded st); auto.
Qed.

Lemma stop_spinner_tidy :
  forall st, tidy st (fst (stop_spinner st)) (snd (stop_spinner st)) false.
Proof.
  intro st. unfold stop_spinner, tidy.
  destruct (spinner_active st) eqn:E, (has_responded st) eqn:H; cbn;
    rewrite ?E, ?H; auto.
Qed.

(** The spinner is stopped, then plain events follow: with or without an
    exception at their end. *)
Lemma stopped_then_plain :
  forall st st' ev failed,
    plain ev ->
    has_responded st' = has_responded st ->
    spinner_active st' = false ->
    tidy st st' (snd (stop_spinner st) ++ ev) failed.
Proof.
  intros st st' ev failed Hp Hh Hs.
  apply tidy_app with (st1 := fst (stop_spinner st)); [apply stop_spinner_tidy|].
  destruct (stop_spinner_off st) as [Hoff _].
  destruct (stop_spinner_fields st) as (Hr & _).
  destruct failed.
  - apply plain_tidy_failed; [exact Hp | congruence | exact Hoff].
  - apply plain_tidy; [exact Hp | congruence | congruence].
Qed.

Lemma handle_block_tidy :
  forall st b, of_step tidy st (handle_block' st b).
Proof.
  intros st b. unfold of_step.
  destruct b as [text|reasoning|[name|] args id|];
    cbn [handle_block]; try apply tidy_nil.
  - destruct (str_truthy text); [|apply tidy_nil].
    unfold stop_spinner, tidy.
    destruct (spinner_active st) eqn:E, (has_responded st) eqn:H; cbn;
      rewrite ?E, ?H; auto.
  - destruct (str_truthy reasoning); [|apply tidy_nil].
    pose proof (stop_spinner_tidy st) as T.
    destruct (stop_spinner st); exact T.
  - destruct (str_truthy name); [|apply tidy_nil].
    unfold tidy.
    destruct (markup _); cbn [fst snd is_error];
      destruct (spinner_active st) eqn:E, (has_responded st) eqn:H; cbn;
      rewrite ?E, ?H; auto.
Qed.

Lemma handle_tool_message_tidy :
  forall tg st name status content,
    of_step tidy st (handle_message' tg st (ToolMessage name status content)).
Proof.
  intros tg st name status content. unfold of_step. cbn [handle_message].
  destruct (is_shell name && negb (status =? "success")%string);
    [|apply tidy_nil].
  destruct (str_truthy (format_tool_message_content content)); [|apply tidy_nil].
  destruct (stop_spinner_off st) as [Hoff _].
  destruct (stop_spinner_fields st) as (Hr & _).
  pose proof (stopped_then_plain st (fst (stop_spinner st))) as T.
  destruct (stop_spinner st) as [st1 ev1]. cbn [fst snd] in *.
  destruct (markup _); cbn [fst snd is_error];
    apply T; auto; unfold plain; plain_list.
Qed.

Lemma handle_interrupt_tidy :
  forall st req, of_step tidy st (handle_interrupt markup user st req).
Proof.
  intros st req. unfold of_step.
  destruct (handle_interrupt_shape markup user st req)
    as (prompts & n & Hp & -> & ->).
  destruct (stop_spinner_off st) as [Hoff _].
  destruct (stop_spinner_fields st) as (Hr & _).
  apply stopped_then_plain; [now apply prompts_plain | exact Hr | exact Hoff].
Qed.

Lemma handle_todos_tidy :
  forall st v, of_step tidy st (handle_todos markup st v).
Proof.
  intros st v. unfold of_step. rewrite handle_todos_eq.
  destruct (todos_of v) as [new|]; [|apply tidy_nil].
  destruct (snapshot_eqb _ _); [apply tidy_nil|].
  cbv zeta. cbn [fst snd].
  destruct (stop_spinner_off (set_current_todos (Some new) st)) as [Hoff _].
  destruct (stop_spinner_fields (set_current_todos (Some new) st)) as (Hr & _).
  apply tidy_same_flags with (st := set_current_todos (Some new) st);
    [reflexivity | reflexivity |].
  apply stopped_then_plain; [|exact Hr | exact Hoff].
  destruct (render_todo_list_cases markup new) as [-> | [-> | (message & ->)]];
    cbn; unfold plain; plain_list.
Qed.

Lemma handle_chunk_tidy :
  forall tg st c,
    tidy st (fst (fst (handle_chunk' tg st c)))
         (Pulled c :: snd (fst (handle_chunk' tg st c)))
         (is_error (snd (handle_chunk' tg st c))).
Proof.
  apply (chain_chunk _ _ _ _ _ _ _ tidy_nil tidy_app).
  - intros st c. apply plain_tidy; [unfold plain; plain_list | reflexivity | reflexivity].
  - intros tg u st st' ev failed T.
    destruct (capture_usage_flags tg u st) as (Hs & Hh & _).
    apply tidy_same_flags with (st := capture_usage tg u st); auto.
  - exact handle_block_tidy.
  - exact handle_tool_message_tidy.
  - exact handle_interrupt_tidy.
  - exact handle_todos_tidy.
Qed.

Lemma process_stream_tidy :
  forall tg items st, of_stream tidy st (process_stream' tg st items).
Proof.
  intros tg. apply (chain_stream _ _ _ _ _ _ _ tidy_nil tidy_app tg).
  apply handle_chunk_tidy.
Qed.

(** ** The whole turn *)

(** What the log of the rest of a turn, from the state [st], says: the
    marker is printed once with the first text, the spinner calls alternate
    and leave the spinner stopped. *)
Definition closed (st : state) (T : turn) : Prop :=
  markers (turn_log T) = (if has_responded st then 0
                          else if nonempty (texts (turn_log T)) then 1 else 0)
  /\ alternates (spinner_active st) (turn_log T) = true
  /\ running_after (spinner_active st) (turn_log T) = false.

Lemma closed_after :
  forall st st1 ev T,
    tidy st st1 ev false -> closed st1 T -> closed st (prepend ev T).
Proof.
  intros st st1 ev T (M1 & H1 & A1 & R1) (M2 & A2 & R2).
  unfold closed. cbn [prepend turn_log].
  rewrite markers_app, texts_app, nonempty_app, alternates_app, running_after_app.
  rewrite M1, M2, H1, A1, R1, A2, R2.
  repeat split; auto.
  destruct (has_responded st), (nonempty (texts ev)),
           (nonempty (texts (turn_log T))); reflexivity.
Qed.

Lemma closed_failed :
  forall tracker st st1 ev e,
    tidy st st1 ev true -> closed st (prepend ev (failed_turn tracker st1 e)).
Proof.
  intros tracker st st1 ev e (M1 & H1 & A1 & R1).
  unfold closed. cbn [prepend failed_turn turn_log].
  rewrite app_nil_r. auto.
Qed.

Lemma finish_turn_closed :
  forall tracker st, closed st (finish_turn tracker st).
Proof.
  intros tracker st. unfold finish_turn, closed.
  destruct (has_responded st) eqn:H; [destruct tracker as [t|]|].
  - destruct (negb _ || negb _); cbn [turn_log]; unfold display_last_events;
      [destruct (TokenTracker.display_last _)|];
      destruct (spinner_active st); cbn; auto.
  - destruct (spinner_active st); cbn; auto.
  - destruct (spinner_active st); cbn; auto.
Qed.

Lemma interrupted_turn_closed :
  forall tracker st, closed st (interrupted_turn tracker st).
Proof.
  intros tracker st. unfold interrupted_turn, closed. cbn [turn_log].
  destruct (spinner_active st), (has_responded st); cbn; auto.
Qed.

Lemma rejected_turn_closed :
  forall tracker st ds,
    closed st (rejected_turn markup invoke tracker st ds).
Proof.
  intros tracker st ds.
  unfold rejected_turn, stop_spinner, interrupted_turn, failed_turn, closed.
  destruct (spinner_active st) eqn:E, (has_responded st), invoke as [|err|]; cbn;
    try destruct (markup _); cbn; rewrite ?E; cbn; auto.
Qed.

Lemma stream_loop_closed :
  forall tracker script st input,
    closed st (stream_loop' tracker script st input).
Proof.
  intro tracker.
  apply (chain_rest _ _ _ _ _ _ _ tidy closed tracker).
  - apply closed_after.
  - apply closed_failed.
  - intros items st. apply process_stream_tidy.
  - intros st input.
    apply plain_tidy; [unfold plain; plain_list | reflexivity | reflexivity].
  - apply finish_turn_closed.
  - apply interrupted_turn_closed.
  - apply rejected_turn_closed.
Qed.

Lemma warnings_plain : forall ws, plain (PrintBlank :: map PrintWarning ws).
Proof.
  intro ws. constructor; [exact I|]. induction ws; cbn; constructor; auto.
Qed.

(** The log of [execute_task], read from a stopped spinner. *)
Lemma execute_task_closed :
  forall user_input script tracker,
    let log := turn_log (execute_task' user_input script tracker) in
    markers log = (if nonempty (texts log) then 1 else 0)
    /\ alternates false log = true
    /\ running_after false log = false.
Proof.
  intros user_input script tracker.
  destruct (execute_task_cases _ json_loads dict_items py_str markup user invoke
              resolve read_text user_input script tracker)
    as [(files & ws & _ & ->) | (e & ws & _ & ->)]; cbv zeta.
  - cbn [prepend turn_log].
    set (input := UserMessages (final_input_of read_text user_input files)).
    pose proof (stream_loop_closed tracker script initial_state input) as (M & A & R).
    set (body := turn_log (stream_loop' tracker script initial_state input)) in *.
    destruct (plain_facts _ (warnings_plain ws)) as (Xw & Mw & Qw).
    change ([PrintBlank] ++ map PrintWarning ws ++ [StatusStart])
      with ((PrintBlank :: map PrintWarning ws) ++ [StatusStart]).
    rewrite <- !app_assoc.
    rewrite !markers_app, !texts_app, !alternates_app, !running_after_app, Xw, Mw.
    destruct (Qw false) as [Aw Rw]. rewrite Aw, Rw.
    cbn [app markers texts flat_map filter length alternates running_after
         fold_left negb andb Nat.add].
    cbn [initial_state has_responded spinner_active] in M, A, R.
    auto.
  - cbn [turn_log]. change ([PrintBlank] ++ map PrintWarning ws)
      with (PrintBlank :: map PrintWarning ws).
    destruct (plain_facts _ (warnings_plain ws)) as (Xw & Mw & Qw).
    destruct (Qw false) as [Aw Rw]. rewrite Xw, Mw, Aw, Rw. auto.
Qed.

(** ** Text fragments *)

(** The texts of the chunks pulled are the texts printed, followed by
    [rest]; nothing is left unless an exception ended the steps. *)
Definition faithful (st st' : state) (ev : list event) (failed : bool) : Prop :=
  exists rest,
    flat_map chunk_texts (pulled_chunks ev) = texts ev ++ rest
    /\ (failed = false -> rest = []).

Lemma faithful_nil : holds_of_nothing faithful.
Proof. intro st. exists []. auto. Qed.

Lemma faithful_app : kept_in_sequence faithful.
Proof.
  intros st st1 st2 ev1 ev2 failed (r1 & E1 & N1) (r2 & E2 & N2).
  exists r2. rewrite pulled_chunks_app, flat_map_app, texts_app, E1, E2.
  rewrite (N1 eq_refl), app_nil_r, app_assoc. auto.
Qed.

Lemma faithful_quiet :
  forall st st' ev failed, quiet ev -> faithful st st' ev failed.
Proof.
  intros st st' ev failed [X P]. exists []. rewrite X, P. auto.
Qed.

Lemma handle_block_texts :
  forall st b, texts (snd (fst (handle_block' st b))) = block_texts b.
Proof.
  intros st b. destruct b as [text|reasoning|[name|] args id|];
    cbn [handle_block block_texts]; try reflexivity.
  - destruct (str_truthy text); [|reflexivity].
    unfold stop_spinner.
    destruct (spinner_active st); cbn; destruct (has_responded st); reflexivity.
  - destruct (str_truthy reasoning); [|reflexivity].
    unfold stop_spinner. destruct (spinner_active st); reflexivity.
  - destruct (str_truthy name); [|reflexivity].
    destruct (markup _); cbn [fst snd];
      destruct (spinner_active st), (has_responded st); reflexivity.
Qed.

Lemma handle_blocks_texts :
  forall blocks st,
    exists rest,
      flat_map block_texts blocks = texts (snd (fst (handle_blocks' st blocks))) ++ rest
      /\ (is_error (snd (handle_blocks' st blocks)) = false -> rest = []).
Proof.
  induction blocks as [|b more IH]; intro st; cbn [handle_blocks flat_map].
  - exists []. auto.
  - pose proof (handle_block_texts st b) as Hb.
    pose proof (handle_block_flow _ json_loads dict_items py_str markup st b) as Hf.
    destruct (handle_block' st b) as [[st1 ev1] f]; cbn [fst snd] in Hb, Hf.
    destruct Hf as [-> | (e & ->)].
    + destruct (IH st1) as (rest & E & N).
      destruct (handle_blocks' st1 more) as [[st2 ev2] f2]; cbn [fst snd] in *.
      exists rest. rewrite texts_app, Hb, E, app_assoc. auto.
    + exists (flat_map block_texts more). cbn [fst snd is_error].
      rewrite Hb. split; [reflexivity | discriminate].
Qed.

Lemma stop_spinner_texts : forall st, texts (snd (stop_spinner st)) = [].
Proof. intro st. unfold stop_spinner. destruct (spinner_active st); reflexivity. Qed.

(** One chunk: the texts printed are texts of the chunk, in order, and all
    of them unless an exception cut the chunk short. *)
Lemma handle_chunk_texts :
  forall tg st c,
    exists rest,
      chunk_texts c = texts (snd (fst (handle_chunk' tg st c))) ++ rest
      /\ (is_error (snd (handle_chunk' tg st c)) = false -> rest = []).
Proof.
  intros tg st c. destruct c as [|[data|]|[m|]|]; cbn [handle_chunk chunk_texts];
    try solve [exists []; auto].
  - exists []. split; [|auto].
    unfold handle_updates. destruct (interrupt_of data) as [req|].
    + destruct (handle_interrupt_shape markup user st req)
        as (prompts & n & Hp & _ & ->).
      rewrite texts_app, stop_spinner_texts.
      destruct (plain_facts _ (prompts_plain _ Hp)) as (X & _). rewrite X. auto.
    + rewrite handle_todos_eq.
      destruct (todos_of (first_value data)) as [new|]; [|auto].
      destruct (snapshot_eqb _ _); [auto|]. cbv zeta. cbn [fst snd].
      rewrite texts_app, stop_spinner_texts.
      destruct (render_todo_list_cases markup new) as [-> | [-> | (message & ->)]];
        auto.
  - destruct m as [name status content|u blocks|]; cbn [handle_message].
    + exists []. split; [|auto].
      destruct (is_shell name && _); [|reflexivity].
      destruct (str_truthy _); [|reflexivity].
      pose proof (stop_spinner_texts st) as X.
      destruct (stop_spinner st) as [st1 ev1]. cbn [snd] in X.
      destruct (markup _); cbn [fst snd]; rewrite texts_app, X; reflexivity.
    + apply handle_blocks_texts.
    + exists []. auto.
Qed.

Lemma handle_chunk_faithful :
  forall tg st c,
    faithful st (fst (fst (handle_chunk' tg st c)))
             (Pulled c :: snd (fst (handle_chunk' tg st c)))
             (is_error (snd (handle_chunk' tg st c))).
Proof.
  intros tg st c. destruct (handle_chunk_texts tg st c) as (rest & E & N).
  destruct (handle_chunk_frame _ json_loads dict_items py_str markup user tg st c)
    as (_ & _ & _ & _ & P).
  exists rest. cbn [pulled_chunks flat_map texts app].
  fold (pulled_chunks (snd (fst (handle_chunk' tg st c)))).
  fold (texts (snd (fst (handle_chunk' tg st c)))).
  rewrite P. cbn [flat_map app]. rewrite app_nil_r. auto.
Qed.

Lemma finish_turn_quiet :
  forall tracker st, quiet (turn_log (finish_turn tracker st)).
Proof.
  intros tracker st. unfold finish_turn, quiet.
  destruct (has_responded st); [destruct tracker as [t|]|].
  - destruct (negb _ || negb _); cbn [turn_log]; unfold display_last_events;
      [destruct (TokenTracker.display_last _)|];
      destruct (spinner_active st); cbn; auto.
  - destruct (spinner_active st); cbn; auto.
  - destruct (spinner_active st); cbn; auto.
Qed.

Lemma rejected_turn_quiet :
  forall tracker st ds, quiet (turn_log (rejected_turn markup invoke tracker st ds)).
Proof.
  intros tracker st ds.
  unfold rejected_turn, stop_spinner, interrupted_turn, failed_turn, quiet.
  destruct (spinner_active st) eqn:E, invoke as [|err|]; cbn;
    try destruct (markup _); cbn; rewrite ?E; cbn; auto.
Qed.

Lemma stream_loop_faithful :
  forall tracker script st input,
    of_turn faithful st (stream_loop' tracker script st input).
Proof.
  intro tracker.
  apply (chain_loop _ _ _ _ _ _ _ _ faithful_nil faithful_app tracker).
  - intros items st.
    apply (chain_stream _ _ _ _ _ _ _ faithful_nil faithful_app).
    apply handle_chunk_faithful.
  - intros st input. apply faithful_quiet. split; reflexivity.
  - intro st. apply faithful_quiet. apply finish_turn_quiet.
  - intro st. apply faithful_quiet. unfold interrupted_turn, quiet. cbn.
    destruct (spinner_active st); auto.
  - intros st ds. apply faithful_quiet. apply rejected_turn_quiet.
Qed.

(** The texts printed in a turn are a prefix of the texts pulled, and all
    of them unless an exception ends the turn. *)
Lemma execute_task_faithful :
  forall (user_input : string) (script : list (list pulled))
         (tracker : option TokenTracker.t),
    let T := execute_task' user_input script tracker in
    exists missing,
      flat_map chunk_texts (pulled_chunks (turn_log T))
      = texts (turn_log T) ++ missing
      /\ (is_failure (turn_outcome T) = false -> missing = []).
Proof.
  intros user_input script tracker.
  destruct (execute_task_cases _ json_loads dict_items py_str markup user invoke
              resolve read_text user_input script tracker)
    as [(files & ws & _ & ->) | (e & ws & _ & ->)]; cbv zeta.
  - destruct (stream_loop_faithful tracker script initial_state
                (UserMessages (final_input_of read_text user_input files)))
      as (rest & E & N).
    exists rest. cbn [prepend turn_log turn_outcome].
    destruct (warnings_quiet ws [StatusStart]) as [X P]; [split; reflexivity|].
    rewrite pulled_chunks_app, texts_app, X, P. cbn [app flat_map]. auto.
  - exists []. cbn [turn_log turn_outcome].
    destruct (warnings_quiet ws []) as [X P]; [split; reflexivity|].
    rewrite app_nil_r in X, P. rewrite X, P. auto.
Qed.

(** X1. In every turn the text fragments printed are the non-empty text
    fragments of the chunks pulled from the agent, in the order of arrival,
    each printed once, also across interrupts and resumptions: none is
    repeated or reordered, and none is dropped unless an exception ends the
    turn; the fragments [missing] were then pulled and not printed. *)
Theorem texts_printed_are_texts_pulled :
  forall (user_input : string) (script : list (list pulled))
         (tracker : option TokenTracker.t),
    let T := execute_task' user_input script tracker in
    exists missing,
      flat_map chunk_texts (pulled_chunks (turn_log T))
      = texts (turn_log T) ++ missing
      /\ (is_failure (turn_outcome T) = false -> missing = []).
Proof.
  intros user_input script tracker.
  apply (execute_task_faithful user_input script tracker).
Qed.


(** ** Calls to the agent *)

Definition no_call (e : event) : Prop :=
  match e with
  | AgentStream _ | AgentInvoke _ => False
  | _ => True
  end.

Lemma no_call_calls : forall ev, Forall no_call ev -> agent_calls ev = [].
Proof.
  induction 1 as [|e ev He _ IH]; [reflexivity|].
  destruct e; try contradiction; cbn; exact IH.
Qed.

Ltac no_call_list := repeat first [ apply Forall_nil | apply Forall_cons; [exact I|] ].

(** Steps that do not call the agent. *)
Definition silent (st st' : state) (ev : list event) (failed : bool) : Prop :=
  Forall no_call ev.

Lemma silent_nil : holds_of_nothing silent.
Proof. intro st. constructor. Qed.

Lemma silent_app : kept_in_sequence silent.
Proof. intros st st1 st2 ev1 ev2 failed H1 H2. apply Forall_app. auto. Qed.

Lemma stop_spinner_no_call : forall st, Forall no_call (snd (stop_spinner st)).
Proof. intro st. unfold stop_spinner. destruct (spinner_active st); cbn; no_call_list. Qed.

Lemma prompts_no_call : forall ev, Forall is_prompt ev -> Forall no_call ev.
Proof.
  induction 1 as [|e ev He _ IH]; constructor; [|exact IH].
  destruct e; try contradiction. exact I.
Qed.

Lemma handle_chunk_no_call :
  forall tg st c,
    silent st (fst (fst (handle_chunk' tg st c)))
           (Pulled c :: snd (fst (handle_chunk' tg st c)))
           (is_error (snd (handle_chunk' tg st c))).
Proof.
  apply (chain_chunk _ _ _ _ _ _ _ silent_nil silent_app).
  - intros st c. unfold silent. no_call_list.
  - intros tg u st st' ev failed H. exact H.
  - intros st b. unfold of_step, silent.
    destruct b as [text|reasoning|[name|] args id|]; cbn [handle_block];
      try constructor.
    + destruct (str_truthy text); [|constructor].
      unfold stop_spinner.
      destruct (spinner_active st); cbn; destruct (has_responded st); cbn;
        no_call_list.
    + destruct (str_truthy reasoning); [|constructor].
      pose proof (stop_spinner_no_call st) as H.
      destruct (stop_spinner st); exact H.
    + destruct (str_truthy name); [|constructor].
      destruct (markup _); cbn [fst snd];
        destruct (spinner_active st), (has_responded st); cbn; no_call_list.
  - intros tg st name status content. unfold of_step, silent. cbn [handle_message].
    destruct (is_shell name && _); [|constructor].
    destruct (str_truthy _); [|constructor].
    unfold stop_spinner.
    destruct (spinner_active st), (markup _); cbn; no_call_list.
  - intros st req. unfold of_step, silent.
    destruct (handle_interrupt_shape markup user st req)
      as (prompts & n & Hp & _ & ->).
    apply Forall_app. split; [apply stop_spinner_no_call | now apply prompts_no_call].
  - intros st v. unfold of_step, silent. rewrite handle_todos_eq.
    destruct (todos_of v) as [new|]; [|constructor].
    destruct (snapshot_eqb _ _); [constructor|]. cbv zeta. cbn [fst snd].
    apply Forall_app. split; [apply stop_spinner_no_call|].
    destruct (render_todo_list_cases markup new) as [-> | [-> | (message & ->)]];
      cbn; no_call_list.
Qed.

Lemma process_stream_no_call :
  forall tg items st, Forall no_call (snd (fst (process_stream' tg st items))).
Proof.
  intros tg items st.
  apply (chain_stream _ _ _ _ _ _ _ silent_nil silent_app tg
           (handle_chunk_no_call tg) items st).
Qed.

Lemma finish_turn_facts :
  forall tracker st,
    turn_outcome (finish_turn tracker st) = Completed
    /\ Forall no_call (turn_log (finish_turn tracker st)).
Proof.
  intros tracker st. unfold finish_turn.
  destruct (has_responded st); [destruct tracker as [t|]|].
  - destruct (negb _ || negb _); cbn [turn_log turn_outcome];
      unfold display_last_events; [destruct (TokenTracker.display_last _)|];
      destruct (spinner_active st); cbn; repeat split; no_call_list.
  - destruct (spinner_active st); cbn; repeat split; no_call_list.
  - destruct (spinner_active st); cbn; repeat split; no_call_list.
Qed.

Lemma warnings_no_call :
  forall ws tail,
    Forall no_call tail ->
    Forall no_call ([PrintBlank] ++ map PrintWarning ws ++ tail).
Proof.
  intros ws tail H. cbn [app]. constructor; [exact I|].
  apply Forall_app. split; [|exact H].
  induction ws; cbn; constructor; auto; exact I.
Qed.

Lemma calls_after :
  forall ev log, Forall no_call ev -> agent_calls (ev ++ log) = agent_calls log.
Proof.
  intros ev log H. unfold agent_calls. rewrite filter_app.
  fold (agent_calls ev). now rewrite (no_call_calls _ H).
Qed.




(** X3. The marker that announces the answer of the agent is printed
    exactly once in a turn that prints a text fragment, and never in a turn
    that prints none. *)
Theorem agent_marker_printed_once :
  forall (user_input : string) (script : list (list pulled))
         (tracker : option TokenTracker.t),
    let log := turn_log (execute_task' user_input script tracker) in
    markers log = if nonempty (texts log) then 1 else 0.
Proof.
  intros user_input script tracker.
  apply (execute_task_closed user_input script tracker).
Qed.


(** The console takes the panel of a request. *)
Definition panel_accepted (request : action_request) : bool :=
  match markup (approval_text request) with
  | Printed _ => true
  | MarkupFails _ => false
  end.

(** X5. When the console takes the panel of every request and no prompt
    is left by Ctrl+C, an interrupt with N action requests shows N
    prompts, one per request and in their order, and collects N decisions,
    the [i]-th being the answer to the [i]-th prompt. *)
Theorem one_decision_per_request :
  forall (requests : list action_request) (n : nat),
    forallb panel_accepted requests = true ->
    (forall i, i < length requests -> user (n + i) <> PressCtrlC) ->
    exists decisions,
      collect_decisions markup user n requests
      = (Decisions decisions, map Prompt requests, n + length requests)
      /\ length decisions = length requests
      /\ map Decided decisions
         = map (fun i => decision_of (user (n + i))) (seq 0 (length requests)).
Proof.
  induction requests as [|r rest IH]; intros n Hok Hno.
  - exists []. cbn. rewrite Nat.add_0_r. auto.
  - cbn in Hok. apply andb_true_iff in Hok. destruct Hok as [Hr Hrest].
    assert (H0 : user n <> PressCtrlC)
      by (rewrite <- (Nat.add_0_r n); apply Hno; cbn; lia).
    destruct (IH (S n) Hrest) as (ds & Hc & Hl & Hm).
    { intros i Hi. replace (S n + i) with (n + S i) by lia. apply Hno. cbn. lia. }
    cbn [collect_decisions]. unfold prompt_for_shell_approval.
    unfold panel_accepted in Hr.
    destruct (markup (approval_text r)) as [shown|message]; [|discriminate].
    destruct (decision_of (user n)) as [d| |e] eqn:Hd;
      [| destruct (user n); try discriminate; contradiction
       | destruct (user n); discriminate].
    exists (d :: ds). rewrite Hc. cbn [map length seq].
    split; [f_equal; lia|]. split; [now rewrite Hl|].
    rewrite Nat.add_0_r, Hd, Hm. f_equal.
    rewrite <- seq_shift, map_map. apply map_ext. intro i. f_equal. f_equal. lia.
Qed.

(** The calls after the first one of a turn: [agent.stream] with a
    resumption payload, any number of times, then at most one
    [agent.invoke] with a resumption payload, which is then the last. *)
Fixpoint resumes (calls : list event) : bool :=
  match calls with
  | [] => true
  | AgentStream (Resume _) :: rest => resumes rest
  | AgentInvoke (Resume _) :: rest => match rest with [] => true | _ => false end
  | _ => false
  end.

Lemma rejected_turn_calls :
  forall tracker st ds,
    agent_calls (turn_log (rejected_turn markup invoke tracker st ds))
    = [AgentInvoke (Resume ds)].
Proof.
  intros tracker st ds.
  unfold rejected_turn, stop_spinner, interrupted_turn, failed_turn.
  destruct (spinner_active st) eqn:E; destruct invoke as [|err|]; cbn;
    try destruct (markup _); cbn; rewrite ?E; reflexivity.
Qed.

Lemma stream_loop_calls :
  forall tracker script st input,
    exists rest,
      agent_calls (turn_log (stream_loop' tracker script st input))
      = AgentStream input :: rest
      /\ resumes rest = true.
Proof.
  intro tracker. induction script as [|items more IH]; intros st input;
    cbn [stream_loop].
  - exists []. destruct (finish_turn_facts tracker st) as (_ & F).
    cbn [prepend turn_log app]. cbn [agent_calls filter].
    fold (agent_calls (turn_log (finish_turn tracker st))).
    now rewrite (no_call_calls _ F).
  - pose proof (process_stream_no_call (tracker_given tracker) items st) as A.
    destruct (process_stream' (tracker_given tracker) st items)
      as [[st1 ev] [|ds| |e]]; cbn [fst snd] in A.
    + exists []. destruct (finish_turn_facts tracker st1) as (_ & F).
      cbn [prepend turn_log app]. cbn [agent_calls filter].
      fold (agent_calls (ev ++ turn_log (finish_turn tracker st1))).
      now rewrite (calls_after _ _ A), (no_call_calls _ F).
    + destruct (existsb is_reject ds); cbn [prepend turn_log app];
        cbn [agent_calls filter].
      * exists [AgentInvoke (Resume ds)].
        fold (agent_calls (ev ++ turn_log (rejected_turn markup invoke tracker st1 ds))).
        rewrite (calls_after _ _ A), rejected_turn_calls. split; reflexivity.
      * destruct (IH st1 (Resume ds)) as (rest & Hc & Hr).
        exists (AgentStream (Resume ds) :: rest).
        fold (agent_calls (ev ++ turn_log (stream_loop' tracker more st1 (Resume ds)))).
        rewrite (calls_after _ _ A), Hc. split; [reflexivity | exact Hr].
    + exists [].
      cbn [prepend turn_log app]. cbn [agent_calls filter].
      fold (agent_calls (ev ++ turn_log (interrupted_turn tracker st1))).
      rewrite (calls_after _ _ A).
      unfold interrupted_turn. destruct (spinner_active st1); split; reflexivity.
    + exists [].
      cbn [prepend turn_log app failed_turn]. cbn [agent_calls filter].
      fold (agent_calls (ev ++ [])).
      rewrite (calls_after _ _ A). split; reflexivity.
Qed.

(** X6. When [parse_file_mentions] returns, which it does exactly when the
    loop over the mentions passes each of them, the first call to the agent
    in a turn is [agent.stream] with the user's message, expanded with the
    files mentioned; every later call carries a resumption payload, and
    [agent.invoke] is called at most once, as the last call of the turn.
    When [parse_file_mentions] raises, the agent is not called at all. *)
Theorem agent_called_with_message_then_resumed :
  forall (user_input : string) (script : list (list pulled))
         (tracker : option TokenTracker.t),
    let T := execute_task' user_input script tracker in
    (forallb (passes markup resolve) (find_mentions user_input) = true ->
     exists rest,
       agent_calls (turn_log T)
       = AgentStream
           (UserMessages
              (final_input_of read_text user_input
                 (flat_map (resolved_file resolve) (find_mentions user_input))))
         :: rest
       /\ resumes rest = true)
    /\ (forallb (passes markup resolve) (find_mentions user_input) = false ->
        agent_calls (turn_log T) = []
        /\ exists e, turn_outcome T = Error e).
Proof.
  intros user_input script tracker T. subst T. unfold execute_task. split.
  - intro Hp. rewrite (parse_file_mentions_returns markup resolve user_input Hp).
    cbn [prepend turn_log].
    rewrite (calls_after _ _ (warnings_no_call _ [StatusStart]
                                (Forall_cons StatusStart I (Forall_nil _)))).
    apply stream_loop_calls.
  - intro Hp.
    destruct (parse_file_mentions_raises markup resolve user_input Hp)
      as (e & ws & ->).
    cbn [turn_log turn_outcome]. split; [|now exists e].
    rewrite <- (app_nil_r (map PrintWarning ws)).
    apply no_call_calls. apply warnings_no_call. constructor.
Qed.

(** ** The token tracker after a turn *)

Definition is_completed (o : outcome) : bool :=
  match o with
  | Completed => true
  | _ => false
  end.

Definition nonzero (z : Z) : bool := negb (Z.eqb z 0).

(** What the tracker is after a turn [T] that was given [tracker]. *)
Definition tracker_after (tracker : option TokenTracker.t) (T : turn)
  : option TokenTracker.t :=
  match tracker with
  | Some t =>
      if is_completed (turn_outcome T) && has_responded (turn_state T)
         && (nonzero (captured_input_tokens (turn_state T))
             || nonzero (captured_output_tokens (turn_state T)))
      then Some (TokenTracker.add (captured_input_tokens (turn_state T))
                                  (captured_output_tokens (turn_state T)) t)
      else Some t
  | None => None
  end.

Lemma tracker_after_other :
  forall tracker (T : turn),
    turn_outcome T <> Completed -> turn_tracker T = tracker ->
    turn_tracker T = tracker_after tracker T.
Proof.
  intros tracker T Ho Ht. unfold tracker_after. rewrite Ht.
  destruct tracker as [t|]; [|reflexivity].
  destruct (turn_outcome T); try reflexivity. contradiction.
Qed.

Lemma stream_loop_tracker_exact :
  forall tracker script st input,
    let T := stream_loop' tracker script st input in
    turn_tracker T = tracker_after tracker T.
Proof.
  intro tracker.
  assert (Hfinish : forall st,
             turn_tracker (finish_turn tracker st)
             = tracker_after tracker (finish_turn tracker st)).
  { intro st. unfold finish_turn, tracker_after, nonzero.
    destruct (has_responded st) eqn:E; destruct tracker as [t|]; cbn;
      rewrite ?E; try reflexivity.
    destruct (negb _ || negb _) eqn:N; cbn; rewrite E, ?N; reflexivity. }
  induction script as [|items rest IH]; intros st input; cbn [stream_loop].
  - apply Hfinish.
  - destruct (process_stream' (tracker_given tracker) st items)
      as [[st1 ev] [|ds| |e]].
    + apply Hfinish.
    + destruct (existsb is_reject ds).
      * destruct (rejected_turn_facts markup invoke tracker st1 ds) as [Ht Ho].
        apply tracker_after_other; assumption.
      * apply IH.
    + apply tracker_after_other; cbn; congruence.
    + apply tracker_after_other; cbn; congruence.
Qed.

(** X7. The token tracker is updated by a turn exactly when the turn
    completes, has printed a text fragment and has captured a usage count
    that is not zero; [add] is then called once with the captured counts.
    In every other case, and on every rejected or interrupted turn, the
    tracker is left as it was. *)
Theorem tracker_updated_exactly_when :
  forall (user_input : string) (script : list (list pulled)) (t : TokenTracker.t),
    let T := execute_task' user_input script (Some t) in
    let i := captured_input_tokens (turn_state T) in
    let o := captured_output_tokens (turn_state T) in
    turn_tracker T
    = if is_completed (turn_outcome T) && nonempty (texts (turn_log T))
         && (nonzero i || nonzero o)
      then Some (TokenTracker.add i o t)
      else Some t.
Proof.
  intros user_input script t T i o.
  destruct (execute_task_frame pyobj json_loads dict_items py_str markup user invoke
              resolve read_text user_input script (Some t)) as (_ & H & _).
  fold T in H. cbn [initial_state has_responded orb] in H.
  subst i o. rewrite <- H. subst T.
  destruct (execute_task_cases _ json_loads dict_items py_str markup user invoke
              resolve read_text user_input script (Some t))
    as [(files & ws & _ & ->) | (e & ws & _ & ->)].
  - cbn [prepend turn_tracker turn_outcome turn_state].
    apply (stream_loop_tracker_exact (Some t)).
  - reflexivity.
Qed.

(** ** Chunks the engine does not understand *)

(** A chunk of an unexpected shape: not a 3-tuple, updates that are not a
    dictionary, a messages item that is not a pair, another stream mode, or
    a message without content blocks that is not a tool message. *)
Definition unrecognised (p : pulled) : bool :=
  match p with
  | Yield Malformed | Yield (Updates None) | Yield (Messages None)
  | Yield OtherMode | Yield (Messages (Some OtherMessage)) => true
  | _ => false
  end.

(** The log without the record of the chunks pulled: what the engine does. *)
Definition actions (log : list event) : list event :=
  filter (fun e => match e with Pulled _ => false | _ => true end) log.

(** X8. Chunks of an unexpected shape are skipped: a stream gives the
    same actions, the same local state and the same way of ending as the
    stream without these chunks. *)
Theorem unrecognised_chunks_are_skipped :
  forall (tg : bool) (items : list pulled) (st : state),
    let r := process_stream' tg st items in
    let r' := process_stream' tg st (filter (fun p => negb (unrecognised p)) items) in
    fst (fst r) = fst (fst r')
    /\ snd r = snd r'
    /\ actions (snd (fst r)) = actions (snd (fst r')).
Proof.
  intros tg. induction items as [|p rest IH]; intro st; [cbn; auto|].
  assert (Hskip : unrecognised p = true ->
                  exists c, p = Yield c
                            /\ handle_chunk' tg st c = (st, [], Continue)).
  { intro H. destruct p as [[|[data|]|[[name status content|u blocks|]|]|]|];
      try discriminate; eexists; split; reflexivity. }
  destruct (unrecognised p) eqn:U.
  - destruct (Hskip eq_refl) as (c & -> & Hc).
    cbn [filter]. rewrite U. cbn [negb].
    cbn [process_stream]. rewrite Hc.
    specialize (IH st). cbv zeta in IH.
    destruct (process_stream' tg st rest) as [[st2 ev2] e].
    destruct (process_stream' tg st (filter (fun p => negb (unrecognised p)) rest))
      as [[st2' ev2'] e'].
    cbn [fst snd app actions filter] in *. exact IH.
  - cbn [filter]. rewrite U. cbn [negb].
    destruct p as [c|]; [|cbn; auto].
    cbn [process_stream].
    destruct (handle_chunk' tg st c) as [[st1 ev1] [|ds| |e]]; try (cbn; auto; fail).
    specialize (IH st1). cbv zeta in IH.
    destruct (process_stream' tg st1 rest) as [[st2 ev2] e].
    destruct (process_stream' tg st1 (filter (fun p => negb (unrecognised p)) rest))
      as [[st2' ev2'] e'].
    cbn [fst snd] in *. destruct IH as (H1 & H2 & H3).
    repeat split; auto.
    unfold actions in *. cbn [filter]. now rewrite !filter_app, H3.
Qed.

End TurnFacts.

(* ================================================================== *)
(** * Further properties of the helpers *)

Lemma str_take_append :
  forall s t, str_take (String.length s) (s +++ t) = s.
Proof.
  induction s as [|c s IH]; intro t; cbn; [now destruct t|]. now rewrite IH.
Qed.

(** X9. [truncate_value] returns a text of at most [max_length + 3]
    characters that starts with the first [max_length] characters of the
    value.  Its length is [max_length + 3] as soon as the value is longer
    than [max_length]; so a value of [max_length + 1] or [max_length + 2]
    characters comes out longer than it went in. *)
Theorem truncate_value_length :
  forall (value : string) (max_length : nat),
    String.length (truncate_value value max_length)
    = (if Nat.ltb max_length (String.length value)
       then max_length + 3 else String.length value)
    /\ String.length (truncate_value value max_length) <= max_length + 3
    /\ str_take max_length (truncate_value value max_length)
       = str_take max_length value.
Proof.
  intros value max_length. unfold truncate_value.
  destruct (Nat.ltb max_length (String.length value)) eqn:E.
  - apply Nat.ltb_lt in E.
    assert (L : String.length (str_take max_length value) = max_length)
      by (rewrite str_take_length; lia).
    rewrite append_length, L. cbn. repeat split; try lia.
    rewrite <- L at 1. apply str_take_append.
  - apply Nat.ltb_ge in E. repeat split; try lia.
Qed.

(** [add] after [add], for a list of calls. *)
Definition add_all (calls : list (Z * Z)) (t : TokenTracker.t) : TokenTracker.t :=
  fold_left (fun acc c => TokenTracker.add (fst c) (snd c) acc) calls t.

Definition sum (l : list Z) : Z := fold_right Z.add 0%Z l.

Lemma last_default :
  forall (A : Type) (l : list A) (d d' : A), l <> [] -> last l d = last l d'.
Proof.
  induction l as [|a l IH]; intros d d' H; [contradiction|].
  destruct l as [|b l]; [reflexivity|].
  change (last (a :: b :: l) d) with (last (b :: l) d).
  change (last (a :: b :: l) d') with (last (b :: l) d').
  apply IH. discriminate.
Qed.

(** X10. After any sequence of calls of [TokenTracker.add], the session
    totals are the totals before plus the sums of the arguments, and
    [last_input] and [last_output] are the arguments of the last call (they
    are unchanged when there was no call). *)
Theorem add_all_totals :
  forall (calls : list (Z * Z)) (t : TokenTracker.t),
    TokenTracker.session_input (add_all calls t)
    = (TokenTracker.session_input t + sum (map fst calls))%Z
    /\ TokenTracker.session_output (add_all calls t)
       = (TokenTracker.session_output t + sum (map snd calls))%Z
    /\ TokenTracker.last_input (add_all calls t)
       = fst (last calls (TokenTracker.last_input t, TokenTracker.last_output t))
    /\ TokenTracker.last_output (add_all calls t)
       = snd (last calls (TokenTracker.last_input t, TokenTracker.last_output t)).
Proof.
  induction calls as [|[i o] rest IH]; intro t.
  - cbn. repeat split; lia.
  - change (add_all ((i, o) :: rest) t) with (add_all rest (TokenTracker.add i o t)).
    destruct (IH (TokenTracker.add i o t)) as (H1 & H2 & H3 & H4).
    rewrite H1, H2, H3, H4.
    cbn [TokenTracker.add TokenTracker.session_input TokenTracker.session_output
         TokenTracker.last_input TokenTracker.last_output map fst snd].
    change (sum (i :: map fst rest)) with (i + sum (map fst rest))%Z.
    change (sum (o :: map snd rest)) with (o + sum (map snd rest))%Z.
    repeat split; try lia.
    + destruct rest as [|c rest']; [reflexivity|].
      now rewrite (last_default _ (c :: rest') (i, o)
                     (TokenTracker.last_input t, TokenTracker.last_output t))
        by discriminate.
    + destruct rest as [|c rest']; [reflexivity|].
      now rewrite (last_default _ (c :: rest') (i, o)
                     (TokenTracker.last_input t, TokenTracker.last_output t))
        by discriminate.
Qed.

(** ** Mentions *)

(** The number of [@] in a text. *)
Fixpoint count_at (s : string) : nat :=
  match s with
  | EmptyString => 0
  | String c rest => (if Ascii.eqb c at_sign then 1 else 0) + count_at rest
  end.

(** A text matches [(?:[^\s@]|(?<=\\)\s)*] after the character [prev]. *)
Fixpoint mention_body (prev : ascii) (s : string) : bool :=
  match s with
  | EmptyString => true
  | String c rest => mention_char prev c && mention_body c rest
  end.

(** The last character of [s], or [prev] for the empty text. *)
Fixpoint last_char (prev : ascii) (s : string) : ascii :=
  match s with
  | EmptyString => prev
  | String c rest => last_char c rest
  end.

Lemma mention_body_snoc :
  forall s prev c,
    mention_body prev (s +++ String c EmptyString)
    = mention_body prev s && mention_char (last_char prev s) c.
Proof.
  induction s as [|d s IH]; intros prev c; cbn.
  - now rewrite andb_true_r.
  - now rewrite IH, andb_assoc.
Qed.

Lemma last_char_snoc :
  forall s prev c, last_char prev (s +++ String c EmptyString) = c.
Proof. induction s as [|d s IH]; intros prev c; cbn; auto. Qed.

Lemma scan_mentions_sound :
  forall s cur prev m,
    match cur with
    | Some acc => mention_body at_sign acc = true /\ prev = last_char at_sign acc
    | None => True
    end ->
    In m (scan_mentions cur prev s) ->
    m <> EmptyString /\ mention_body at_sign m = true.
Proof.
  assert (Hflush : forall cur m,
             match cur with
             | Some acc => mention_body at_sign acc = true
             | None => True
             end ->
             In m (flush cur) -> m <> EmptyString /\ mention_body at_sign m = true).
  { intros [[|c acc]|] m H Hin; cbn in Hin; try contradiction.
    destruct Hin as [<-|[]]. split; [discriminate | exact H]. }
  assert (Hopen : forall c,
             match open_at c with
             | Some acc => mention_body at_sign acc = true /\ c = last_char at_sign acc
             | None => True
             end).
  { intro c. unfold open_at. destruct (Ascii.eqb_spec c at_sign) as [->|_]; cbn; auto. }
  induction s as [|c s IH]; intros cur prev m Hinv Hin; cbn in Hin.
  - apply (Hflush cur m); [destruct cur; tauto | exact Hin].
  - destruct cur as [acc|].
    + destruct Hinv as [Hb Hp].
      destruct (mention_char prev c) eqn:Hc.
      * refine (IH _ _ _ _ Hin). split.
        -- rewrite mention_body_snoc, Hb, <- Hp, Hc. reflexivity.
        -- now rewrite last_char_snoc.
      * apply in_app_or in Hin. destruct Hin as [Hin|Hin].
        -- apply (Hflush (Some acc) m Hb Hin).
        -- apply (IH _ _ _ (Hopen c) Hin).
    + apply (IH _ _ _ (Hopen c) Hin).
Qed.

Lemma mention_char_not_at :
  forall prev c, mention_char prev c = true -> Ascii.eqb c at_sign = false.
Proof.
  intros prev c H. unfold mention_char in H.
  destruct (Ascii.eqb_spec c at_sign) as [E|_]; [|reflexivity].
  rewrite E in H. cbn in H. discriminate.
Qed.

Lemma mention_body_no_at :
  forall s prev, mention_body prev s = true -> count_at s = 0.
Proof.
  induction s as [|c s IH]; intros prev H; [reflexivity|].
  cbn in H. apply andb_true_iff in H. destruct H as [Hc Hs].
  cbn [count_at]. rewrite (mention_char_not_at _ _ Hc), (IH _ Hs). reflexivity.
Qed.

(** X11. Every mention found in a text is a non-empty run of characters
    that holds no [@], and in which a white-space character occurs only
    right after a backslash ([mention_body]: each character is accepted by
    the group of the pattern after the one before it). *)
Theorem mentions_are_well_formed :
  forall (text m : string),
    In m (find_mentions text) ->
    m <> EmptyString /\ count_at m = 0 /\ mention_body at_sign m = true.
Proof.
  intros text m Hin. unfold find_mentions in Hin.
  destruct (scan_mentions_sound text None space m I Hin) as [H1 H2].
  repeat split; auto. now apply mention_body_no_at with (prev := at_sign).
Qed.

Lemma scan_mentions_count :
  forall s cur prev,
    length (scan_mentions cur prev s)
    <= count_at s + match cur with Some _ => 1 | None => 0 end.
Proof.
  induction s as [|c s IH]; intros cur prev; cbn [scan_mentions count_at].
  - destruct cur as [[|d acc]|]; cbn; lia.
  - destruct cur as [acc|].
    + destruct (mention_char prev c) eqn:Hc.
      * rewrite (mention_char_not_at _ _ Hc).
        specialize (IH (Some (acc +++ String c EmptyString)) c). cbn in *. lia.
      * rewrite length_app. specialize (IH (open_at c) c).
        assert (length (flush (Some acc)) <= 1) by (destruct acc; cbn; lia).
        unfold open_at in *. destruct (Ascii.eqb c at_sign); lia.
    + specialize (IH (open_at c) c).
      unfold open_at in *. destruct (Ascii.eqb c at_sign); lia.
Qed.

(** X12. [parse_file_mentions] returns exactly when its loop passes every
    mention of the text: each path can be expanded and each warning is
    taken by the console.  When it returns, each mention has given exactly
    one resolved file or one warning, so the files and the warnings
    together are as many as the mentions; otherwise an exception leaves it.
    There are at most as many mentions as [@] signs in the text: a text
    without [@] gives no file and no warning. *)
Theorem one_file_or_warning_per_mention :
  forall (markup : text -> print_result) (resolve : string -> resolution)
         (text : string),
    let mentions := find_mentions text in
    length mentions <= count_at text
    /\ (forallb (passes markup resolve) mentions = true ->
        exists files warnings,
          parse_file_mentions markup resolve text = (Returns text files, warnings)
          /\ length files + length warnings = length mentions)
    /\ (forallb (passes markup resolve) mentions = false ->
        exists e warnings,
          parse_file_mentions markup resolve text = (ParseRaises e, warnings)).
Proof.
  intros markup resolve text mentions. split; [|split].
  - pose proof (scan_mentions_count text None space) as H.
    unfold mentions, find_mentions. rewrite Nat.add_0_r in H. exact H.
  - intro Hp. rewrite (parse_file_mentions_returns markup resolve text Hp).
    eexists. eexists. split; [reflexivity|]. fold mentions.
    induction mentions as [|m ms IH]; [reflexivity|].
    cbn [forallb] in Hp. apply andb_true_iff in Hp. destruct Hp as [Hm Hms].
    cbn [flat_map]. rewrite !length_app.
    assert (H : length (resolved_file resolve m) + length (warning_of resolve m) = 1)
      by (unfold passes, resolved_file, warning_of in *;
          destruct (resolve (unescape_spaces m)); try reflexivity; discriminate).
    specialize (IH Hms). cbn [length]. lia.
  - intro Hp. apply (parse_file_mentions_raises markup resolve text Hp).
Qed.

(* ================================================================== *)
(** * The approval menu: the key loop of [prompt_for_shell_approval] *)

Definition key_esc : ascii := "027"%char.
Definition key_cr : ascii := "013"%char.
Definition key_lf : ascii := "010"%char.
Definition key_ctrl_c : ascii := "003"%char.

(** [str.lower()] on one character (code points below 256): the letters
    [A]-[Z] and the upper-case letters of Latin-1. *)
Definition ascii_lower (c : ascii) : ascii :=
  let n := nat_of_ascii c in
  if (Nat.leb 65 n && Nat.leb n 90)
     || (Nat.leb 192 n && Nat.leb n 214)
     || (Nat.leb 216 n && Nat.leb n 222)
  then ascii_of_nat (n + 32)
  else c.

(** The selection after an arrow key [ESC [ next2]; [len(options)] is 2. *)
Definition arrow (next2 : ascii) (selected : Z) : Z :=
  if Ascii.eqb next2 "C"%char then ((selected + 1) mod 2)%Z
  else if Ascii.eqb next2 "D"%char then ((selected - 1) mod 2)%Z
  else if Ascii.eqb next2 "B"%char then ((selected + 1) mod 2)%Z
  else if Ascii.eqb next2 "A"%char then ((selected - 1) mod 2)%Z
  else selected.

(** How the key loop ends: with a selection, by [KeyboardInterrupt], or
    never, when the input gives no more characters ([read(1)] then
    returns the empty string, which no branch of the loop handles). *)
Inductive menu_end : Type :=
  | MenuConfirmed (selected : Z)
  | MenuCtrlC
  | MenuStarved.

(** [while True] of the raw-mode menu, from the selection [selected], on
    the characters [keys] that [sys.stdin] gives: how it ends, the option
    highlighted each time the menu is drawn, and the characters not read. *)
Fixpoint menu_loop (selected : Z) (keys : list ascii)
  : menu_end * list Z * list ascii :=
  match keys with
  | [] => (MenuStarved, [selected], [])
  | char :: rest =>
      if Ascii.eqb char key_esc then
        match rest with
        | next1 :: next2 :: rest' =>
            let selected' :=
              if Ascii.eqb next1 "["%char then arrow next2 selected else selected in
            match menu_loop selected' rest' with
            | (e, frames, unread) => (e, selected :: frames, unread)
            end
        | _ => (MenuStarved, [selected], [])
        end
      else if Ascii.eqb char key_cr || Ascii.eqb char key_lf then
        (MenuConfirmed selected, [selected], rest)
      else if Ascii.eqb char key_ctrl_c then
        (MenuCtrlC, [selected], rest)
      else if Ascii.eqb (ascii_lower char) "a"%char then
        (MenuConfirmed 0, [selected], rest)
      else if Ascii.eqb (ascii_lower char) "r"%char then
        (MenuConfirmed 1, [selected], rest)
      else
        match menu_loop selected rest with
        | (e, frames, unread) => (e, selected :: frames, unread)
        end
  end.

(** The menu starts on [approve]. *)
Definition approval_menu (keys : list ascii) : menu_end * list Z * list ascii :=
  menu_loop 0 keys.

(** The choice the menu hands to the end of [prompt_for_shell_approval]
    ([selected == 0] is approve); there is none when the loop never ends. *)
Definition menu_choice (e : menu_end) : option user_choice :=
  match e with
  | MenuConfirmed selected =>
      Some (if Z.eqb selected 0 then ChooseApprove else ChooseReject)
  | MenuCtrlC => Some PressCtrlC
  | MenuStarved => None
  end.

(** Keys that leave the loop. *)
Definition leaves_menu (char : ascii) : bool :=
  Ascii.eqb char key_cr || Ascii.eqb char key_lf || Ascii.eqb char key_ctrl_c
  || Ascii.eqb (ascii_lower char) "a"%char || Ascii.eqb (ascii_lower char) "r"%char.

(** Keys that are read without leaving the loop: whole escape sequences of
    three characters, and single characters the loop ignores. *)
Fixpoint idle (keys : list ascii) : bool :=
  match keys with
  | [] => true
  | char :: rest =>
      if Ascii.eqb char key_esc then
        match rest with
        | _ :: _ :: rest' => idle rest'
        | _ => false
        end
      else negb (leaves_menu char) && idle rest
  end.

(** The selection after idle keys, and the frames drawn while reading them. *)
Fixpoint selected_after (selected : Z) (keys : list ascii) : Z :=
  match keys with
  | [] => selected
  | char :: rest =>
      if Ascii.eqb char key_esc then
        match rest with
        | next1 :: next2 :: rest' =>
            selected_after
              (if Ascii.eqb next1 "["%char then arrow next2 selected else selected)
              rest'
        | _ => selected
        end
      else selected_after selected rest
  end.

Fixpoint frames_during (selected : Z) (keys : list ascii) : list Z :=
  match keys with
  | [] => []
  | char :: rest =>
      if Ascii.eqb char key_esc then
        match rest with
        | next1 :: next2 :: rest' =>
            selected
            :: frames_during
                 (if Ascii.eqb next1 "["%char then arrow next2 selected else selected)
                 rest'
        | _ => []
        end
      else selected :: frames_during selected rest
  end.

(** Idle keys only move the selection: the loop goes on with what follows. *)
Lemma menu_loop_idle :
  forall (pre : list ascii) (selected : Z) (more : list ascii),
    idle pre = true ->
    menu_loop selected (pre ++ more)
    = (fst (fst (menu_loop (selected_after selected pre) more)),
       frames_during selected pre
       ++ snd (fst (menu_loop (selected_after selected pre) more)),
       snd (menu_loop (selected_after selected pre) more)).
Proof.
  fix IH 1. intros pre selected more Hidle.
  destruct pre as [|char rest].
  - cbn. now destruct (menu_loop selected more) as [[e f] u].
  - cbn [idle] in Hidle. cbn [app menu_loop selected_after frames_during].
    destruct (Ascii.eqb char key_esc) eqn:Hesc.
    + destruct rest as [|next1 [|next2 rest']]; try discriminate.
      cbn [app]. rewrite (IH rest' _ more Hidle). reflexivity.
    + apply andb_true_iff in Hidle. destruct Hidle as [Hk Hrest].
      unfold leaves_menu in Hk. apply negb_true_iff in Hk.
      repeat (apply orb_false_iff in Hk; destruct Hk as [Hk ?]).
      replace (Ascii.eqb char key_cr || Ascii.eqb char key_lf) with false
        by (symmetry; apply orb_false_iff; auto).
      repeat match goal with H : _ = false |- _ => rewrite H end.
      rewrite (IH rest selected more Hrest). reflexivity.
Qed.

Definition arrow_letter (c : ascii) : bool :=
  Ascii.eqb c "A"%char || Ascii.eqb c "B"%char
  || Ascii.eqb c "C"%char || Ascii.eqb c "D"%char.

(** The characters of a sequence of arrow keys: [ESC [ letter] for each. *)
Definition arrow_keys (letters : list ascii) : list ascii :=
  flat_map (fun letter => [key_esc; "["%char; letter]) letters.

Lemma arrow_toggles :
  forall letter selected,
    arrow_letter letter = true ->
    arrow letter selected = ((selected + 1) mod 2)%Z.
Proof.
  intros letter selected H. unfold arrow.
  assert (E : ((selected - 1) mod 2 = (selected + 1) mod 2)%Z).
  { replace (selected - 1)%Z with (selected + 1 + (-1) * 2)%Z by lia.
    apply Z.mod_add. lia. }
  rewrite E. unfold arrow_letter in H.
  destruct (Ascii.eqb letter "C"), (Ascii.eqb letter "D"),
           (Ascii.eqb letter "B"), (Ascii.eqb letter "A"); try reflexivity.
  discriminate.
Qed.

Lemma arrow_keys_idle :
  forall letters selected,
    forallb arrow_letter letters = true ->
    (0 <= selected < 2)%Z ->
    idle (arrow_keys letters) = true
    /\ selected_after selected (arrow_keys letters)
       = ((selected + Z.of_nat (length letters)) mod 2)%Z.
Proof.
  induction letters as [|letter rest IH]; intros selected Hall Hs.
  - cbn. split; [reflexivity|]. rewrite Z.add_0_r, Z.mod_small; lia.
  - cbn [forallb] in Hall. apply andb_true_iff in Hall. destruct Hall as [Hl Hrest].
    change (arrow_keys (letter :: rest))
      with (key_esc :: "["%char :: letter :: arrow_keys rest).
    cbn [idle selected_after]. change (Ascii.eqb key_esc key_esc) with true.
    change (Ascii.eqb "["%char "["%char) with true. cbv iota.
    rewrite (arrow_toggles _ _ Hl).
    destruct (IH ((selected + 1) mod 2)%Z Hrest) as [Hi Hsel].
    { apply Z.mod_pos_bound. lia. }
    split; [exact Hi|]. rewrite Hsel.
    rewrite Z.add_mod_idemp_l by lia. f_equal.
    change (length (letter :: rest)) with (S (length rest)). lia.
Qed.

(** X13. In the approval menu every arrow key, in any direction, moves
    the highlight to the other option; so after [n] arrow keys Enter
    approves when [n] is even and rejects when [n] is odd.  With no arrow
    key, Enter approves. *)
Theorem arrows_toggle_the_selection :
  forall (letters rest : list ascii),
    forallb arrow_letter letters = true ->
    let r := approval_menu (arrow_keys letters ++ key_cr :: rest) in
    fst (fst r) = MenuConfirmed (Z.of_nat (length letters) mod 2)
    /\ snd r = rest
    /\ menu_choice (fst (fst r))
       = Some (if Nat.even (length letters) then ChooseApprove else ChooseReject).
Proof.
  intros letters rest Hall r. subst r. unfold approval_menu.
  destruct (arrow_keys_idle letters 0%Z Hall) as [Hi Hs]; [lia|].
  rewrite (menu_loop_idle _ _ _ Hi), Hs. cbn [fst snd menu_loop].
  change (Ascii.eqb key_cr key_esc) with false.
  change (Ascii.eqb key_cr key_cr) with true. cbn [orb fst snd menu_choice].
  rewrite Z.add_0_l. repeat split.
  destruct (Nat.even (length letters)) eqn:E.
  - apply Nat.even_spec in E. destruct E as [k Hk].
    rewrite Hk. replace (Z.of_nat (2 * k)) with (0 + Z.of_nat k * 2)%Z by lia.
    rewrite Z.mod_add by lia. reflexivity.
  - assert (O : Nat.odd (length letters) = true)
      by (rewrite <- Nat.negb_even, E; reflexivity).
    apply Nat.odd_spec in O. destruct O as [k Hk].
    rewrite Hk. replace (Z.of_nat (2 * k + 1)) with (1 + Z.of_nat k * 2)%Z by lia.
    rewrite Z.mod_add by lia. reflexivity.
Qed.

(** X14. Keys that the menu ignores and whole escape sequences never
    decide anything: the menu goes on reading.  After any such keys, [a] or
    [A] approves and [r] or [R] rejects, whichever option is highlighted,
    and Ctrl+C leaves the prompt by [KeyboardInterrupt]; the characters
    typed after the deciding key are left unread. *)
Theorem shortcuts_decide_whatever_is_highlighted :
  forall (pre rest : list ascii),
    idle pre = true ->
    fst (fst (approval_menu pre)) = MenuStarved
    /\ (forall k, k = "a"%char \/ k = "A"%char ->
          fst (fst (approval_menu (pre ++ k :: rest))) = MenuConfirmed 0
          /\ snd (approval_menu (pre ++ k :: rest)) = rest)
    /\ (forall k, k = "r"%char \/ k = "R"%char ->
          fst (fst (approval_menu (pre ++ k :: rest))) = MenuConfirmed 1
          /\ snd (approval_menu (pre ++ k :: rest)) = rest)
    /\ fst (fst (approval_menu (pre ++ key_ctrl_c :: rest))) = MenuCtrlC.
Proof.
  intros pre rest Hidle. unfold approval_menu. split; [|split; [|split]].
  - rewrite <- (app_nil_r pre) at 1. rewrite (menu_loop_idle _ _ _ Hidle). reflexivity.
  - intros k [-> | ->]; rewrite (menu_loop_idle _ _ _ Hidle); split; reflexivity.
  - intros k [-> | ->]; rewrite (menu_loop_idle _ _ _ Hidle); split; reflexivity.
  - rewrite (menu_loop_idle _ _ _ Hidle). reflexivity.
Qed.

Lemma arrow_range :
  forall next2 selected,
    (0 <= selected < 2)%Z -> (0 <= arrow next2 selected < 2)%Z.
Proof.
  intros next2 selected H. unfold arrow.
  destruct (Ascii.eqb next2 "C"), (Ascii.eqb next2 "D"),
           (Ascii.eqb next2 "B"), (Ascii.eqb next2 "A");
    try exact H; apply Z.mod_pos_bound; lia.
Qed.

Lemma idle_keys_range :
  forall (keys : list ascii) (selected : Z),
    (0 <= selected < 2)%Z ->
    (0 <= selected_after selected keys < 2)%Z
    /\ Forall (fun f => (0 <= f < 2)%Z) (frames_during selected keys).
Proof.
  fix IH 1. intros keys selected Hs. destruct keys as [|char rest].
  - cbn. split; [exact Hs | constructor].
  - cbn [selected_after frames_during].
    destruct (Ascii.eqb char key_esc).
    + destruct rest as [|next1 [|next2 rest']];
        try (split; [exact Hs | constructor]).
      assert (Hs' : (0 <= (if Ascii.eqb next1 "["%char
                           then arrow next2 selected else selected) < 2)%Z)
        by (destruct (Ascii.eqb next1 "["%char); [now apply arrow_range | exact Hs]).
      destruct (IH rest' _ Hs') as [H1 H2].
      split; [exact H1 | constructor; [exact Hs | exact H2]].
    + destruct (IH rest selected Hs) as [H1 H2].
      split; [exact H1 | constructor; [exact Hs | exact H2]].
Qed.

(** X15. Enter (carriage return or line feed) confirms the option that
    the menu highlighted when it was drawn last, and every frame of the
    menu highlights one of the two options, [0] (approve) or [1] (reject). *)
Theorem enter_confirms_the_highlighted_option :
  forall (pre rest : list ascii) (enter : ascii),
    idle pre = true ->
    enter = key_cr \/ enter = key_lf ->
    let r := approval_menu (pre ++ enter :: rest) in
    fst (fst r) = MenuConfirmed (last (snd (fst r)) 0%Z)
    /\ Forall (fun f => f = 0%Z \/ f = 1%Z) (snd (fst r))
    /\ snd r = rest.
Proof.
  intros pre rest enter Hidle Henter r. subst r. unfold approval_menu.
  rewrite (menu_loop_idle _ _ _ Hidle).
  destruct (idle_keys_range pre 0%Z) as [Hsel Hframes]; [lia|].
  assert (Hstep : menu_loop (selected_after 0 pre) (enter :: rest)
                  = (MenuConfirmed (selected_after 0 pre),
                     [selected_after 0 pre], rest))
    by (destruct Henter as [-> | ->]; reflexivity).
  rewrite Hstep. cbn [fst snd]. rewrite last_last. repeat split.
  apply Forall_app. split.
  - eapply Forall_impl; [|exact Hframes]. cbn. intros f Hf. lia.
  - constructor; [lia | constructor].
Qed.

(* ================================================================== *)
(** * The console loop: [handle_command], [execute_bash_command] and the
      dispatch of [simple_cli] *)

(** [s.lower()] *)
Fixpoint py_lower (s : string) : string :=
  match s with
  | EmptyString => EmptyString
  | String c rest => String (ascii_lower c) (py_lower rest)
  end.

(** [s.lstrip()], [s.rstrip()] and [s.strip()]: white space is removed at
    the ends. *)
Fixpoint lstrip_space (s : string) : string :=
  match s with
  | EmptyString => EmptyString
  | String c rest => if is_space c then lstrip_space rest else s
  end.

Fixpoint rstrip_space (s : string) : string :=
  match s with
  | EmptyString => EmptyString
  | String c rest =>
      match rstrip_space rest with
      | EmptyString => if is_space c then EmptyString else String c EmptyString
      | String d rest' => String c (String d rest')
      end
  end.

Definition py_strip (s : string) : string := rstrip_space (lstrip_space s).

(** [s.lstrip(ch)] for one character [ch]. *)
Fixpoint lstrip_char (ch : ascii) (s : string) : string :=
  match s with
  | EmptyString => EmptyString
  | String c rest => if Ascii.eqb c ch then lstrip_char ch rest else s
  end.

(** [s.startswith(ch)] for one character [ch]. *)
Definition starts_with (ch : ascii) (s : string) : bool :=
  match s with
  | String c _ => Ascii.eqb c ch
  | EmptyString => false
  end.

(** [x in ['quit', 'exit', 'q']] *)
Definition is_quit_word (s : string) : bool :=
  String.eqb s "quit" || String.eqb s "exit" || String.eqb s "q".

(** The table [COMMANDS] of the command completer. *)
Definition COMMANDS : list (string * string) :=
  [ ("clear", "Clear screen and reset conversation");
    ("help", "Show help information");
    ("tokens", "Show token usage for current session");
    ("quit", "Exit the CLI");
    ("exit", "Exit the CLI") ].

(** What [handle_command] returns: ['exit'], [True] or [False]. *)
Inductive command_result : Type :=
  | ResultExit
  | ResultTrue
  | ResultFalse.

(** How [handle_command] ends: it returns, or an exception leaves it. *)
Inductive command_end : Type :=
  | CommandReturns (result : command_result)
  | CommandRaises (e : exn).

(** What [handle_command] does before it ends. *)
Inductive command_action : Type :=
  | NoAction
  | ClearConversation             (* new checkpointer, screen cleared, banner *)
  | ShowInteractiveHelp
  | DisplaySession (input output total : Z)  (* [token_tracker.display_session()] *)
  | UnknownCommand (cmd : string).

(** How [subprocess.run(cmd, shell=True, capture_output=True, text=True,
    timeout=30, cwd=Path.cwd())] ends, the evaluation of its arguments
    included. *)
Inductive run_result : Type :=
  | RunCompleted (stdout stderr : string) (returncode : Z)
  | RunTimedOut                       (* [subprocess.TimeoutExpired] *)
  | RunFailed (err : string).         (* any other [Exception] *)

(** The calls of [execute_bash_command]: its prints, and the call of the
    shell. *)
Inductive bash_event : Type :=
  | BashBlank
  | BashEcho (cmd : string)           (* [$ cmd] *)
  | BashRun (cmd : string)            (* [subprocess.run] is called *)
  | BashStdout (text : string)
  | BashStderr (text : string)
  | BashExitCode (returncode : Z)
  | BashTimeout
  | BashError (message : text).       (* [Error executing command: ...] *)

(** The texts that [execute_bash_command] and [handle_command] print with
    markup on, around a text they do not control. *)
Definition unknown_command_text (cmd : string) : text :=
  codes ("[yellow]Unknown command: /" +++ cmd +++ "[/yellow]").

Definition echo_text (cmd : string) : text :=
  codes ("[dim]$ " +++ cmd +++ "[/dim]").

Definition bash_error_text (message : text) : text :=
  codes "[red]Error executing command: " ++ message ++ codes "[/red]".

(** What one round of the loop of [simple_cli] does with the line read. *)
Inductive dispatch : Type :=
  | Skip                                  (* empty line: [continue] *)
  | Quit                                  (* goodbye, [break] *)
  | RunCommand (action : command_action)  (* a slash command, handled *)
  | CommandFails (action : command_action) (e : exn)
                                          (* [handle_command] raises *)
  | RunBash (events : list bash_event) (raised : option exn)
                                          (* [execute_bash_command] *)
  | RunTask (user_input : string).        (* [execute_task] *)

Section Console.

Variable markup : text -> print_result.
Variable shell : string -> run_result.

(** The console takes a text read as markup. *)
Definition taken (t : text) : bool :=
  match markup t with
  | Printed _ => true
  | MarkupFails _ => false
  end.

(** [handle_command(command, agent, token_tracker)]; the name of an
    unknown command is printed with markup on. *)
Definition handle_command (command : string) (token_tracker : TokenTracker.t)
  : command_end * command_action :=
  let cmd := lstrip_char "/"%char (py_strip (py_lower command)) in
  if is_quit_word cmd then (CommandReturns ResultExit, NoAction)
  else if String.eqb cmd "clear" then (CommandReturns ResultTrue, ClearConversation)
  else if String.eqb cmd "help" then (CommandReturns ResultTrue, ShowInteractiveHelp)
  else if String.eqb cmd "tokens" then
    (CommandReturns ResultTrue,
     DisplaySession (TokenTracker.session_input token_tracker)
                    (TokenTracker.session_output token_tracker)
                    (TokenTracker.session_input token_tracker
                     + TokenTracker.session_output token_tracker)%Z)
  else
    match markup (unknown_command_text cmd) with
    | Printed _ => (CommandReturns ResultTrue, UnknownCommand cmd)
    | MarkupFails message => (CommandRaises (MarkupError message), UnknownCommand cmd)
    end.

(** [except Exception as e] of [execute_bash_command]: the text of the
    exception is printed with markup on, outside any [try]. *)
Definition bash_except (message : text) : list bash_event * option exn :=
  match markup (bash_error_text message) with
  | Printed _ => ([BashError message; BashBlank], None)
  | MarkupFails message' => ([BashError message], Some (MarkupError message'))
  end.

(** A call inside the [try], followed by the rest of the [try]. *)
Definition and_then (events : list bash_event)
           (rest : list bash_event * option exn) : list bash_event * option exn :=
  (events ++ fst rest, snd rest).

(** A print of the [try] with markup on: when it raises, the [except]
    clause takes over. *)
Definition bash_print (call : bash_event) (t : text)
           (rest : list bash_event * option exn) : list bash_event * option exn :=
  match markup t with
  | Printed _ => and_then [call] rest
  | MarkupFails message => and_then [call] (bash_except message)
  end.

(** The end of the [try], after the two outputs. *)
Definition bash_return (returncode : Z) : list bash_event * option exn :=
  ((if negb (Z.eqb returncode 0) then [BashExitCode returncode] else [])
   ++ [BashBlank], None).

(** [if result.stderr: console.print(result.stderr, style="red")] and what
    follows. *)
Definition bash_stderr (stderr : string) (returncode : Z)
  : list bash_event * option exn :=
  if str_truthy stderr
  then bash_print (BashStderr stderr) (codes stderr) (bash_return returncode)
  else bash_return returncode.

(** [if result.stdout: console.print(result.stdout, ...)] and what
    follows. *)
Definition bash_stdout (stdout stderr : string) (returncode : Z)
  : list bash_event * option exn :=
  if str_truthy stdout
  then bash_print (BashStdout stdout) (codes stdout) (bash_stderr stderr returncode)
  else bash_stderr stderr returncode.

(** [execute_bash_command(command)]: its calls, and the exception that
    leaves it, if any; otherwise it returns [True]. *)
Definition execute_bash_command (command : string)
  : list bash_event * option exn :=
  let cmd := lstrip_char "!"%char (py_strip command) in
  if str_truthy cmd then
    and_then [BashBlank]
      (bash_print (BashEcho cmd) (echo_text cmd)
         (and_then [BashRun cmd]
            match shell cmd with
            | RunCompleted stdout stderr returncode =>
                bash_stdout stdout stderr returncode
            | RunTimedOut => ([BashTimeout; BashBlank], None)
            | RunFailed err => bash_except (codes err)
            end))
  else ([], None).

(** The checks that follow the slash commands. *)
Definition dispatch_plain (user_input : string) : dispatch :=
  if starts_with "!"%char user_input then
    RunBash (fst (execute_bash_command user_input))
            (snd (execute_bash_command user_input))
  else if is_quit_word (py_lower user_input) then Quit
  else RunTask user_input.

(** One round of [while True] in [simple_cli], on the line [line] read by
    the prompt. *)
Definition simple_cli_round (line : string) (token_tracker : TokenTracker.t)
  : dispatch :=
  let user_input := py_strip line in
  if negb (str_truthy user_input) then Skip
  else if starts_with "/"%char user_input then
    match handle_command user_input token_tracker with
    | (CommandReturns ResultExit, _) => Quit
    | (CommandReturns ResultTrue, action) => RunCommand action
    | (CommandReturns ResultFalse, _) => dispatch_plain user_input
    | (CommandRaises e, action) => CommandFails action e
    end
  else dispatch_plain user_input.

End Console.

(** ** Properties of the console loop *)

Lemma handle_command_handled :
  forall markup command t,
    fst (handle_command markup command t) <> CommandReturns ResultFalse.
Proof.
  intros markup command t. unfold handle_command.
  destruct (is_quit_word _); [discriminate|].
  repeat (destruct (String.eqb _ _); [discriminate|]).
  destruct (markup _); discriminate.
Qed.

(** X16. [handle_command] never returns [False]: every line that starts
    with [/] is handled as a command, known or not.  A round of the
    console on such a line quits, or has run a command, or is left by the
    exception of the print of an unknown command, which the console then
    refused; the line never reaches the agent or the shell. *)
Theorem slash_lines_stay_in_the_console :
  forall (markup : text -> print_result) (shell : string -> run_result)
         (line : string) (t : TokenTracker.t),
    starts_with "/"%char (py_strip line) = true ->
    fst (handle_command markup (py_strip line) t) <> CommandReturns ResultFalse
    /\ (simple_cli_round markup shell line t = Quit
        \/ (exists action, simple_cli_round markup shell line t = RunCommand action)
        \/ (exists cmd message,
              simple_cli_round markup shell line t
              = CommandFails (UnknownCommand cmd) (MarkupError message)
              /\ markup (unknown_command_text cmd) = MarkupFails message)).
Proof.
  intros markup shell line t Hslash. split; [apply handle_command_handled|].
  unfold simple_cli_round.
  assert (Hne : str_truthy (py_strip line) = true)
    by (destruct (py_strip line); [discriminate | reflexivity]).
  rewrite Hne, Hslash. cbn [negb]. unfold handle_command.
  destruct (is_quit_word _); [now left|].
  repeat (destruct (String.eqb _ _); [right; left; eexists; reflexivity|]).
  destruct (markup _) as [shown|message] eqn:E.
  - right. left. eexists. reflexivity.
  - right. right. eexists. exists message. split; [reflexivity | exact E].
Qed.

(** X17. A round of the console sends a line to the agent exactly when
    the line, stripped of surrounding white space, is not empty, starts
    with neither [/] nor [!], and is not [quit], [exit] or [q] in any
    letter case; the agent then receives the stripped line. *)
Theorem task_lines :
  forall (markup : text -> print_result) (shell : string -> run_result)
         (line : string) (t : TokenTracker.t) (user_input : string),
    simple_cli_round markup shell line t = RunTask user_input
    <-> user_input = py_strip line
        /\ str_truthy user_input = true
        /\ starts_with "/"%char user_input = false
        /\ starts_with "!"%char user_input = false
        /\ is_quit_word (py_lower user_input) = false.
Proof.
  intros markup shell line t user_input. unfold simple_cli_round, dispatch_plain.
  split.
  - destruct (str_truthy (py_strip line)) eqn:Hne; cbn [negb]; [|discriminate].
    destruct (starts_with "/"%char (py_strip line)) eqn:Hslash.
    + pose proof (handle_command_handled markup (py_strip line) t) as H.
      destruct (handle_command markup (py_strip line) t) as [[[| |]|e] action];
        cbn in H; try discriminate. contradiction.
    + destruct (starts_with "!"%char (py_strip line)) eqn:Hbang; [discriminate|].
      destruct (is_quit_word (py_lower (py_strip line))) eqn:Hq; [discriminate|].
      intro H. injection H as <-. auto.
  - intros (-> & Hne & Hslash & Hbang & Hq).
    now rewrite Hne, Hslash, Hbang, Hq.
Qed.

(** X18. Every command of the table [COMMANDS], typed after a slash, is
    known to [handle_command]: none is answered by "Unknown command", and
    the call returns; [quit] and [exit] leave the console and the others
    are handled. *)
Theorem listed_commands_are_known :
  forall (markup : text -> print_result) (name : string) (t : TokenTracker.t),
    In name (map fst COMMANDS) ->
    (forall cmd, snd (handle_command markup ("/" +++ name) t) <> UnknownCommand cmd)
    /\ (fst (handle_command markup ("/" +++ name) t) = CommandReturns ResultExit
        <-> name = "quit" \/ name = "exit")
    /\ (exists result,
          fst (handle_command markup ("/" +++ name) t) = CommandReturns result).
Proof.
  intros markup name t Hin. cbn in Hin.
  destruct Hin as [<-|[<-|[<-|[<-|[<-|[]]]]]]; (split; [|split]);
    try (intro cmd; vm_compute; discriminate);
    try (eexists; vm_compute; reflexivity);
    vm_compute; split; intro H; try discriminate;
    try (destruct H as [H|H]; discriminate); auto.
Qed.

Lemma lstrip_char_start :
  forall ch s, starts_with ch (lstrip_char ch s) = false.
Proof.
  induction s as [|c s IH]; cbn; [reflexivity|].
  destruct (Ascii.eqb c ch) eqn:E; [exact IH | cbn; exact E].
Qed.

(** The commands handed to the shell. *)
Definition runs (events : list bash_event) : list string :=
  flat_map (fun e => match e with BashRun c => [c] | _ => [] end) events.

(** The exit codes shown. *)
Definition exit_codes (events : list bash_event) : list Z :=
  flat_map (fun e => match e with BashExitCode c => [c] | _ => [] end) events.

(** An output of the command is printed without [MarkupError]; an empty
    output is not printed. *)
Definition output_taken (markup : text -> print_result) (output : string) : bool :=
  negb (str_truthy output) || taken markup (codes output).

(** The exit code that [execute_bash_command] shows for [cmd]: the one of
    a completed run, when it is not zero and both outputs were printed. *)
Definition exit_code_shown (markup : text -> print_result)
           (shell : string -> run_result) (cmd : string) : list Z :=
  match shell cmd with
  | RunCompleted stdout stderr returncode =>
      if output_taken markup stdout && output_taken markup stderr
         && negb (Z.eqb returncode 0)
      then [returncode] else []
  | _ => []
  end.

(** X19. [execute_bash_command] works on the line stripped of surrounding
    white space and of its leading [!]; that command never starts with
    [!].  A line made of [!] only runs nothing and prints nothing.
    Otherwise a blank line and the command are printed first; the shell is
    called exactly when the console takes that print, and then once, with
    the command; an exit code is shown exactly when the run completes with
    a code that is not zero and both outputs are printed; and when the
    function returns, its last print is a blank line. *)
Theorem bash_command_runs_once :
  forall (markup : text -> print_result) (shell : string -> run_result)
         (command : string),
    let cmd := lstrip_char "!"%char (py_strip command) in
    let r := execute_bash_command markup shell command in
    starts_with "!"%char cmd = false
    /\ (cmd = EmptyString -> r = ([], None))
    /\ (cmd <> EmptyString ->
        (exists out, fst r = [BashBlank; BashEcho cmd] ++ out)
        /\ runs (fst r) = (if taken markup (echo_text cmd) then [cmd] else [])
        /\ exit_codes (fst r)
           = (if taken markup (echo_text cmd)
              then exit_code_shown markup shell cmd else [])
        /\ (snd r = None -> exists out, fst r = out ++ [BashBlank])).
Proof.
  intros markup shell command cmd r. subst r. unfold execute_bash_command.
  fold cmd. split; [apply lstrip_char_start|]. split.
  - intros ->. reflexivity.
  - intro Hne. apply str_truthy_true in Hne. rewrite Hne.
    unfold exit_code_shown, output_taken, taken, bash_print, bash_stdout,
      bash_stderr, bash_print, bash_return, bash_except, and_then.
    destruct (markup (echo_text cmd)) as [shown|message]; cbn [fst snd app].
    + split; [eexists; reflexivity|].
      destruct (shell cmd) as [stdout stderr returncode| |err].
      * destruct (str_truthy stdout); cbn [negb orb andb];
          [destruct (markup (codes stdout)); cbn [fst snd app]|];
          try (destruct (markup (bash_error_text _)); cbn [fst snd app]);
          try (destruct (str_truthy stderr); cbn [negb orb andb];
               [destruct (markup (codes stderr)); cbn [fst snd app]|]);
          try (destruct (markup (bash_error_text _)); cbn [fst snd app]);
          try (destruct (negb (Z.eqb returncode 0)); cbn [fst snd app]);
          repeat split; try reflexivity; try discriminate; intros _;
          try (now exists [BashBlank; BashEcho cmd; BashRun cmd]);
          try (now eexists (_ :: _ :: _ :: [_]));
          try (now eexists (_ :: _ :: _ :: _ :: [_]));
          try (now eexists (_ :: _ :: _ :: _ :: _ :: [_]));
          try (now eexists (_ :: _ :: _ :: _ :: _ :: _ :: [_])).
      * repeat split; try reflexivity. intros _.
        now exists [BashBlank; BashEcho cmd; BashRun cmd; BashTimeout].
      * destruct (markup (bash_error_text _)); cbn [fst snd app];
          repeat split; try reflexivity; try discriminate. intros _.
        now eexists (_ :: _ :: _ :: [_]).
    + split; [eexists; reflexivity|].
      destruct (markup (bash_error_text _)); cbn [fst snd app];
        repeat split; try reflexivity; try discriminate. intros _.
      now eexists (_ :: _ :: [_]).
Qed.

(* ================================================================== *)
(** * Nothing is printed while the spinner runs *)

(** The events that write to the terminal: the prints and the approval
    prompt. *)
Definition writes (e : event) : bool :=
  match e with
  | AgentStream _ | AgentInvoke _ | Pulled _ | StatusStart | StatusStop => false
  | _ => true
  end.

(** Every write of [log] happens while the spinner is stopped, the spinner
    being in the state [running] at first. *)
Fixpoint written_when_stopped (running : bool) (log : list event) : bool :=
  match log with
  | [] => true
  | StatusStart :: rest => written_when_stopped true rest
  | StatusStop :: rest => written_when_stopped false rest
  | e :: rest =>
      (if writes e then negb running else true) && written_when_stopped running rest
  end.

Lemma written_when_stopped_app :
  forall l1 l2 r,
    written_when_stopped r (l1 ++ l2)
    = written_when_stopped r l1 && written_when_stopped (running_after r l1) l2.
Proof.
  induction l1 as [|e l1 IH]; intros l2 r; [reflexivity|].
  destruct e; cbn [app written_when_stopped writes]; rewrite ?IH;
    try reflexivity; now rewrite andb_assoc.
Qed.

Section SpinnerFacts.

Variable pyobj : Type.
Variable json_loads : string -> option pyobj.
Variable dict_items : pyobj -> option (list (string * pyobj)).
Variable py_str : pyobj -> string.
Variable markup : text -> print_result.
Variable user : nat -> user_choice.
Variable invoke : invoke_result.
Variable resolve : string -> resolution.
Variable read_text : path -> read_result.

Local Abbreviation handle_block' := (handle_block json_loads dict_items py_str markup).
Local Abbreviation handle_message' := (handle_message json_loads dict_items py_str markup).
Local Abbreviation handle_chunk' := (handle_chunk json_loads dict_items py_str markup user).
Local Abbreviation process_stream' :=
  (process_stream json_loads dict_items py_str markup user).
Local Abbreviation stream_loop' :=
  (stream_loop json_loads dict_items py_str markup user invoke).
Local Abbreviation execute_task' :=
  (execute_task json_loads dict_items py_str markup user invoke resolve read_text).

(** The events of some steps write only while the spinner is stopped, and
    [spinner_active] tells whether the spinner runs, except after an
    exception, which finds the spinner stopped. *)
Definition careful (st st' : state) (ev : list event) (failed : bool) : Prop :=
  written_when_stopped (spinner_active st) ev = true
  /\ running_after (spinner_active st) ev
     = (if failed then false else spinner_active st').

Lemma careful_nil : holds_of_nothing careful.
Proof. intro st. split; reflexivity. Qed.

Lemma careful_app : kept_in_sequence careful.
Proof.
  intros st st1 st2 ev1 ev2 failed [W1 R1] [W2 R2]. unfold careful.
  now rewrite written_when_stopped_app, running_after_app, W1, R1, W2, R2.
Qed.

Lemma careful_same_spinner :
  forall st0 st st' ev failed,
    spinner_active st0 = spinner_active st ->
    careful st st' ev failed -> careful st0 st' ev failed.
Proof. intros st0 st st' ev failed H C. unfold careful in *. now rewrite H. Qed.

Lemma stop_spinner_careful :
  forall st, careful st (fst (stop_spinner st)) (snd (stop_spinner st)) false.
Proof.
  intro st. unfold stop_spinner, careful.
  destruct (spinner_active st) eqn:E; cbn; rewrite ?E; auto.
Qed.

(** Plain events, written after the spinner is stopped. *)
Lemma plain_when_stopped :
  forall ev,
    plain ev ->
    written_when_stopped false ev = true /\ running_after false ev = false.
Proof.
  induction 1 as [|e ev He _ [W R]]; [split; reflexivity|].
  destruct e; try contradiction; cbn; auto.
Qed.

(** The spinner is stopped, then plain events follow: with or without an
    exception at their end. *)
Lemma stopped_then_written :
  forall st st' ev failed,
    plain ev ->
    spinner_active st' = false ->
    careful st st' (snd (stop_spinner st) ++ ev) failed.
Proof.
  intros st st' ev failed Hp Hs.
  apply careful_app with (st1 := fst (stop_spinner st));
    [apply stop_spinner_careful|].
  destruct (stop_spinner_off st) as [Hoff _].
  destruct (plain_when_stopped ev Hp) as [W R].
  unfold careful. rewrite Hoff, W, R, Hs. now destruct failed.
Qed.

Lemma handle_block_careful :
  forall st b, of_step careful st (handle_block' st b).
Proof.
  intros st b. unfold of_step.
  destruct b as [text|reasoning|[name|] args id|];
    cbn [handle_block]; try apply careful_nil.
  - destruct (str_truthy text); [|apply careful_nil].
    unfold stop_spinner, careful.
    destruct (spinner_active st) eqn:E; cbn; destruct (has_responded st); cbn;
      rewrite ?E; auto.
  - destruct (str_truthy reasoning); [|apply careful_nil].
    pose proof (stop_spinner_careful st) as T.
    destruct (stop_spinner st); exact T.
  - destruct (str_truthy name); [|apply careful_nil].
    unfold careful.
    destruct (markup _); cbn [fst snd is_error];
      destruct (spinner_active st) eqn:E, (has_responded st); cbn;
      rewrite ?E; auto.
Qed.

Lemma handle_tool_message_careful :
  forall tg st name status content,
    of_step careful st (handle_message' tg st (ToolMessage name status content)).
Proof.
  intros tg st name status content. unfold of_step. cbn [handle_message].
  destruct (is_shell name && negb (status =? "success")%string);
    [|apply careful_nil].
  destruct (str_truthy (format_tool_message_content content)); [|apply careful_nil].
  destruct (stop_spinner_off st) as [Hoff _].
  pose proof (stopped_then_written st (fst (stop_spinner st))) as T.
  destruct (stop_spinner st) as [st1 ev1]. cbn [fst snd] in *.
  destruct (markup _); cbn [fst snd is_error];
    apply T; auto; unfold plain; plain_list.
Qed.

Lemma handle_interrupt_careful :
  forall st req, of_step careful st (handle_interrupt markup user st req).
Proof.
  intros st req. unfold of_step.
  destruct (handle_interrupt_shape markup user st req)
    as (prompts & n & Hp & -> & ->).
  destruct (stop_spinner_off st) as [Hoff _].
  apply stopped_then_written; [now apply prompts_plain | exact Hoff].
Qed.

Lemma handle_todos_careful :
  forall st v, of_step careful st (handle_todos markup st v).
Proof.
  intros st v. unfold of_step. rewrite handle_todos_eq.
  destruct (todos_of v) as [new|]; [|apply careful_nil].
  destruct (snapshot_eqb _ _); [apply careful_nil|].
  cbv zeta. cbn [fst snd].
  destruct (stop_spinner_off (set_current_todos (Some new) st)) as [Hoff _].
  apply careful_same_spinner with (st := set_current_todos (Some new) st);
    [reflexivity|].
  apply stopped_then_written; [|exact Hoff].
  destruct (render_todo_list_cases markup new) as [-> | [-> | (message & ->)]];
    cbn; unfold plain; plain_list.
Qed.

Lemma handle_chunk_careful :
  forall tg st c,
    careful st (fst (fst (handle_chunk' tg st c)))
            (Pulled c :: snd (fst (handle_chunk' tg st c)))
            (is_error (snd (handle_chunk' tg st c))).
Proof.
  apply (chain_chunk _ _ _ _ _ _ _ careful_nil careful_app).
  - intros st c. split; reflexivity.
  - intros tg u st st' ev failed T.
    destruct (capture_usage_flags tg u st) as (Hs & _).
    apply careful_same_spinner with (st := capture_usage tg u st); auto.
  - exact handle_block_careful.
  - exact handle_tool_message_careful.
  - exact handle_interrupt_careful.
  - exact handle_todos_careful.
Qed.

Lemma process_stream_careful :
  forall tg items st, of_stream careful st (process_stream' tg st items).
Proof.
  intros tg. apply (chain_stream _ _ _ _ _ _ _ careful_nil careful_app tg).
  apply handle_chunk_careful.
Qed.

(** The rest of a turn writes only while the spinner is stopped. *)
Definition written_with_care (st : state) (T : turn) : Prop :=
  written_when_stopped (spinner_active st) (turn_log T) = true.

Lemma stream_loop_careful :
  forall tracker script st input,
    written_with_care st (stream_loop' tracker script st input).
Proof.
  intro tracker.
  apply (chain_rest _ _ _ _ _ _ _ careful written_with_care tracker).
  - intros st st1 ev T [W R] Q. unfold written_with_care in *.
    cbn [prepend turn_log]. now rewrite written_when_stopped_app, W, R.
  - intros st st1 ev e [W R]. unfold written_with_care.
    cbn [prepend failed_turn turn_log]. now rewrite app_nil_r.
  - intros items st. apply process_stream_careful.
  - intros st input. split; reflexivity.
  - intro st. unfold written_with_care, finish_turn.
    destruct (has_responded st); [destruct tracker as [t|]|].
    + destruct (negb _ || negb _); cbn [turn_log]; unfold display_last_events;
        [destruct (TokenTracker.display_last _)|];
        destruct (spinner_active st); reflexivity.
    + destruct (spinner_active st); reflexivity.
    + destruct (spinner_active st); reflexivity.
  - intro st. unfold written_with_care, interrupted_turn. cbn [turn_log].
    destruct (spinner_active st); reflexivity.
  - intros st ds.
    unfold written_with_care, rejected_turn, stop_spinner, interrupted_turn,
      failed_turn.
    destruct (spinner_active st) eqn:E, invoke as [|err|]; cbn;
      try destruct (markup _); cbn; rewrite ?E; reflexivity.
Qed.

(** X20. Whatever [execute_task] writes to the terminal (text, tool
    lines, todo lists, errors, notices and approval prompts) is written
    while the spinner is stopped: the spinner is always stopped before a
    write and restarted, if at all, after it. *)
Theorem nothing_written_while_spinner_runs :
  forall (user_input : string) (script : list (list pulled))
         (tracker : option TokenTracker.t),
    written_when_stopped false
      (turn_log (execute_task' user_input script tracker)) = true.
Proof.
  intros user_input script tracker.
  assert (Hw : forall ws,
             written_when_stopped false (PrintBlank :: map PrintWarning ws) = true
             /\ running_after false (PrintBlank :: map PrintWarning ws) = false)
    by (intro ws; apply plain_when_stopped, warnings_plain).
  destruct (execute_task_cases _ json_loads dict_items py_str markup user invoke
              resolve read_text user_input script tracker)
    as [(files & ws & _ & ->) | (e & ws & _ & ->)].
  - cbn [prepend turn_log].
    change ([PrintBlank] ++ map PrintWarning ws ++ [StatusStart])
      with ((PrintBlank :: map PrintWarning ws) ++ [StatusStart]).
    rewrite <- app_assoc, written_when_stopped_app.
    destruct (Hw ws) as [W R]. rewrite W, R.
    cbn [app written_when_stopped andb].
    apply (stream_loop_careful tracker script initial_state).
  - cbn [turn_log]. apply Hw.
Qed.

End SpinnerFacts.

(* ================================================================== *)
(** * File-path completion: [FilePathCompleter] *)

(** A [Document]: its text and the position of the cursor. *)
Record document : Type := mk_document {
  doc_text : string;
  doc_cursor : nat
}.

(** A [Completion]. *)
Record completion : Type := mk_completion {
  c_text : string;
  c_start_position : Z;
  c_display : string;
  c_display_meta : string
}.

(** [document.text_before_cursor] *)
Definition text_before_cursor (d : document) : string :=
  str_take (doc_cursor d) (doc_text d).

(** [ch in s] for one character [ch]. *)
Fixpoint contains (ch : ascii) (s : string) : bool :=
  match s with
  | EmptyString => false
  | String c rest => Ascii.eqb c ch || contains ch rest
  end.

(** [s.split(ch)], with [cur] the part read so far. *)
Fixpoint split_on (ch : ascii) (cur : string) (s : string) : list string :=
  match s with
  | EmptyString => [cur]
  | String c rest =>
      if Ascii.eqb c ch then cur :: split_on ch EmptyString rest
      else split_on ch (cur +++ String c EmptyString) rest
  end.

Definition py_split (ch : ascii) (s : string) : list string :=
  split_on ch EmptyString s.

(** [a in b] between strings. *)
Fixpoint is_infix (a b : string) : bool :=
  String.prefix a b
  || match b with
     | EmptyString => false
     | String _ rest => is_infix a rest
     end.

Section Completers.

(** [PathCompleter(expanduser=True).get_completions] *)
Variable path_completer : document -> list completion.

(** [FilePathCompleter.get_completions(document, complete_event)] *)
Definition file_completions (d : document) : list completion :=
  let text := text_before_cursor d in
  if contains at_sign text then
    let parts := py_split at_sign text in
    if Nat.leb 2 (length parts) then
      let after_at := last parts EmptyString in
      let path_doc := mk_document after_at (String.length after_at) in
      let all_completions := path_completer path_doc in
      if str_truthy (py_strip after_at) then
        let search_term := py_lower (last (py_split "/"%char after_at) EmptyString) in
        filter (fun c => is_infix search_term (py_lower (c_text c))) all_completions
      else all_completions
    else []
  else [].

End Completers.

Lemma append_assoc :
  forall a b c : string, (a +++ b) +++ c = a +++ b +++ c.
Proof. induction a as [|x a IH]; intros b c; cbn; [reflexivity | now rewrite IH]. Qed.

Lemma append_nil_r : forall a : string, a +++ EmptyString = a.
Proof. induction a as [|x a IH]; cbn; [reflexivity | now rewrite IH]. Qed.

Lemma split_on_nonempty : forall ch s cur, split_on ch cur s <> [].
Proof.
  induction s as [|c s IH]; intro cur; cbn; [discriminate|].
  destruct (Ascii.eqb c ch); [discriminate | apply IH].
Qed.

Lemma last_cons :
  forall (A : Type) (a : A) (l : list A) (d : A), l <> [] -> last (a :: l) d = last l d.
Proof. intros A a [|b l] d H; [contradiction | reflexivity]. Qed.

(** A text without the separator is one part. *)
Lemma split_on_whole :
  forall ch s cur, contains ch s = false -> split_on ch cur s = [cur +++ s].
Proof.
  induction s as [|c s IH]; intros cur H; cbn in *.
  - now rewrite append_nil_r.
  - apply orb_false_iff in H. destruct H as [Hc Hs]. rewrite Hc.
    rewrite (IH _ Hs), append_assoc. reflexivity.
Qed.

(** With the separator in the text there are two parts at least. *)
Lemma split_on_two :
  forall ch s cur, contains ch s = true -> 2 <= length (split_on ch cur s).
Proof.
  induction s as [|c s IH]; intros cur H; cbn in *; [discriminate|].
  destruct (Ascii.eqb c ch) eqn:E.
  - cbn [length]. pose proof (split_on_nonempty ch s EmptyString) as Hne.
    destruct (split_on ch EmptyString s); [contradiction | cbn; lia].
  - cbn in H. now apply IH.
Qed.

(** The last part holds no separator, if the part read so far holds none. *)
Lemma split_on_last_clean :
  forall ch s cur,
    contains ch cur = false ->
    contains ch (last (split_on ch cur s) EmptyString) = false.
Proof.
  induction s as [|c s IH]; intros cur H; cbn [split_on]; [exact H|].
  destruct (Ascii.eqb c ch) eqn:E.
  - rewrite last_cons by apply split_on_nonempty. now apply IH.
  - apply IH. clear IH. induction cur as [|x cur IHc]; cbn in *.
    + now rewrite E.
    + apply orb_false_iff in H. destruct H as [Hx Hcur].
      now rewrite Hx, (IHc Hcur).
Qed.

(** The last part is what follows the last separator. *)
Lemma split_on_last_suffix :
  forall ch s cur,
    contains ch s = true ->
    exists before,
      s = before +++ String ch (last (split_on ch cur s) EmptyString).
Proof.
  induction s as [|c s IH]; intros cur H; cbn in H; [discriminate|].
  cbn [split_on]. destruct (Ascii.eqb_spec c ch) as [->|Hne].
  - rewrite last_cons by apply split_on_nonempty.
    destruct (contains ch s) eqn:Hs.
    + destruct (IH EmptyString eq_refl) as [before Hb].
      exists (String ch before). cbn. now rewrite <- Hb.
    + rewrite (split_on_whole _ _ _ Hs). cbn. now exists EmptyString.
  - cbn in H. destruct (IH (cur +++ String c EmptyString) H) as [before Hb].
    exists (String c before). cbn. now rewrite <- Hb.
Qed.

(** X21. The file-path completer offers nothing unless the text before
    the cursor holds an [@].  What it offers comes from the path completer
    run on the text after the last [@] (which holds no [@]), in the order
    of the path completer; and when that text is not blank, each offer
    contains, letter case aside, the last path segment typed. *)
Theorem file_completions_come_from_the_last_mention :
  forall (path_completer : document -> list completion) (d : document)
         (c : completion),
    In c (file_completions path_completer d) ->
    let text := text_before_cursor d in
    let after_at := last (py_split at_sign text) EmptyString in
    contains at_sign text = true
    /\ (exists before, text = before +++ String at_sign after_at)
    /\ contains at_sign after_at = false
    /\ In c (path_completer (mk_document after_at (String.length after_at)))
    /\ (str_truthy (py_strip after_at) = true ->
        is_infix (py_lower (last (py_split "/"%char after_at) EmptyString))
                 (py_lower (c_text c)) = true).
Proof.
  intros path_completer d c Hin text after_at.
  unfold file_completions in Hin. fold text in Hin.
  destruct (contains at_sign text) eqn:Hat; [|contradiction].
  pose proof (split_on_two at_sign text EmptyString Hat) as Htwo.
  apply Nat.leb_le in Htwo. unfold py_split in Hin at 1. rewrite Htwo in Hin.
  fold after_at in Hin.
  split; [reflexivity|]. split; [apply (split_on_last_suffix _ _ _ Hat)|].
  split; [now apply split_on_last_clean|].
  destruct (str_truthy (py_strip after_at)).
  - apply filter_In in Hin. destruct Hin as [H1 H2]. split; [exact H1|].
    intros _. exact H2.
  - split; [exact Hin|]. discriminate.
Qed.

(* ================================================================== *)
(** * The Enter key of the prompt: [create_prompt_session] *)

(** [buffer.complete_state]: the completion highlighted, if any, and the
    completions of the menu. *)
Record complete_state : Type := mk_complete_state {
  current_completion : option completion;
  completions : list completion
}.

(** The input buffer, as the binding of Enter reads it. *)
Record buffer : Type := mk_buffer {
  buffer_text : string;
  buffer_complete_state : option complete_state
}.

(** What the binding of Enter does. *)
Inductive enter_action : Type :=
  | ApplyCompletion (c : completion)   (* [buffer.apply_completion] *)
  | CloseMenu                          (* [buffer.complete_state = None] *)
  | Submit                             (* [buffer.validate_and_handle()] *)
  | DoNothing.

(** The handler bound to [enter]. *)
Definition on_enter (b : buffer) : enter_action :=
  match buffer_complete_state b with
  | Some state =>
      let current :=
        match current_completion state with
        | Some c => Some c
        | None =>
            match completions state with
            | c :: _ => Some c
            | [] => None
            end
        end in
      match current with
      | Some c => ApplyCompletion c
      | None => CloseMenu
      end
  | None => if str_truthy (py_strip (buffer_text b)) then Submit else DoNothing
  end.

(** Every character of [s] is white space. *)
Fixpoint all_space (s : string) : bool :=
  match s with
  | EmptyString => true
  | String c rest => is_space c && all_space rest
  end.

Lemma lstrip_space_start :
  forall s,
    match lstrip_space s with
    | EmptyString => all_space s = true
    | String c _ => is_space c = false /\ all_space s = false
    end.
Proof.
  induction s as [|c s IH]; cbn; [reflexivity|].
  destruct (is_space c) eqn:E; cbn; [|rewrite E; auto].
  destruct (lstrip_space s); [exact IH|].
  destruct IH as [H1 H2]. auto.
Qed.

Lemma rstrip_space_empty :
  forall s, rstrip_space s = EmptyString <-> all_space s = true.
Proof.
  induction s as [|c s IH]; cbn; [tauto|].
  destruct (rstrip_space s) as [|d r].
  - destruct (is_space c); cbn.
    + rewrite <- IH. tauto.
    + split; discriminate.
  - split; [discriminate|]. intro H. apply andb_true_iff in H.
    destruct H as [_ H]. apply IH in H. discriminate.
Qed.

(** [s.strip()] is empty exactly when [s] is white space only. *)
Lemma py_strip_empty :
  forall s, str_truthy (py_strip s) = false <-> all_space s = true.
Proof.
  intro s. rewrite str_truthy_false. unfold py_strip.
  rewrite rstrip_space_empty.
  pose proof (lstrip_space_start s) as H.
  destruct (lstrip_space s) as [|c r] eqn:E.
  - cbn. tauto.
  - destruct H as [H1 H2]. cbn. rewrite H1, H2. cbn. tauto.
Qed.

(** X25. Enter submits the input exactly when no completion menu is open
    and the text holds a character that is not white space.  With the menu
    open Enter never submits: it applies the completion highlighted, or the
    first one when none is highlighted, and closes the menu when it is
    empty. *)
Theorem enter_submits_only_text_without_menu :
  forall b : buffer,
    (on_enter b = Submit
     <-> buffer_complete_state b = None /\ all_space (buffer_text b) = false)
    /\ (forall state,
          buffer_complete_state b = Some state ->
          on_enter b
          = match current_completion state, completions state with
            | Some c, _ => ApplyCompletion c
            | None, c :: _ => ApplyCompletion c
            | None, [] => CloseMenu
            end).
Proof.
  intros [text [state|]]; unfold on_enter; cbn [buffer_complete_state buffer_text].
  - split.
    + split.
      * destruct (current_completion state) as [c|];
          [discriminate | destruct (completions state); discriminate].
      * intros [H _]. discriminate.
    + intros state' H. injection H as <-.
      destruct (current_completion state) as [c|]; [reflexivity|].
      destruct (completions state); reflexivity.
  - split; [|intros state H; discriminate].
    pose proof (py_strip_empty text) as H.
    destruct (str_truthy (py_strip text)) eqn:Et.
    + split; [intros _ | reflexivity].
      split; [reflexivity|].
      destruct (all_space text); [|reflexivity].
      apply (proj2 H). reflexivity.
    + split; [discriminate|]. intros [_ Hs].
      rewrite (proj1 H eq_refl) in Hs. discriminate.
Qed.

(* ================================================================== *)
(** * The further properties on examples *)

(** A stream of two chunks: a text fragment, then a usage report. *)
Definition calm_items : list pulled :=
  [Yield text_fragment; Yield (usage_chunk 100 20)].


(** Two shell commands waiting for approval. *)
Definition two_requests : list action_request :=
  [mk_request (Some "ls"); mk_request (Some "make test")].

(** X5 on an example: two requests, both approved, give two prompts and
    two decisions. *)
Lemma one_decision_witness :
  forallb (panel_accepted MiniMarkup.markup) two_requests = true
  /\ exists decisions,
       collect_decisions MiniMarkup.markup always_approve 0 two_requests
       = (Decisions decisions, map Prompt two_requests, 0 + length two_requests)
       /\ length decisions = length two_requests
       /\ map Decided decisions
          = map (fun i => decision_of (always_approve (0 + i)))
                (seq 0 (length two_requests)).
Proof.
  split; [reflexivity|].
  apply (one_decision_per_request MiniMarkup.markup always_approve two_requests 0
           eq_refl).
  intros i _. discriminate.
Defined.

(** X6 on an example: a turn on [see @b\ c.txt], where the file exists
    and cannot be read, calls the agent once, with the message and the
    section of the referenced files. *)
Lemma agent_called_witness :
  forallb (passes MiniMarkup.markup only_b_c) (find_mentions "see @b\ c.txt") = true
  /\ exists rest,
       agent_calls
         (turn_log
            (execute_task MiniJson.json_loads MiniJson.dict_items MiniJson.py_str
               MiniMarkup.markup always_approve InvokeReturns only_b_c unreadable
               "see @b\ c.txt" [calm_items] None))
       = AgentStream
           (UserMessages
              (final_input_of unreadable "see @b\ c.txt"
                 (flat_map (resolved_file only_b_c) (find_mentions "see @b\ c.txt"))))
         :: rest
       /\ resumes rest = true.
Proof.
  split; [reflexivity|].
  exact (proj1 (agent_called_with_message_then_resumed
                  MiniJson.value MiniJson.json_loads MiniJson.dict_items
                  MiniJson.py_str MiniMarkup.markup always_approve InvokeReturns
                  only_b_c unreadable "see @b\ c.txt" [calm_items] None)
               eq_refl).
Defined.

(** X11 on an example: the mention of [see @a.txt]. *)
Lemma mentions_well_formed_witness :
  In "a.txt" (find_mentions "see @a.txt")
  /\ "a.txt" <> EmptyString
  /\ count_at "a.txt" = 0
  /\ mention_body at_sign "a.txt" = true.
Proof.
  assert (H : In "a.txt" (find_mentions "see @a.txt")) by (vm_compute; auto).
  split; [exact H|].
  exact (mentions_are_well_formed "see @a.txt" "a.txt" H).
Defined.

(** X12 on an example: of the two mentions of
    [see @b\ c.txt and @nothing] one gives a file and one a warning. *)
Lemma one_file_or_warning_witness :
  forallb (passes MiniMarkup.markup only_b_c)
          (find_mentions "see @b\ c.txt and @nothing") = true
  /\ length (find_mentions "see @b\ c.txt and @nothing") = 2
  /\ exists files warnings,
       parse_file_mentions MiniMarkup.markup only_b_c "see @b\ c.txt and @nothing"
       = (Returns "see @b\ c.txt and @nothing" files, warnings)
       /\ length files + length warnings
          = length (find_mentions "see @b\ c.txt and @nothing").
Proof.
  split; [reflexivity|]. split; [reflexivity|].
  exact (proj1 (proj2 (one_file_or_warning_per_mention
                         MiniMarkup.markup only_b_c "see @b\ c.txt and @nothing"))
               eq_refl).
Defined.

(** X13 on an example: down, then up, then Enter approves. *)
Lemma arrows_toggle_witness :
  forallb arrow_letter ["B"; "A"]%char = true
  /\ fst (fst (approval_menu (arrow_keys ["B"; "A"]%char ++ key_cr :: [])))
     = MenuConfirmed 0
  /\ menu_choice
       (fst (fst (approval_menu (arrow_keys ["B"; "A"]%char ++ key_cr :: []))))
     = Some ChooseApprove.
Proof.
  pose proof (arrows_toggle_the_selection ["B"; "A"]%char [] eq_refl) as T.
  cbv zeta in T. destruct T as (Hend & _ & Hchoice).
  split; [reflexivity|]. split; [exact Hend | exact Hchoice].
Defined.

(** X14 on an example: with the option [Reject] highlighted (one arrow
    key), [a] approves. *)
Lemma shortcuts_witness :
  idle (arrow_keys ["B"%char]) = true
  /\ fst (fst (approval_menu (arrow_keys ["B"%char] ++ "a"%char :: ["x"%char])))
     = MenuConfirmed 0
  /\ snd (approval_menu (arrow_keys ["B"%char] ++ "a"%char :: ["x"%char]))
     = ["x"%char].
Proof.
  pose proof (shortcuts_decide_whatever_is_highlighted
                (arrow_keys ["B"%char]) ["x"%char] eq_refl) as T.
  destruct T as (_ & Ha & _).
  split; [reflexivity|].
  exact (Ha "a"%char (or_introl eq_refl)).
Defined.

(** X15 on an example: one arrow key, then a line feed, confirms the
    second option. *)
Lemma enter_confirms_witness :
  idle (arrow_keys ["B"%char]) = true
  /\ fst (fst (approval_menu (arrow_keys ["B"%char] ++ key_lf :: [])))
     = MenuConfirmed
         (last (snd (fst (approval_menu (arrow_keys ["B"%char] ++ key_lf :: []))))
               0%Z)
  /\ last (snd (fst (approval_menu (arrow_keys ["B"%char] ++ key_lf :: [])))) 0%Z
     = 1%Z.
Proof.
  pose proof (enter_confirms_the_highlighted_option
                (arrow_keys ["B"%char]) [] key_lf eq_refl (or_intror eq_refl))
    as T.
  cbv zeta in T. destruct T as (Hend & _ & _).
  split; [reflexivity|]. split; [exact Hend | reflexivity].
Defined.

(** A shell whose commands print [ok] and succeed. *)
(** A shell whose commands print [ok] and succeed. *)
Definition quiet_shell : string -> run_result :=
  fun _ => RunCompleted "ok" EmptyString 0.

(** A shell whose commands fail with exit code 2. *)
Definition failing_shell : string -> run_result :=
  fun _ => RunCompleted EmptyString "no such file" 2.

(** X16 on an example: the line [/nonsense] is handled as a command. *)
Lemma slash_lines_witness :
  starts_with "/"%char (py_strip " /nonsense ") = true
  /\ simple_cli_round MiniMarkup.markup quiet_shell " /nonsense " TokenTracker.init
     = RunCommand (UnknownCommand "nonsense")
  /\ fst (handle_command MiniMarkup.markup (py_strip " /nonsense ") TokenTracker.init)
     <> CommandReturns ResultFalse.
Proof.
  split; [reflexivity|]. split; [reflexivity|].
  exact (proj1 (slash_lines_stay_in_the_console
                  MiniMarkup.markup quiet_shell " /nonsense " TokenTracker.init
                  eq_refl)).
Defined.

(** An unknown command that reads as a closing tag: the print of its name
    raises, and the exception leaves the round of the console. *)
Lemma unknown_command_with_markup_leaves_the_console :
  simple_cli_round MiniMarkup.markup quiet_shell "/[/x]" TokenTracker.init
  = CommandFails (UnknownCommand "[/x]")
      (MarkupError
         (codes "closing tag '[/x]' at position 26 doesn't match any open tag")).
Proof. vm_compute. reflexivity. Qed.

(** X17 on an example: the line [  fix the bug ] reaches the agent
    stripped. *)
Lemma task_lines_witness :
  simple_cli_round MiniMarkup.markup quiet_shell "  fix the bug " TokenTracker.init
  = RunTask "fix the bug".
Proof.
  apply (proj2 (task_lines MiniMarkup.markup quiet_shell "  fix the bug "
                           TokenTracker.init "fix the bug")).
  repeat split; reflexivity.
Defined.

(** X18 on an example: [/tokens] is known and does not leave the
    console. *)
Lemma listed_commands_witness :
  In "tokens" (map fst COMMANDS)
  /\ (forall cmd,
        snd (handle_command MiniMarkup.markup ("/" +++ "tokens") TokenTracker.init)
        <> UnknownCommand cmd)
  /\ fst (handle_command MiniMarkup.markup ("/" +++ "tokens") TokenTracker.init)
     <> CommandReturns ResultExit.
Proof.
  assert (H : In "tokens" (map fst COMMANDS)) by (vm_compute; tauto).
  destruct (listed_commands_are_known MiniMarkup.markup "tokens" TokenTracker.init H)
    as (Hknown & Hexit & _).
  split; [exact H|]. split; [exact Hknown|].
  intro E. destruct (proj1 Hexit E) as [E'|E']; discriminate.
Defined.

(** X19 on an example: [!ls missing] on a shell that fails runs the
    command once and shows the exit code. *)
Lemma bash_command_witness :
  lstrip_char "!"%char (py_strip "!ls missing") <> EmptyString
  /\ execute_bash_command MiniMarkup.markup failing_shell "!ls missing"
     = ([BashBlank; BashEcho "ls missing"; BashRun "ls missing";
         BashStderr "no such file"; BashExitCode 2; BashBlank], None)
  /\ runs (fst (execute_bash_command MiniMarkup.markup failing_shell "!ls missing"))
     = ["ls missing"]
  /\ exit_codes
       (fst (execute_bash_command MiniMarkup.markup failing_shell "!ls missing"))
     = [2%Z].
Proof.
  assert (H : lstrip_char "!"%char (py_strip "!ls missing") <> EmptyString)
    by discriminate.
  split; [exact H|]. split; [reflexivity|].
  pose proof (bash_command_runs_once MiniMarkup.markup failing_shell "!ls missing")
    as T.
  cbv zeta in T. destruct T as (_ & _ & Hrun).
  destruct (Hrun H) as (_ & Hruns & Hcodes & _).
  split; [exact Hruns | exact Hcodes].
Defined.

(** A command that reads as a closing tag is not run: the print of the
    command raises, the handler prints the text of that exception, which
    holds the same tag, and the second exception leaves the function. *)
Lemma bash_command_with_markup_is_not_run :
  execute_bash_command MiniMarkup.markup quiet_shell "!echo [/x]"
  = ([BashBlank; BashEcho "echo [/x]";
      BashError
        (codes "closing tag '[/x]' at position 12 doesn't match any open tag")],
     Some (MarkupError
             (codes "closing tag '[/x]' at position 43 doesn't match any open tag"))).
Proof. vm_compute. reflexivity. Qed.

(** A path completer that offers two files of [src/]. *)
Definition src_completer : document -> list completion :=
  fun _ => [mk_completion "src/main.py" 0 "main.py" EmptyString;
            mk_completion "src/util.py" 0 "util.py" EmptyString].

(** X21 on an example: after [open @src/ma] only [src/main.py] is
    offered, and it holds [ma]. *)
Lemma file_completions_witness :
  In (mk_completion "src/main.py" 0 "main.py" EmptyString)
     (file_completions src_completer (mk_document "open @src/ma" 12))
  /\ contains at_sign "open @src/ma" = true
  /\ is_infix "ma" "src/main.py" = true.
Proof.
  assert (H : In (mk_completion "src/main.py" 0 "main.py" EmptyString)
                 (file_completions src_completer (mk_document "open @src/ma" 12)))
    by (vm_compute; auto).
  pose proof (file_completions_come_from_the_last_mention
                src_completer (mk_document "open @src/ma" 12) _ H) as T.
  cbv zeta in T. destruct T as (Hat & _ & _ & _ & Hinfix).
  split; [exact H|]. split; [exact Hat|].
  exact (Hinfix eq_refl).
Defined.

(** X25 on an example: with a menu of completions open and none
    highlighted, Enter applies the first one and does not submit. *)
Lemma enter_key_witness :
  on_enter (mk_buffer "open @src/ma"
              (Some (mk_complete_state None
                       (src_completer (mk_document "src/ma" 6)))))
  = ApplyCompletion (mk_completion "src/main.py" 0 "main.py" EmptyString).
Proof.
  exact (proj2 (enter_submits_only_text_without_menu
                  (mk_buffer "open @src/ma"
                     (Some (mk_complete_state None
                              (src_completer (mk_document "src/ma" 6))))))
               (mk_complete_state None (src_completer (mk_document "src/ma" 6)))
               eq_refl).
Defined.

